(** * inventory: a tag-indexed transactional in-memory store

    A shallow embedding of the Go package [inventory]
    (key codec, storage snapshot, transaction overlay, store engine,
    collections and derivatives) together with the properties that its
    specification states about it.

    Conventions of the embedding.
    - A Go [string] is a byte string: [String.string].
    - A Go [int] index is a [Z]; [strings.IndexByte] answers [-1] when the
      byte does not occur.
    - A run-time panic is the [None] of an [option] result.
    - A Go [map[string]V] is a [gmap string V]; a nil map reads as the empty
      map, and only an assignment into a nil map panics.
    - A Go [map[string]struct{}] used as a set is a [gset string].
    - [interface{}] is [any V]: the nil interface or a dynamic value of [V]. *)

From Stdlib Require Import ZArith String Ascii.
From stdpp Require Import base option list gmap strings fin_maps.

Local Open Scope string_scope.
Local Open Scope Z_scope.

(** ** Key codec *)

Module Codec.

Definition curlyStart : ascii := "{"%char.
Definition curlyEnd : ascii := "}"%char.
Definition colon : ascii := ":"%char.

(** [strings.IndexByte]: index of the first occurrence of [c], or [-1]. *)
Fixpoint IndexByte (s : string) (c : ascii) : Z :=
  match s with
  | EmptyString => -1
  | String a s' =>
      if Ascii.eqb a c then 0
      else let i := IndexByte s' c in if i <? 0 then -1 else i + 1
  end.

(** The slice expression [s[lo:hi]]; Go panics unless
    [0 <= lo <= hi <= len(s)]. *)
Definition slice (s : string) (lo hi : Z) : option string :=
  if (0 <=? lo) && (lo <=? hi) && (hi <=? Z.of_nat (String.length s))
  then Some (substring (Z.to_nat lo) (Z.to_nat (hi - lo)) s)
  else None.

(** [writeKey] appends [kind{key:val}] to the buffer [dst]. *)
Definition writeKey (dst kind key val : string) : string :=
  (dst ++ kind ++ String curlyStart (key ++ String colon (val ++ String curlyEnd "")))%string.

(** [mkKey] takes a buffer from the pool, which only ever holds buffers
    that were reset, so it writes into an empty buffer. *)
Definition mkKey (kind key val : string) : string :=
  writeKey "" kind key val.

(** [parseKey]; the named results keep what was assigned before an early
    return. *)
Definition parseKey (key : string) : option (string * string * string * bool) :=
  let endOfKind := IndexByte key curlyStart in
  if endOfKind <? 0 then Some ("", "", "", false) else
  kind ← slice key 0 endOfKind;
  let endOfKey := IndexByte key colon in
  if endOfKey <? 0 then Some (kind, "", "", false) else
  k ← slice key (endOfKind + 1) endOfKey;
  let endOfKeyVal := IndexByte key curlyEnd in
  if endOfKeyVal <? 0 then Some (kind, k, "", false) else
  v ← slice key (endOfKey + 1) endOfKeyVal;
  Some (kind, k, v, true).

(** Whether the byte [c] occurs in [s]. *)
Fixpoint occurs (c : ascii) (s : string) : bool :=
  match s with
  | EmptyString => false
  | String a s' => Ascii.eqb a c || occurs c s'
  end.

(** A component is delimiter free when none of ['{'], [':'], ['}'] occurs
    in it. *)
Definition delimiter_free (s : string) : bool :=
  negb (occurs curlyStart s) && negb (occurs colon s) && negb (occurs curlyEnd s).

End Codec.

(** The rest of a string from an index on: the slice [s[n:]]. *)
Definition string_from (n : nat) (s : string) : string :=
  substring n (String.length s - n) s.

(** ** Values and errors *)

(** A Go [interface{}]: the nil interface or a dynamic value. *)
Inductive any (V : Type) : Type :=
| anil
| aval (v : V).
Arguments anil {V}.
Arguments aval {V} v.

(** The non-nil Go [error] values that occur: an error made by a
    caller-supplied callback, and one constructor per [fmt.Errorf] site of
    the package. [None : option error] is the nil error. *)
Inductive error : Type :=
| ErrCallback (msg : string)
| ErrNoPrimaryKey (kind : string)
| ErrTypeAssertion
| ErrRetrieve (key : string)
| ErrExpectedType (key : string).

(** ** Map iteration order

    Go leaves the iteration order of [for k := range m] unspecified.
    [range m] is the order in which the run time enumerates the set [m];
    every definition that loops over a map takes it as a parameter. *)
Class MapOrder : Type := range : gset string → list string.

(** ** Storage snapshot and transaction overlay *)

Section Inventory.

(** [V] is the type of the dynamic values held by the store, [W] the state
    of the world outside the store that caller-supplied callbacks may read
    and change. *)
Context {V W : Type}.

Context {order : MapOrder}.

Record storage : Type := Storage {
  tagToKeys : gmap string (gset string);
  keyToTags : gmap string (gset string);
  items : gmap string (any V)
}.

Definition empty_storage : storage := Storage ∅ ∅ ∅.

Record transaction : Type := Transaction {
  origin : storage;
  additions : storage;
  deletions : storage
}.

Definition set_additions (c : transaction) (a : storage) : transaction :=
  Transaction (origin c) a (deletions c).

Definition set_deletions (c : transaction) (d : storage) : transaction :=
  Transaction (origin c) (additions c) d.

Definition set_tagToKeys (s : storage) (m : gmap string (gset string)) : storage :=
  Storage m (keyToTags s) (items s).

Definition set_keyToTags (s : storage) (m : gmap string (gset string)) : storage :=
  Storage (tagToKeys s) m (items s).

Definition set_items (s : storage) (m : gmap string (any V)) : storage :=
  Storage (tagToKeys s) (keyToTags s) m.

(** The callback of [Iter]: it receives the key and the lazy getter and
    answers whether to proceed; [A] is the state the closure accumulates
    in its captured variables. *)
Definition visitFn (A : Type) : Type :=
  A → string → (unit → any V * bool) → A * bool.

(** *** cacheView: the published snapshot *)

Definition cacheView_Get (c : storage) (key : string) : any V * bool :=
  match items c !! key with
  | Some val => (val, true)
  | None => (anil, false)
  end.

(** The loop of [cacheView.Iter]: visit the keys in turn, break when the
    callback answers false. *)
Fixpoint cacheView_Iter_loop {A} (c : storage) (fn : visitFn A)
    (ks : list string) (a : A) : A :=
  match ks with
  | [] => a
  | k :: ks' =>
      let '(a', proceed) := fn a k (λ _, cacheView_Get c k) in
      if proceed then cacheView_Iter_loop c fn ks' a' else a'
  end.

Definition cacheView_Iter {A} (c : storage) (tag : string) (fn : visitFn A)
    (a : A) : A :=
  match tagToKeys c !! tag with
  | None => a
  | Some keys => cacheView_Iter_loop c fn (range keys) a
  end.

(** *** transaction: the overlay handed to an Update callback *)

(** [m[outer][inner] = struct{}{}] and [delete(m[outer], inner)] mutate the
    inner set in place; deleting from a missing (nil) inner set does
    nothing. *)
Definition inner_add (outer inner : string)
    (m : gmap string (gset string)) : gmap string (gset string) :=
  alter (λ s, {[inner]} ∪ s) outer m.

Definition inner_delete (outer inner : string)
    (m : gmap string (gset string)) : gmap string (gset string) :=
  alter (λ s, s ∖ {[inner]}) outer m.

(** Copy-on-first-write: unless the overlay already has an entry, install
    a fresh copy of the origin's set, or a fresh empty set. *)
Definition materialize (k : string)
    (added orig : gmap string (gset string)) : gmap string (gset string) :=
  match added !! k with
  | Some _ => added
  | None =>
      match orig !! k with
      | Some s => <[k := s]> added
      | None => <[k := ∅]> added
      end
  end.

(** One round of the loop over [tags] in [transaction.Tag]. *)
Definition Tag_step (key : string) (c : transaction) (tag : string) : transaction :=
  let a := additions c in
  let t2k := materialize tag (tagToKeys a) (tagToKeys (origin c)) in
  let t2k := inner_add tag key t2k in
  let k2t := inner_add key tag (keyToTags a) in
  set_additions c (Storage t2k k2t (items a)).

Definition transaction_Tag (c : transaction) (key : string)
    (tags : list string) : transaction :=
  let a := additions c in
  let c := set_additions c
             (set_keyToTags a (materialize key (keyToTags a) (keyToTags (origin c)))) in
  foldl (Tag_step key) c tags.

(** [transaction.Get]. The named result [ok] is reused for all three
    lookups, and [val] still holds the zero value of the additions lookup
    at the final bare [return]. *)
Definition transaction_Get (c : transaction) (key : string) : any V * bool :=
  match items (additions c) !! key with
  | Some val => (val, true)
  | None =>
      match items (origin c) !! key with
      | None => (anil, false)
      | Some originVal =>
          match items (deletions c) !! key with
          | None => (originVal, true)
          | Some _ => (anil, true)
          end
      end
  end.

Definition transaction_Put (c : transaction) (key : string) (val : any V) : transaction :=
  set_additions c (set_items (additions c) (<[key := val]> (items (additions c)))).

(** One round of the loop over the tags of a key in [deleteKey]. *)
Definition deleteKey_step (key : string) (c : transaction) (tag : string) : transaction :=
  match tagToKeys (deletions c) !! tag with
  | Some _ => c
  | None =>
      let c := set_additions c
                 (set_tagToKeys (additions c)
                    (inner_delete tag key (tagToKeys (additions c)))) in
      set_deletions c
        (set_tagToKeys (deletions c) (<[tag := ∅]> (tagToKeys (deletions c))))
  end.

Definition transaction_deleteKey (c : transaction) (key : string) : transaction :=
  let c1 := set_additions c
              (set_items (additions c) (delete key (items (additions c)))) in
  let c2 := set_deletions c1
              (set_items (deletions c1) (<[key := anil]> (items (deletions c1)))) in
  let tags :=
    match keyToTags (additions c2) !! key with
    | Some tags => tags
    | None => default ∅ (keyToTags (origin c2) !! key)
    end in
  foldl (deleteKey_step key) c2 (range tags).

(** [if !slices.Contains(deleted, k) { deleted = append(deleted, k) }] *)
Definition append_new (deleted : list string) (k : string) : list string :=
  if decide (k ∈ deleted) then deleted else (deleted ++ [k])%list.

Definition Invalidate_key (st : transaction * list string) (k : string)
    : transaction * list string :=
  (transaction_deleteKey st.1 k, append_new st.2 k).

(** One round of the loop over [tags] in [transaction.Invalidate]. *)
Definition Invalidate_step (st : transaction * list string) (tag : string)
    : transaction * list string :=
  let c := st.1 in
  match tagToKeys (deletions c) !! tag with
  | Some _ => st
  | None =>
      let found :=
        match tagToKeys (additions c) !! tag with
        | Some keys => Some keys
        | None => tagToKeys (origin c) !! tag
        end in
      match found with
      | None => st
      | Some keys =>
          let c := set_additions c
                     (set_tagToKeys (additions c) (delete tag (tagToKeys (additions c)))) in
          let c := set_deletions c
                     (set_tagToKeys (deletions c) (<[tag := ∅]> (tagToKeys (deletions c)))) in
          Invalidate_key (foldl Invalidate_key (c, st.2) (range keys)) tag
      end
  end.

Definition transaction_Invalidate (c : transaction) (tags : list string)
    : transaction * list string :=
  foldl Invalidate_step (c, []) tags.

(** [dst[k] = struct{}{}] where [dst] may be the nil map ([None]):
    assigning into a nil map panics. *)
Definition assign_entry (dst : option (gset string)) (k : string)
    : option (option (gset string)) :=
  match dst with
  | None => None
  | Some d => Some (Some ({[k]} ∪ d))
  end.

(** [maps.Copy(dst, src)] is [for k, v := range src { dst[k] = v }]. *)
Definition maps_Copy (dst : option (gset string)) (src : gset string)
    : option (option (gset string)) :=
  foldl (λ acc k, d ← acc; assign_entry d k) (Some dst) (range src).

(** The loop of [transaction.Iter]. It ranges over the additions of the
    tag and tests [ok], the presence of that additions entry, where it
    just assigned [deleted]. *)
Fixpoint transaction_Iter_loop {A} (c : transaction) (ok : bool)
    (fn : visitFn A) (ks : list string) (a : A) : A :=
  match ks with
  | [] => a
  | k :: ks' =>
      if ok then transaction_Iter_loop c ok fn ks' a
      else
        let '(a', proceed) := fn a k (λ _, transaction_Get c k) in
        if proceed then transaction_Iter_loop c ok fn ks' a' else a'
  end.

(** [transaction.Iter]; [keys] is declared with [var] and never made, so
    it is the nil map when [maps.Copy] writes into it. *)
Definition transaction_Iter {A} (c : transaction) (tag : string)
    (fn : visitFn A) (a : A) : option A :=
  match tagToKeys (deletions c) !! tag with
  | Some _ => Some a
  | None =>
      keys ← maps_Copy None (default ∅ (tagToKeys (origin c) !! tag));
      let addedKeys := tagToKeys (additions c) !! tag in
      let ok := bool_decide (is_Some addedKeys) in
      _ ← (if ok then maps_Copy keys (default ∅ addedKeys) else Some keys);
      Some (transaction_Iter_loop c ok fn
              (range (default ∅ (tagToKeys (additions c) !! tag))) a)
  end.

(** *** Callbacks over a DBWriter

    A callback handed a [DBWriter] can only call its five methods, return,
    or panic. [wprog R] is such a callback as a tree of calls, [R] being
    what it returns (its error together with what it leaves in captured
    variables). *)
Inductive wprog (R : Type) : Type :=
| Return (r : R)
| Panic
| CallGet (key : string) (k : any V * bool → wprog R)
| CallIter {A : Type} (tag : string) (fn : visitFn A) (a : A) (k : A → wprog R)
| CallPut (key : string) (val : any V) (k : wprog R)
| CallTag (key : string) (tags : list string) (k : wprog R)
| CallInvalidate (tags : list string) (k : list string → wprog R).
Arguments Return {R} r.
Arguments Panic {R}.
Arguments CallGet {R} key k.
Arguments CallIter {R A} tag fn a k.
Arguments CallPut {R} key val k.
Arguments CallTag {R} key tags k.
Arguments CallInvalidate {R} tags k.

(** Sequencing of callbacks. *)
Fixpoint wbind {R S} (p : wprog R) (f : R → wprog S) : wprog S :=
  match p with
  | Return r => f r
  | Panic => Panic
  | CallGet key k => CallGet key (λ x, wbind (k x) f)
  | CallIter tag fn a k => CallIter tag fn a (λ x, wbind (k x) f)
  | CallPut key val k => CallPut key val (wbind k f)
  | CallTag key tags k => CallTag key tags (wbind k f)
  | CallInvalidate tags k => CallInvalidate tags (λ x, wbind (k x) f)
  end.

(** Running a callback against the overlay; [None] is a panic. *)
Fixpoint run {R} (p : wprog R) (c : transaction) : option (transaction * R) :=
  match p with
  | Return r => Some (c, r)
  | Panic => None
  | CallGet key k => run (k (transaction_Get c key)) c
  | CallIter tag fn a k => a' ← transaction_Iter c tag fn a; run (k a') c
  | CallPut key val k => run k (transaction_Put c key val)
  | CallTag key tags k => run k (transaction_Tag c key tags)
  | CallInvalidate tags k =>
      let '(c', deleted) := transaction_Invalidate c tags in run (k deleted) c'
  end.

(** *** db: the store engine *)

(** The struct [db]: the live snapshot and the reusable overlay [t]. The
    two mutexes serialise the calls and have no state of their own in a
    sequential run. *)
Record db : Type := DB {
  db_storage : storage;
  db_t : transaction
}.

(** [NewDB]; the maps of the zero-valued overlay are nil and read as
    empty. *)
Definition NewDB : db :=
  DB empty_storage (Transaction empty_storage empty_storage empty_storage).

(** The publish step of [Update]: every key of a deletions map is deleted
    from the live map, then every entry of the additions map is assigned
    to it. *)
Definition publish (live : storage) (t : transaction) : storage :=
  Storage
    (tagToKeys (additions t) ∪ (tagToKeys live ∖ tagToKeys (deletions t)))
    (keyToTags (additions t) ∪ (keyToTags live ∖ keyToTags (deletions t)))
    (items (additions t) ∪ (items live ∖ items (deletions t))).

(** [db.Update]. The overlay maps are made when nil (they then read as
    empty already), [updateFn] runs against the overlay opened on the live
    snapshot, the overlay is published only when [updateFn] returns a nil
    error, and the six overlay maps are cleared in both cases. A panic of
    [updateFn] propagates. *)
Definition db_Update {R} (c : db) (updateFn : wprog (R * option error))
    : option (db * R * option error) :=
  let t := Transaction (db_storage c) (additions (db_t c)) (deletions (db_t c)) in
  '(t', (r, err)) ← run updateFn t;
  let live :=
    match err with
    | None => publish (db_storage c) t'
    | Some _ => db_storage c
    end in
  Some (DB live (Transaction live empty_storage empty_storage), r, err).

Definition db_View {R} (c : db) (viewFn : storage → R * option error)
    : R * option error :=
  viewFn (db_storage c).

Definition db_Get (c : db) (key : string) : any V * bool :=
  cacheView_Get (db_storage c) key.

Definition db_Iter {A} (c : db) (tag : string) (fn : visitFn A) (a : A) : A :=
  cacheView_Iter (db_storage c) tag fn a.

Definition db_Put (c : db) (key : string) (val : any V) : option db :=
  '(c', _, _) ← db_Update c (CallPut key val (Return (tt, None)));
  Some c'.

Definition db_Tag (c : db) (key : string) (tags : list string) : option db :=
  '(c', _, _) ← db_Update c (CallTag key tags (Return (tt, None)));
  Some c'.

Definition db_Invalidate (c : db) (tags : list string) : option (db * list string) :=
  '(c', deleted, _) ←
    db_Update c (CallInvalidate tags (λ deleted, Return (deleted, None)));
  Some (c', deleted).

(** The fill callback of [GetOrFill]: it may read and change the world
    outside the store, and returns a value and an error. *)
Definition fillFn : Type := W → any V * option error * W.

(** The callback that [GetOrFill] hands to [Update]; it leaves [val] and the
    world in its captured variables. *)
Definition GetOrFill_updateFn (key : string) (fill : fillFn)
    (tags : list string) (w : W) : wprog (any V * W * option error) :=
  CallGet key (λ '(val, ok),
    if ok then Return (val, w, None)
    else
      let '(val, err, w') := fill w in
      match err with
      | Some e => Return (val, w', Some e)
      | None => CallPut key val (CallTag key tags (Return (val, w', None)))
      end).

(** [db.GetOrFill]: the result is the store, the returned value and error,
    and the world after the call. *)
Definition db_GetOrFill (c : db) (key : string) (fill : fillFn)
    (tags : list string) (w : W) : option (db * (any V * option error) * W) :=
  let '(val, ok) := db_Get c key in
  if ok then Some (c, (val, None), w)
  else
    '(c', (val, w'), err) ← db_Update c (GetOrFill_updateFn key fill tags w);
    Some (c', (val, err), w').

(** ** Collections, inferences and derivatives *)

(** Boxing a typed value into [interface{}] and the type assertion
    [i.(T)], which answers [None] when [ok] is false. A boxed value asserts
    back to itself. *)
Class Dyn (T : Type) : Type := {
  to_any : T → any V;
  assert_type : any V → option T;
  assert_to_any : ∀ x, assert_type (to_any x) = Some x
}.

(** [indexFn]: the values the function passes to [keyVal], in call
    order. *)
Definition indexFn (T : Type) : Type := T → list string.

(** [mapFn]: the [(kv, items...)] calls the function makes, in order. *)
Definition mapFn (From To : Type) : Type := From → list (string * list To).

(** [inferFn]: what the hook does with the writer for a loaded item. *)
Definition inferFn (T : Type) : Type := T → wprog unit.

(** [extractFn]: the batches the extractor passes to [load], in order; it
    reads them from the world outside the store. *)
Definition extractFn (T : Type) : Type := W → list (list T) * W.

(** The struct [index]; [ref] is a func value and may be nil. *)
Record index (T : Type) : Type := Index {
  pk : bool;
  ikind : string;
  ikey : string;
  ref : option (indexFn T)
}.
Arguments Index {T} pk ikind ikey ref.
Arguments pk {T} i.
Arguments ikind {T} i.
Arguments ikey {T} i.
Arguments ref {T} i.

(** The struct [Collection]. The [db] field is a pointer to the shared
    store, whose state the operations below take and return explicitly.
    [extract] is a func value and may be nil. *)
Record Collection (T : Type) : Type := MkCollection {
  kind : string;
  col_pk : index T;
  keys : list (index T);
  extract : option (extractFn T);
  inferences : list (inferFn T)
}.
Arguments MkCollection {T} kind col_pk keys extract inferences.
Arguments kind {T} c.
Arguments col_pk {T} c.
Arguments keys {T} c.
Arguments extract {T} c.
Arguments inferences {T} c.

Definition CollectionOpt (T : Type) : Type := Collection T → Collection T.

Definition Collection_With {T} (c : Collection T) (opts : list (CollectionOpt T))
    : Collection T :=
  foldl (λ c opt, opt c) c opts.

Definition NewCollection {T} (kind : string) (opts : list (CollectionOpt T))
    : Collection T :=
  Collection_With (MkCollection kind (Index false "" "" None) [] None []) opts.

(** The option [Extractor]; [x] is a func value, stored as it is given,
    nil included. *)
Definition Extractor {T} (x : option (extractFn T)) : CollectionOpt T :=
  λ c, MkCollection (kind c) (col_pk c) (keys c) x (inferences c).

(** [Collection.addIndex]; [value] is a func value, stored as it is
    given, nil included. *)
Definition addIndex {T} (c : Collection T) (kind' key : string) (primary : bool)
    (value : option (indexFn T)) : Collection T * bool :=
  if existsb (λ i, String.eqb (ikey i) key) (keys c) then (c, false)
  else
    let idx := Index primary kind' key value in
    if primary
    then (MkCollection (kind c) idx (keys c) (extract c) (inferences c), true)
    else (MkCollection (kind c) (col_pk c) (keys c ++ [idx])%list (extract c) (inferences c), true).

Definition PrimaryKey {T} (name : string) (value : option (indexFn T))
    : CollectionOpt T :=
  λ c, (addIndex c (kind c) name true value).1.

Definition AdditionalKey {T} (name : string) (value : option (indexFn T))
    : CollectionOpt T :=
  λ c, (addIndex c (kind c) name false value).1.

(** Running a list of callbacks one after the other. *)
Definition wseq (ps : list (wprog unit)) : wprog unit :=
  foldr (λ p rest, wbind p (λ _, rest)) (Return tt) ps.

(** [Collection.indexer]: nothing when there is no primary index;
    otherwise [fn] runs once per value the primary index yields for each
    item. *)
Definition Collection_indexer {T} (c : Collection T) (items' : list T)
    (fn : string → T → wprog unit) : wprog unit :=
  match ref (col_pk c) with
  | None => Return tt
  | Some pkref =>
      wseq (item ← items';
            (λ v, fn (Codec.mkKey (kind c) (ikey (col_pk c)) v) item) <$> pkref item)
  end.

(** [Collection.tagItemWithIndexes]; calling a nil [ref] panics. *)
Definition Collection_tagItemWithIndexes {T} (c : Collection T) (key : string)
    (item : T) : wprog unit :=
  wseq ((λ idx,
           match ref idx with
           | None => Panic
           | Some r =>
               wseq ((λ v, CallTag key [Codec.mkKey (kind c) (ikey idx) v] (Return tt))
                       <$> r item)
           end) <$> keys c).

Definition Collection_loadItem {T} `{!Dyn T} (c : Collection T) (key : string)
    (item : T) : wprog unit :=
  CallPut key (to_any item)
    (CallTag key [kind c]
       (wbind (Collection_tagItemWithIndexes c key item)
          (λ _, wseq ((λ infer, infer item) <$> inferences c)))).

(** [Collection.Load]; calling a nil [extract] panics. *)
Definition Collection_Load {T} `{!Dyn T} (c : Collection T) (w : W) : wprog W :=
  match extract c with
  | None => Panic
  | Some x =>
      let '(batches, w') := x w in
      wbind (wseq ((λ items', Collection_indexer c items' (Collection_loadItem c))
                     <$> batches))
        (λ _, Return w')
  end.

(** [Collection.Invalidate]: one Update that invalidates the kind and
    reloads. *)
Definition Collection_Invalidate {T} `{!Dyn T} (c : Collection T) (d : db) (w : W)
    : option (db * W) :=
  '(d', w', _) ←
    db_Update d
      (CallInvalidate [kind c] (λ _,
         wbind (Collection_Load c w) (λ w', Return (w', None))));
  Some (d', w').

(** The hook that [Infer] appends to the inferences of the base
    collection. The closure holds pointers to both collections, so it
    acts on their state at the time it is called: [baseCol] and
    [inferredCol] are those states. *)
Definition Infer_hook {Base Inferred} `{!Dyn Inferred} (baseCol : Collection Base)
    (mapBy : string) (mapFn' : mapFn Base Inferred)
    (inferredCol : Collection Inferred) : inferFn Base :=
  λ base,
    wseq ((λ '(kv, items'),
             Collection_indexer inferredCol items' (λ key item,
               wbind (Collection_loadItem inferredCol key item) (λ _,
                 match ref (col_pk baseCol) with
                 | None => Panic
                 | Some pkref =>
                     wseq ((λ _, CallTag key [Codec.mkKey (kind baseCol) mapBy kv]
                                   (Return tt)) <$> pkref base)
                 end))) <$> mapFn' base).

(** The query closure that [Infer] returns with the inferred
    collection. *)
Definition Infer_query {Inferred} `{!Dyn Inferred} (baseKind mapBy : string) (d : db)
    (val : string) (filters : list (Inferred → bool))
    : list Inferred * option error :=
  db_Iter d (Codec.mkKey baseKind mapBy val)
    (λ '(res, err) key getVal,
       let '(item, ok) := getVal tt in
       if negb ok then ((res, Some (ErrRetrieve key)), false)
       else
         match assert_type item with
         | None => ((res, Some (ErrExpectedType key)), false)
         | Some t =>
             if forallb (λ f, f t) filters then (((res ++ [t])%list, err), true)
             else ((res, err), true)
         end)
    ([], None).

(** [Infer]. It makes the inferred collection by [NewCollection] without
    any option, and appends a hook to the inferences that the base
    collection has. The hook holds pointers to both collections and reads
    them each time it is called, after options may have been applied to
    either of them. The first component is therefore the base collection
    as a load finds it, given the states [baseNow] and [inferredNow] that
    the two collections have by then: its fields are those of [baseNow],
    and the appended hook reads [baseNow] and [inferredNow]. The second
    component is the inferred collection as [Infer] returns it. *)
Definition Infer {Base Inferred} `{!Dyn Inferred} (baseCol : Collection Base)
    (mapBy : string) (mapFn' : mapFn Base Inferred)
    : (Collection Base → Collection Inferred → Collection Base)
      * Collection Inferred :=
  (λ baseNow inferredNow,
     MkCollection (kind baseNow) (col_pk baseNow) (keys baseNow) (extract baseNow)
       (inferences baseCol ++ [Infer_hook baseNow mapBy mapFn' inferredNow])%list,
   NewCollection mapBy []).

(** The key under which a derivative is stored: the primary index
    assigns [key] once per value it yields, so the last one stays; [key]
    is the empty string when it yields none. *)
Definition Derive_key {In} (collection : Collection In) (name : string)
    (pkref : indexFn In) (i : In) : string :=
  foldl (λ _ v,
           Codec.mkKey (kind collection ++ "/" ++ name)%string (ikey (col_pk collection)) v)
        "" (pkref i).

(** [Derive]: the returned [Derivative], applied to an item, a store and a
    world. [fn] computes the output from the item and may use the world.
    The output is [None] where Go returns the zero value of [Out]. *)
Definition Derive {In Out} `{!Dyn Out} (collection : Collection In) (name : string)
    (fn : In → W → Out * option error * W) (i : In) (d : db) (w : W)
    : option (db * (option Out * option error) * W) :=
  match ref (col_pk collection) with
  | None => Some (d, (None, Some (ErrNoPrimaryKey (kind collection))), w)
  | Some pkref =>
      let key := Derive_key collection name pkref i in
      '(d', (val, err), w') ←
        db_GetOrFill d key
          (λ w, let '(res, err, w') := fn i w in (to_any res, err, w'))
          [kind collection] w;
      match err with
      | Some e => Some (d', (None, Some e), w')
      | None =>
          match assert_type val with
          | Some out => Some (d', (Some out, None), w')
          | None => Some (d', (None, Some ErrTypeAssertion), w')
          end
      end
  end.

(** *** Typed accessors

    The function types [Getter], [Query] and [Scalar]; each takes the
    state of the shared store it reads. The zero value of [T] is [None]. *)
Definition Getter (T : Type) : Type := db → string → option T * bool.

Definition Query (T : Type) : Type :=
  db → string → list (T → bool) → list T * option error.

Definition Scalar (T : Type) : Type := db → option T * bool.

(** [Collection.getter]: a primary getter reads the composed key; any
    other getter iterates the tag of the attribute value and stops at the
    first key it is handed. The pair is the state of the captured [i] and
    [ok]. *)
Definition Collection_getter {T} `{!Dyn T} (c : Collection T) (key : string)
    (primary : bool) : Getter T :=
  λ d val,
    let '(i, ok) :=
      if negb primary
      then db_Iter d (Codec.mkKey (kind c) key val)
             (λ _ _ getVal, (getVal tt, false)) (anil, false)
      else db_Get d (Codec.mkKey (kind c) key val) in
    if negb ok then (None, false)
    else
      match assert_type i with
      | Some t => (Some t, true)
      | None => (None, false)
      end.

(** [Collection.index]: registers the index and returns the getter. *)
Definition Collection_index {T} `{!Dyn T} (c : Collection T) (key : string)
    (primary : bool) (value : option (indexFn T)) : Collection T * Getter T :=
  let c' := (addIndex c (kind c) key primary value).1 in
  (c', Collection_getter c' key primary).

(** The methods [Collection.PrimaryKey] and [Collection.AdditionalKey]. *)
Definition Collection_PrimaryKey {T} `{!Dyn T} (c : Collection T) (key : string)
    (value : option (indexFn T)) : Collection T * Getter T :=
  Collection_index c key true value.

Definition Collection_AdditionalKey {T} `{!Dyn T} (c : Collection T) (key : string)
    (value : option (indexFn T)) : Collection T * Getter T :=
  Collection_index c key false value.

(** [Collection.GetBy]: a getter from an existing index, primary when the
    name is that of the primary index. *)
Definition Collection_GetBy {T} `{!Dyn T} (c : Collection T) (key : string) : Getter T :=
  Collection_getter c key (String.eqb key (ikey (col_pk c))).

(** [Collection.Scalar]. *)
Definition Collection_Scalar {T} `{!Dyn T} (c : Collection T) (key value : string)
    : Scalar T :=
  let k := Codec.mkKey (kind c) key value in
  λ d,
    let '(i, ok) := db_Get d k in
    if negb ok then (None, false)
    else
      match assert_type i with
      | Some t => (Some t, true)
      | None => (None, false)
      end.

(** [Collection.MapBy]: registers a secondary index and returns the query
    over the tag of an attribute value. *)
Definition Collection_MapBy {T} `{!Dyn T} (c : Collection T) (key : string)
    (ref' : option (indexFn T)) : Collection T * Query T :=
  ((addIndex c (kind c) key false ref').1,
   λ d val filters,
     db_Iter d (Codec.mkKey (kind c) key val)
       (λ '(res, err) key getVal,
          let '(item, ok) := getVal tt in
          if negb ok then ((res, Some (ErrRetrieve key)), false)
          else
            match assert_type item with
            | None => ((res, Some (ErrExpectedType key)), false)
            | Some t =>
                if forallb (λ f, f t) filters then (((res ++ [t])%list, err), true)
                else ((res, err), true)
            end)
       ([], None)).

(** The callback of [Collection.Scan]. [consume] accumulates in [A] and
    answers whether to proceed. [parseKey] may panic: the state is then
    [None] and the iteration ends. *)
Definition Scan_visit {T A} `{!Dyn T} (c : Collection T) (consume : A → T → A * bool)
    (filters : list (T → bool)) : visitFn (option A) :=
  λ acc itemKey getVal,
    match acc with
    | None => (None, false)
    | Some a =>
        match Codec.parseKey itemKey with
        | None => (None, false)
        | Some (_, key, _, ok) =>
            if negb ok || negb (String.eqb key (ikey (col_pk c))) then (Some a, true)
            else
              let '(item, ok) := getVal tt in
              if negb ok then (Some a, true)
              else
                match assert_type item with
                | None => (Some a, true)
                | Some t =>
                    if forallb (λ f, f t) filters
                    then let '(a', proceed) := consume a t in (Some a', proceed)
                    else (Some a, true)
                end
        end
    end.

(** [Collection.Scan]; [None] is a panic. *)
Definition Collection_Scan {T A} `{!Dyn T} (c : Collection T) (d : db)
    (consume : A → T → A * bool) (filters : list (T → bool)) (a : A) : option A :=
  db_Iter d (kind c) (Scan_visit c consume filters) (Some a).

(** ** Vocabulary of the properties *)

(** What the enumeration order of a [range] loop is known to satisfy: it
    lists every member, and nothing but members. *)
Definition range_complete : Prop := ∀ (X : gset string) x, x ∈ X → x ∈ range X.
Definition range_sound : Prop := ∀ (X : gset string) x, x ∈ range X → x ∈ X.

(** The overlay as [Update] leaves it and as [NewDB] makes it. *)
Definition overlay_empty (c : db) : Prop :=
  additions (db_t c) = empty_storage ∧ deletions (db_t c) = empty_storage.

(** The overlay that [Update] opens on the store [c]. *)
Definition open_overlay (c : db) : transaction :=
  Transaction (db_storage c) (additions (db_t c)) (deletions (db_t c)).

(** The effective entry of a key under overlay precedence at publish
    time: the additions win, then a deletion hides the live entry. *)
Definition effective {A} (live added deleted : gmap string A) (k : string) : option A :=
  match added !! k with
  | Some v => Some v
  | None =>
      match deleted !! k with
      | Some _ => None
      | None => live !! k
      end
  end.

(** What [deleteKey] and [Invalidate] can do to an overlay: they leave the
    origin and every key→tags map alone, only remove from the additions,
    and only add to the deletion marks. *)
Definition deletes_only (c c' : transaction) : Prop :=
  origin c' = origin c
  ∧ keyToTags (additions c') = keyToTags (additions c)
  ∧ keyToTags (deletions c') = keyToTags (deletions c)
  ∧ (∀ tag K', tagToKeys (additions c') !! tag = Some K' →
       ∃ K, tagToKeys (additions c) !! tag = Some K ∧ K' ⊆ K)
  ∧ (∀ k v, items (additions c') !! k = Some v → items (additions c) !! k = Some v)
  ∧ (∀ k, is_Some (items (deletions c) !! k) → is_Some (items (deletions c') !! k))
  ∧ (∀ tag, is_Some (tagToKeys (deletions c) !! tag) →
       is_Some (tagToKeys (deletions c') !! tag)).

(** The tags [deleteKey] walks for a key. *)
Definition tags_of (c : transaction) (key : string) : gset string :=
  match keyToTags (additions c) !! key with
  | Some tags => tags
  | None => default ∅ (keyToTags (origin c) !! key)
  end.

(** The keys that [Iter] hands to its callback, in order, when the
    callback always proceeds. *)
Definition visited_keys (c : db) (tag : string) : list string :=
  db_Iter c tag (λ acc key _, ((acc ++ [key])%list, true)) [].

(** The three parts of the consistency the specification asks of a
    snapshot: every stored key has a key→tags entry; every tag listed for
    a key lists the key back; every key listed under a tag lists the tag
    back. *)
Definition inv_items (s : storage) : Prop :=
  ∀ k, is_Some (items s !! k) → is_Some (keyToTags s !! k).

Definition inv_k2t (s : storage) : Prop :=
  ∀ k T tag, keyToTags s !! k = Some T → tag ∈ T →
    ∃ K, tagToKeys s !! tag = Some K ∧ k ∈ K.

Definition inv_t2k (s : storage) : Prop :=
  ∀ tag K k, tagToKeys s !! tag = Some K → k ∈ K →
    ∃ T, keyToTags s !! k = Some T ∧ tag ∈ T.

Definition consistent (s : storage) : Prop :=
  inv_items s ∧ inv_k2t s ∧ inv_t2k s.

(** The tags of a key and the keys of a tag as the overlay sees them
    before any deletion mark. *)
Definition eff_k2t (c : transaction) (k : string) : option (gset string) :=
  match keyToTags (additions c) !! k with
  | Some T => Some T
  | None => keyToTags (origin c) !! k
  end.

Definition eff_t2k (c : transaction) (tag : string) : option (gset string) :=
  match tagToKeys (additions c) !! tag with
  | Some K => Some K
  | None => tagToKeys (origin c) !! tag
  end.

(** What every overlay built by a callback satisfies, on an origin [s]
    whose tag→keys sets are listed back: no key→tags entry is marked
    deleted, an added key→tags set extends the origin's, and every key of
    an added tag→keys set lists the tag. *)
Definition overlay_inv (s : storage) (c : transaction) : Prop :=
  origin c = s
  ∧ keyToTags (deletions c) = ∅
  ∧ (∀ k T T0, keyToTags (additions c) !! k = Some T →
       keyToTags s !! k = Some T0 → T0 ⊆ T)
  ∧ (∀ tag K k, tagToKeys (additions c) !! tag = Some K → k ∈ K →
       ∃ T, eff_k2t c k = Some T ∧ tag ∈ T).

(** What an overlay satisfies while only [Tag] has been called on it:
    nothing is marked deleted, no item is added, and every tag the
    overlay lists for a key lists the key back. *)
Definition tag_overlay_inv (s : storage) (c : transaction) : Prop :=
  origin c = s
  ∧ deletions c = empty_storage
  ∧ items (additions c) = ∅
  ∧ (∀ k T tag, eff_k2t c k = Some T → tag ∈ T →
       ∃ K, eff_t2k c tag = Some K ∧ k ∈ K).


(** The calls of a callback that only puts and tags. *)
Inductive wop : Type :=
| OpPut (key : string) (val : any V)
| OpTag (key : string) (tags : list string).

Definition apply_op (c : transaction) (op : wop) : transaction :=
  match op with
  | OpPut key val => transaction_Put c key val
  | OpTag key tags => transaction_Tag c key tags
  end.

(** The calls a callback makes, in order, and what it returns, when it
    only puts and tags; [None] for a callback that does anything else. *)
Fixpoint trace {R} (p : wprog R) : option (list wop * R) :=
  match p with
  | Return r => Some ([], r)
  | CallPut key val k => '(ops, r) ← trace k; Some (OpPut key val :: ops, r)
  | CallTag key tags k => '(ops, r) ← trace k; Some (OpTag key tags :: ops, r)
  | _ => None
  end.

(** The value last put under [key] by a list of calls. *)
Definition last_put (ops : list wop) (key : string) : option (any V) :=
  foldl (λ acc op,
           match op with
           | OpPut k v => if decide (k = key) then Some v else acc
           | OpTag _ _ => acc
           end) None ops.

(** The pairs of a primary-index value and its item that a load meets,
    in the order it meets them. *)
Definition Load_pairs {T} (pkref : indexFn T) (batches : list (list T))
    : list (string * T) :=
  item ← concat batches; (λ v, (v, item)) <$> pkref item.

(** The writer calls [loadItem] makes for an item of a collection without
    inferences. *)
Definition loadItem_ops {T} `{!Dyn T} (c : Collection T) (key : string) (item : T)
    : list wop :=
  OpPut key (to_any item) :: OpTag key [kind c] ::
  (idx ← keys c;
   (λ v, OpTag key [Codec.mkKey (kind c) (ikey idx) v])
     <$> default (λ _, []) (ref idx) item).

Definition Load_ops {T} `{!Dyn T} (c : Collection T) (pkref : indexFn T)
    (batches : list (list T)) : list wop :=
  '(v, item) ← Load_pairs pkref batches;
  loadItem_ops c (Codec.mkKey (kind c) (ikey (col_pk c)) v) item.

(** The typed item stored under a key of a snapshot, if there is one. *)
Definition stored {T} `{!Dyn T} (s : storage) (k : string) : option T :=
  items s !! k ≫= assert_type.


(** A callback that panics after nothing but puts and tags. *)
Inductive aborts {R} : wprog R → Prop :=
| aborts_Panic : aborts Panic
| aborts_Put key val k : aborts k → aborts (CallPut key val k)
| aborts_Tag key tags k : aborts k → aborts (CallTag key tags k).

(** The options the package offers for a collection. *)
Inductive std_opt {T} : CollectionOpt T → Prop :=
| std_Extractor x : std_opt (Extractor x)
| std_PrimaryKey name value : std_opt (PrimaryKey name value)
| std_AdditionalKey name value : std_opt (AdditionalKey name value).

End Inventory.


Arguments Return {V R} r.
Arguments Panic {V R}.
Arguments CallGet {V R} key k.
Arguments CallIter {V R A} tag fn a k.
Arguments CallPut {V R} key val k.
Arguments CallTag {V R} key tags k.
Arguments CallInvalidate {V R} tags k.
Arguments Index {T} pk ikind ikey ref.
Arguments pk {T} i.
Arguments ikind {T} i.
Arguments ikey {T} i.
Arguments ref {T} i.
Arguments MkCollection {V W T} kind col_pk keys extract inferences.
Arguments kind {V W T} c.
Arguments col_pk {V W T} c.
Arguments keys {V W T} c.
Arguments extract {V W T} c.
Arguments inferences {V W T} c.
Arguments OpPut {V} key val.
Arguments OpTag {V} key tags.

(** * Inputs of the concrete runs

    The store holding strings, the world a counter of callback calls, and
    [range] the enumeration of [elements]. *)

#[local] Instance elements_order : MapOrder := elements.

(** Sequencing of store operations that cannot panic here. *)
Definition must {A} (d : A) (o : option A) : A := default d o.

Definition sdb : Type := @db string.

(** The store after [Put("k", "v")], [Tag("k", "t1", "t2")], [Put("k1",
    "v1")], [Tag("k1", "t1")]. *)
Definition two_tag_store : sdb :=
  let c := NewDB in
  let c := must c (db_Put c "k" (aval "v")) in
  let c := must c (db_Tag c "k" ["t1"; "t2"]) in
  let c := must c (db_Put c "k1" (aval "v1")) in
  must c (db_Tag c "k1" ["t1"]).



(** The same callback returning nil: its mutations are published. *)
Definition succeeding_updateFn : wprog (V:=string) (unit * option error) :=
  CallPut "a" (aval "1")
    (CallTag "a" ["t1"]
       (CallInvalidate ["t2"] (λ _, Return (tt, None)))).

Definition after_succeeding_update : sdb :=
  match db_Update two_tag_store succeeding_updateFn with
  | Some (c', _, _) => c'
  | None => two_tag_store
  end.

Definition put_only : sdb := must NewDB (db_Put NewDB "k" (aval "v")).

Definition tagged_once : sdb :=
  must NewDB (db_Tag NewDB "k" ["t"]).

Definition after_invalidate_t2 : sdb :=
  match db_Invalidate two_tag_store ["t2"] with
  | Some (c', _) => c'
  | None => two_tag_store
  end.

Definition after_invalidate_t2_t1 : sdb :=
  match db_Invalidate after_invalidate_t2 ["t1"] with
  | Some (c', _) => c'
  | None => after_invalidate_t2
  end.

Definition fill_barz : fillFn (V:=string) (W:=nat) := λ w, (aval "barz", None, S w).
Definition fill_bar : fillFn (V:=string) (W:=nat) := λ w, (aval "bar", None, S w).
Definition fill_fails : fillFn (V:=string) (W:=nat) :=
  λ w, (anil, Some (ErrCallback "not found"), S w).

Definition after_fill : sdb :=
  match db_GetOrFill NewDB "foo" fill_barz ["t"] 0%nat with
  | Some (c', _, _) => c'
  | None => NewDB
  end.

Definition after_failed_fill : sdb :=
  match db_GetOrFill NewDB "foo" fill_fails [] 0%nat with
  | Some (c', _, _) => c'
  | None => NewDB
  end.

Definition after_second_fill : sdb :=
  match db_GetOrFill after_failed_fill "foo" fill_barz [] 1%nat with
  | Some (c', _, _) => c'
  | None => NewDB
  end.

(** The overlay opened on [two_tag_store]. *)
Definition two_tag_overlay : transaction (V:=string) :=
  Transaction (db_storage two_tag_store) empty_storage empty_storage.

Definition count_visits : visitFn (V:=string) nat := λ n _ _, (S n, true).

(** Inside one callback: the key is invalidated through its tag and put
    again; the overlay then holds it both as deleted and as added. *)
Definition invalidated_overlay : transaction (V:=string) :=
  (transaction_Invalidate two_tag_overlay ["t2"]).1.

Definition reput_overlay : transaction (V:=string) :=
  transaction_Put invalidated_overlay "k" (aval "v2").

Definition item : Type := string * string.

#[local] Instance dyn_item : Dyn (V:=item) item := {|
  to_any := aval;
  assert_type := λ a, match a with aval v => Some v | anil => None end;
  assert_to_any := λ _, eq_refl
|}.

#[local] Instance dyn_string : Dyn (V:=item) string := {|
  to_any := λ s, aval (s, "");
  assert_type := λ a, match a with aval v => Some v.1 | anil => None end;
  assert_to_any := λ _, eq_refl
|}.

Definition item_id : indexFn item := λ it, [it.1].

(** The collection [bar] of the collection test, reduced to one item. *)
Definition barCol : Collection (V:=item) (W:=nat) item :=
  NewCollection "bar"
    [Extractor (Some (λ w, ([[("1", "\w+")]], w))); PrimaryKey "id" (Some item_id)].

(** The derivative's function: it returns the pattern of the item and
    counts its calls in the world. *)
Definition pattern_of : item → nat → string * option error * nat :=
  λ it calls, (it.2, None, S calls).

Definition bar_loaded : db (V:=item) :=
  match Collection_Invalidate barCol NewDB 0%nat with
  | Some (d, _) => d
  | None => NewDB
  end.

Definition bar_derived : db (V:=item) :=
  match Derive barCol "regex-pattern" pattern_of ("1", "\w+") bar_loaded 0%nat with
  | Some (d, _, _) => d
  | None => bar_loaded
  end.

Definition bar_reloaded : db (V:=item) :=
  match Collection_Invalidate barCol bar_derived 1%nat with
  | Some (d, _) => d
  | None => bar_derived
  end.

Definition bar_derived_again : db (V:=item) :=
  match Derive barCol "regex-pattern" pattern_of ("1", "\d+") bar_reloaded 1%nat with
  | Some (d, _, _) => d
  | None => bar_reloaded
  end.

(** The collection [foo]: a primary index on the first component of an
    item and a secondary index on the second. Its extractor hands over two
    items of one group at the first load and only the first of them from
    then on; the world counts the loads. *)
Definition item_group : indexFn item := λ it, [it.2].

Definition foo_extract : extractFn (W:=nat) item :=
  λ loads,
    (if (loads =? 0)%nat then [[("1", "a"); ("2", "a")]] else [[("1", "a")]],
     S loads).

Definition foo_opts : list (CollectionOpt (V:=item) (W:=nat) item) :=
  [Extractor (Some foo_extract); PrimaryKey "id" (Some item_id);
   AdditionalKey "group" (Some item_group)].

Definition fooCol : Collection (V:=item) (W:=nat) item :=
  NewCollection "foo" foo_opts.

Definition foo_loaded : db (V:=item) :=
  match Collection_Invalidate fooCol NewDB 0%nat with
  | Some (d, _) => d
  | None => NewDB
  end.

Definition foo_reloaded : db (V:=item) :=
  match Collection_Invalidate fooCol foo_loaded 1%nat with
  | Some (d, _) => d
  | None => foo_loaded
  end.

(** The same collection with an extractor that, from the second load on,
    hands over the second item with another group. *)
Definition regroup_extract : extractFn (W:=nat) item :=
  λ loads,
    (if (loads =? 0)%nat then [[("1", "a"); ("2", "a")]]
     else [[("1", "a"); ("2", "b")]],
     S loads).

Definition regroupCol : Collection (V:=item) (W:=nat) item :=
  NewCollection "foo"
    [Extractor (Some regroup_extract); PrimaryKey "id" (Some item_id);
     AdditionalKey "group" (Some item_group)].

Definition foo_regrouped : db (V:=item) :=
  match Collection_Invalidate regroupCol foo_loaded 1%nat with
  | Some (d, _) => d
  | None => foo_loaded
  end.

(** The same collection with a secondary index that was given a nil
    function. *)
Definition nilIndexCol : Collection (V:=item) (W:=nat) item :=
  NewCollection "foo"
    [Extractor (Some foo_extract); PrimaryKey "id" (Some item_id);
     AdditionalKey "group" None].

(** A collection with an extractor and no primary index. *)
Definition unkeyedCol : Collection (V:=item) (W:=nat) item :=
  NewCollection "loose" [Extractor (Some foo_extract)].

(** A collection whose primary index yields no value for any item. *)
Definition no_id : indexFn item := λ _, [].

Definition anonCol : Collection (V:=item) (W:=nat) item :=
  NewCollection "anon" [PrimaryKey "id" (Some no_id)].

(** A derivative of the type of the items themselves, and one whose
    function fails. *)
Definition normalised : item → nat → item * option error * nat :=
  λ it calls, ((it.1, "normalised"), None, S calls).

Definition failing_pattern : item → nat → string * option error * nat :=
  λ _ calls, ("", Some (ErrCallback "bad pattern"), S calls).

Definition bar_normalised : db (V:=item) :=
  match Derive barCol "normalised" normalised ("1", "\w+") bar_loaded 0%nat with
  | Some (d, _, _) => d
  | None => bar_loaded
  end.

Definition anon_derived : db (V:=item) :=
  match Derive anonCol "regex-pattern" pattern_of ("1", "a") NewDB 0%nat with
  | Some (d, _, _) => d
  | None => NewDB
  end.

(** An inference as the collection test makes one: the mapping of a
    [bar] item to the items inferred from it, by its pattern; the inferred
    collection as [Infer] returns it; the same once the method
    [PrimaryKey] has given it a primary index. *)
Definition matches_of : mapFn item item :=
  λ base, [(base.2, [("m1", base.1); ("m2", base.1)])].

Definition patternCol : Collection (V:=item) (W:=nat) item :=
  (Infer barCol "pattern" matches_of).2.

Definition matchedCol : Collection (V:=item) (W:=nat) item :=
  (Collection_PrimaryKey patternCol "id" (Some item_id)).1.

(** The collection [bar] as a load finds it after that, carrying the hook
    of the inference, and the store after loading it. *)
Definition barInferring : Collection (V:=item) (W:=nat) item :=
  (Infer barCol "pattern" matches_of).1 barCol matchedCol.

Definition bar_inferred : db (V:=item) :=
  match Collection_Invalidate barInferring NewDB 0%nat with
  | Some (d, _) => d
  | None => NewDB
  end.

(** The empty overlay on an empty store. *)
Definition fresh_overlay : transaction (V:=item) :=
  Transaction empty_storage empty_storage empty_storage.

(** A callback that invalidates [t1] and returns. *)
Definition invalidate_t1 : wprog (V:=string) unit :=
  CallInvalidate ["t1"] (λ _, Return tt).

Definition after_invalidate_put : sdb :=
  match db_Update (R:=unit) two_tag_store
          (wbind invalidate_t1 (λ _, CallPut "k" (aval "again") (Return (tt, None)))) with
  | Some (c', _, _) => c'
  | None => two_tag_store
  end.

(** * Properties *)

Section Facts.

Context {V W : Type} {order : MapOrder}.

Local Abbreviation storage := (@storage V).
Local Abbreviation transaction := (@transaction V).
Local Abbreviation db := (@db V).
Local Abbreviation wprog := (@wprog V).
Local Abbreviation visitFn := (@visitFn V).
Local Abbreviation fillFn := (@fillFn V W).
Local Abbreviation Collection := (@Collection V W).
Local Abbreviation Dyn := (@Dyn V).
Local Abbreviation NewDB := (@NewDB V).

(** ** Key codec *)

Section CodecFacts.
Import Codec.

Lemma append_nil_l (b : string) : ("" ++ b)%string = b.
Proof. reflexivity. Qed.

Lemma append_cons (x : ascii) (a b : string) :
  (String x a ++ b)%string = String x (a ++ b)%string.
Proof. reflexivity. Qed.

Lemma IndexByte_lower s c : -1 ≤ IndexByte s c.
Proof.
  induction s as [|a s IH]; simpl; [lia|].
  destruct (Ascii.eqb a c); [lia|].
  destruct (Z.ltb_spec (IndexByte s c) 0); lia.
Qed.

Lemma IndexByte_upper s c : IndexByte s c < Z.of_nat (String.length s).
Proof.
  induction s as [|a s IH]; simpl String.length; simpl IndexByte; [lia|].
  destruct (Ascii.eqb a c); [lia|].
  destruct (Z.ltb_spec (IndexByte s c) 0); lia.
Qed.

Lemma IndexByte_absent s c : occurs c s = false → IndexByte s c = -1.
Proof.
  induction s as [|a s IH]; simpl; [done|].
  destruct (Ascii.eqb a c); simpl; [done|].
  intros H. by rewrite IH.
Qed.

Lemma IndexByte_present s c : occurs c s = true → 0 ≤ IndexByte s c.
Proof.
  induction s as [|a s IH]; simpl; [done|].
  destruct (Ascii.eqb a c); simpl; [lia|].
  intros H. specialize (IH H).
  destruct (Z.ltb_spec (IndexByte s c) 0); lia.
Qed.

(** The first occurrence of [c] in [a ++ String c b] is right after [a]
    when [c] does not occur in [a]. *)
Lemma IndexByte_app_hit a b c :
  occurs c a = false → IndexByte (a ++ String c b)%string c = Z.of_nat (String.length a).
Proof.
  induction a as [|x a IH]; rewrite ?append_nil_l, ?append_cons;
    simpl String.length; simpl IndexByte; simpl occurs.
  - intros _. by rewrite Ascii.eqb_refl.
  - destruct (Ascii.eqb x c); simpl; [done|].
    intros H. rewrite (IH H).
    destruct (Z.ltb_spec (Z.of_nat (String.length a)) 0); lia.
Qed.

Lemma length_app_string (a b : string) :
  String.length (a ++ b)%string = (String.length a + String.length b)%nat.
Proof.
  induction a as [|x a IH]; rewrite ?append_nil_l, ?append_cons; simpl; [done|].
  by rewrite IH.
Qed.

Lemma app_string_assoc (a b c : string) :
  ((a ++ b) ++ c)%string = (a ++ (b ++ c))%string.
Proof.
  induction a as [|x a IH]; rewrite ?append_nil_l, ?append_cons; [done|].
  by rewrite IH.
Qed.

Lemma substring_app_prefix (a b : string) :
  substring 0 (String.length a) (a ++ b)%string = a.
Proof.
  induction a as [|x a IH]; rewrite ?append_nil_l, ?append_cons; simpl.
  - by destruct b.
  - by rewrite IH.
Qed.

Lemma substring_app_skip (a b : string) n m :
  substring (String.length a + n) m (a ++ b)%string = substring n m b.
Proof.
  induction a as [|x a IH]; rewrite ?append_nil_l, ?append_cons; simpl; done.
Qed.

(** Slicing out the middle of a three-part string. *)
Lemma slice_middle (a b c : string) :
  slice (a ++ b ++ c)%string (Z.of_nat (String.length a))
    (Z.of_nat (String.length a + String.length b)) = Some b.
Proof.
  unfold slice. rewrite !length_app_string.
  replace (_ && _ && _) with true.
  2:{ symmetry. rewrite !andb_true_iff, !Z.leb_le. lia. }
  f_equal. rewrite Nat2Z.id.
  replace (Z.to_nat _) with (String.length b) by lia.
  rewrite <- (Nat.add_0_r (String.length a)), substring_app_skip.
  apply substring_app_prefix.
Qed.

Lemma slice_None_iff s lo hi :
  slice s lo hi = None ↔ ¬ (0 ≤ lo ∧ lo ≤ hi ∧ hi ≤ Z.of_nat (String.length s)).
Proof.
  unfold slice.
  destruct (Z.leb_spec 0 lo), (Z.leb_spec lo hi),
    (Z.leb_spec hi (Z.of_nat (String.length s))); simpl; split; (done || lia).
Qed.

Lemma slice_Some_bounds s lo hi r :
  slice s lo hi = Some r → 0 ≤ lo ∧ lo ≤ hi ∧ hi ≤ Z.of_nat (String.length s).
Proof.
  intros H. destruct (decide (0 ≤ lo ∧ lo ≤ hi ∧ hi ≤ Z.of_nat (String.length s)))
    as [?|Hn]; [done|].
  apply slice_None_iff in Hn. congruence.
Qed.

Lemma delimiter_free_spec s :
  delimiter_free s = true →
  occurs curlyStart s = false ∧ occurs colon s = false ∧ occurs curlyEnd s = false.
Proof.
  unfold delimiter_free. rewrite !andb_true_iff, !negb_true_iff. tauto.
Qed.

Lemma occurs_app c (a b : string) :
  occurs c (a ++ b)%string = occurs c a || occurs c b.
Proof.
  induction a as [|x a IH]; rewrite ?append_nil_l, ?append_cons; simpl; [done|].
  by rewrite IH, orb_assoc.
Qed.

Lemma app_cons_singleton (a b : string) x :
  (a ++ String x b)%string = ((a ++ String x "") ++ b)%string.
Proof. by rewrite app_string_assoc, append_cons, append_nil_l. Qed.

(** Decoding an encoded triple needs less than delimiter freedom of all
    three parts: [kind] must avoid all three delimiters, [attr] the
    separator and the close marker, [val] the close marker. *)
Lemma parseKey_mkKey kind' attr val :
  occurs curlyStart kind' = false → occurs colon kind' = false →
  occurs curlyEnd kind' = false →
  occurs colon attr = false → occurs curlyEnd attr = false →
  occurs curlyEnd val = false →
  parseKey (mkKey kind' attr val) = Some (kind', attr, val, true).
Proof.
  intros Hk1 Hk2 Hk3 Ha2 Ha3 Hv3.
  set (tail3 := String curlyEnd "").
  set (tail2 := String colon (val ++ tail3)%string).
  set (tail1 := String curlyStart (attr ++ tail2)%string).
  set (p1 := (kind' ++ String curlyStart "")%string).
  set (p2 := ((p1 ++ attr) ++ String colon "")%string).
  assert (Hkey0 : mkKey kind' attr val = (kind' ++ tail1)%string) by reflexivity.
  assert (Hkey1 : mkKey kind' attr val = (p1 ++ attr ++ tail2)%string).
  { rewrite Hkey0. subst tail1 p1. apply app_cons_singleton. }
  assert (Hkey2 : mkKey kind' attr val = (p2 ++ val ++ tail3)%string).
  { rewrite Hkey1. subst tail2 p2.
    rewrite <- !app_string_assoc, (app_cons_singleton _ (val ++ tail3)%string). by rewrite !app_string_assoc. }
  assert (Hl1 : String.length p1 = S (String.length kind')).
  { subst p1. rewrite length_app_string. simpl. lia. }
  assert (Hl2 : String.length p2 = S (String.length p1 + String.length attr)).
  { subst p2. rewrite !length_app_string. simpl. lia. }
  (* where the three delimiters are found *)
  assert (E1 : IndexByte (mkKey kind' attr val) curlyStart
               = Z.of_nat (String.length kind')).
  { rewrite Hkey0. by apply IndexByte_app_hit. }
  assert (E2 : IndexByte (mkKey kind' attr val) colon
               = Z.of_nat (String.length p1 + String.length attr)).
  { rewrite Hkey1. subst tail2. rewrite <- app_string_assoc.
    rewrite IndexByte_app_hit; [by rewrite length_app_string|].
    subst p1. rewrite !occurs_app, Hk2, Ha2. reflexivity. }
  assert (E3 : IndexByte (mkKey kind' attr val) curlyEnd
               = Z.of_nat (String.length p2 + String.length val)).
  { rewrite Hkey2. subst tail3. rewrite <- app_string_assoc.
    rewrite IndexByte_app_hit; [by rewrite length_app_string|].
    subst p2 p1. rewrite !occurs_app, Hk3, Ha3, Hv3. reflexivity. }
  (* the three slices *)
  assert (S1 : slice (mkKey kind' attr val) 0 (Z.of_nat (String.length kind'))
               = Some kind').
  { rewrite Hkey0. exact (slice_middle "" kind' tail1). }
  assert (S2 : slice (mkKey kind' attr val) (Z.of_nat (String.length kind') + 1)
                 (Z.of_nat (String.length p1 + String.length attr)) = Some attr).
  { rewrite Hkey1, <- (slice_middle p1 attr tail2). f_equal. lia. }
  assert (S3 : slice (mkKey kind' attr val)
                 (Z.of_nat (String.length p1 + String.length attr) + 1)
                 (Z.of_nat (String.length p2 + String.length val)) = Some val).
  { rewrite Hkey2, <- (slice_middle p2 val tail3). f_equal. lia. }
  unfold parseKey. rewrite E1, E2, E3, S1. simpl. rewrite S2. simpl. rewrite S3.
  simpl.
  repeat match goal with
         | |- context [?x <? 0] =>
             let H := fresh in destruct (Z.ltb_spec x 0) as [H|H]; [lia|]
         end.
  done.
Qed.

(** C7. Key-codec round trip: when none of the delimiters ['{'], [':'],
    ['}'] occurs in [kind], [attr] and [val], [parseKey (mkKey kind attr
    val)] returns exactly [(kind, attr, val, true)]; hence [mkKey] is
    injective on delimiter-free triples. *)
Theorem parseKey_mkKey_roundtrip (kind' attr val : string) :
  delimiter_free kind' = true →
  delimiter_free attr = true →
  delimiter_free val = true →
  parseKey (mkKey kind' attr val) = Some (kind', attr, val, true)
  ∧ ∀ kind2 attr2 val2,
      delimiter_free kind2 = true →
      delimiter_free attr2 = true →
      delimiter_free val2 = true →
      mkKey kind' attr val = mkKey kind2 attr2 val2 →
      kind' = kind2 ∧ attr = attr2 ∧ val = val2.
Proof.
  intros (Hk1 & Hk2 & Hk3)%delimiter_free_spec (Ha1 & Ha2 & Ha3)%delimiter_free_spec
         (Hv1 & Hv2 & Hv3)%delimiter_free_spec.
  assert (Hrt := parseKey_mkKey kind' attr val Hk1 Hk2 Hk3 Ha2 Ha3 Hv3).
  split; [exact Hrt|].
  intros kind2 attr2 val2 (Hk1' & Hk2' & Hk3')%delimiter_free_spec
         (Ha1' & Ha2' & Ha3')%delimiter_free_spec (Hv1' & Hv2' & Hv3')%delimiter_free_spec Heq.
  assert (Hrt' := parseKey_mkKey kind2 attr2 val2 Hk1' Hk2' Hk3' Ha2' Ha3' Hv3').
  rewrite Heq, Hrt' in Hrt. by simplify_eq.
Qed.

(** Without the side condition the round trip is lost: a separator inside
    [kind] makes the decoder panic on the encoder's own output. *)
Example parseKey_mkKey_delimiter_in_kind :
  parseKey (mkKey "a:b" "c" "d") = None.
Proof. reflexivity. Qed.

(** A missing delimiter is reported by [ok = false], as long as the
    delimiters found so far do not make a slice expression panic. *)
Lemma parseKey_missing_delimiter key r :
  occurs curlyStart key = false ∨ occurs colon key = false ∨ occurs curlyEnd key = false →
  parseKey key = Some r → r.2 = false.
Proof.
  intros Hmiss. unfold parseKey.
  destruct (Z.ltb_spec (IndexByte key curlyStart) 0) as [H1|H1]; [by intros [= <-]|].
  destruct (slice key 0 _) as [k1|]; simpl; [|done].
  destruct (Z.ltb_spec (IndexByte key colon) 0) as [H2|H2]; [by intros [= <-]|].
  destruct (slice key (IndexByte key curlyStart + 1) (IndexByte key colon)) as [k2|];
    simpl; [|done].
  destruct (Z.ltb_spec (IndexByte key curlyEnd) 0) as [H3|H3]; [by intros [= <-]|].
  exfalso. destruct Hmiss as [H|[H|H]]; apply IndexByte_absent in H; lia.
Qed.

(** X1. [parseKey] panics exactly when the key holds an open marker and a
    separator, and either the first separator comes before the first open
    marker, or the key holds a close marker and the first one comes before
    the first separator. *)
Lemma parseKey_panics_iff key :
  parseKey key = None ↔
  0 ≤ IndexByte key curlyStart ∧ 0 ≤ IndexByte key colon ∧
  (IndexByte key colon < IndexByte key curlyStart + 1
   ∨ 0 ≤ IndexByte key curlyEnd ∧ IndexByte key curlyEnd < IndexByte key colon + 1).
Proof.
  unfold parseKey.
  pose proof (IndexByte_upper key curlyStart) as U1.
  pose proof (IndexByte_upper key colon) as U2.
  pose proof (IndexByte_upper key curlyEnd) as U3.
  destruct (Z.ltb_spec (IndexByte key curlyStart) 0) as [L1|L1]; [split; [done|lia]|].
  destruct (slice key 0 (IndexByte key curlyStart)) as [k1|] eqn:E1; simpl.
  2:{ apply slice_None_iff in E1. lia. }
  destruct (Z.ltb_spec (IndexByte key colon) 0) as [L2|L2]; [split; [done|lia]|].
  destruct (slice key (IndexByte key curlyStart + 1) (IndexByte key colon))
    as [k2|] eqn:E2; simpl.
  2:{ apply slice_None_iff in E2. split; [lia|done]. }
  apply slice_Some_bounds in E2.
  destruct (Z.ltb_spec (IndexByte key curlyEnd) 0) as [L3|L3]; [split; [done|lia]|].
  destruct (slice key (IndexByte key colon + 1) (IndexByte key curlyEnd))
    as [k3|] eqn:E3; simpl.
  - apply slice_Some_bounds in E3. split; [done|lia].
  - apply slice_None_iff in E3. split; [lia|done].
Qed.

(** C8. On the input ["a:b{c}"], whose separator comes before the open
    marker, [parseKey] does not return [ok = false]: the slice expression
    [key[endOfKind+1 : endOfKey]] is [key[4:1]] and panics. The same
    happens when the close marker comes before the separator. *)
Theorem parseKey_panics_on_misordered_delimiters :
  parseKey "a:b{c}" = None ∧ parseKey "a{b}c:d" = None.
Proof. split; reflexivity. Qed.

End CodecFacts.


(** ** The store engine *)

Lemma lookup_publish_map {A} (live added deleted : gmap string A) k :
  (added ∪ (live ∖ deleted)) !! k = effective live added deleted k.
Proof.
  unfold effective. destruct (added !! k) as [v|] eqn:Ha.
  - by apply lookup_union_Some_l.
  - rewrite lookup_union_r by done.
    destruct (deleted !! k) as [d|] eqn:Hd.
    + apply lookup_difference_None. eauto.
    + destruct (live !! k) as [x|] eqn:Hl.
      * by apply lookup_difference_Some.
      * apply lookup_difference_None. by left.
Qed.

Lemma db_Update_unfold {R} (c : db) (updateFn : wprog (R * option error)) c' r err :
  db_Update c updateFn = Some (c', r, err) →
  ∃ t', run updateFn (open_overlay c) = Some (t', (r, err)) ∧
    c' = DB (match err with
             | None => publish (db_storage c) t'
             | Some _ => db_storage c
             end)
            (Transaction
               (match err with
                | None => publish (db_storage c) t'
                | Some _ => db_storage c
                end) empty_storage empty_storage).
Proof.
  unfold db_Update. fold (open_overlay c).
  destruct (run updateFn (open_overlay c)) as [[t' [r' err']]|]; simpl; [|done].
  intros [= <- <- <-]. eauto.
Qed.


Lemma NewDB_overlay_empty : overlay_empty NewDB.
Proof. by split. Qed.


(** Read-after-write: a published [Put] is what [Get] returns. *)
Lemma db_Put_Get (c : db) key val :
  ∃ c', db_Put c key val = Some c' ∧ db_Get c' key = (val, true).
Proof.
  unfold db_Put, db_Update. simpl. eexists. split; [done|].
  unfold db_Get, cacheView_Get. simpl.
  rewrite lookup_publish_map. unfold effective. simpl.
  by rewrite lookup_insert_eq.
Qed.

(** ** The transaction overlay *)

(** C5, as the code has it. [transaction.Get] looks at the additions
    first: a key present there yields that value even when the key is also
    marked deleted. Otherwise a key that is not marked deleted yields the
    origin's value if any, and a key the origin does not hold is absent. *)
Theorem transaction_Get_precedence (c : transaction) (key : string) :
  (∀ val, items (additions c) !! key = Some val → transaction_Get c key = (val, true))
  ∧ (items (additions c) !! key = None → items (deletions c) !! key = None →
     transaction_Get c key = cacheView_Get (origin c) key)
  ∧ (items (additions c) !! key = None → items (origin c) !! key = None →
     transaction_Get c key = (anil, false)).
Proof.
  unfold transaction_Get, cacheView_Get. repeat split.
  - by intros val ->.
  - intros -> ->. by destruct (items (origin c) !! key).
  - by intros -> ->.
Qed.

(** The remaining case: a key of the origin that is marked deleted and not
    added again is reported with [ok = true] and the nil value, because
    the last assignment to [ok] is the presence test on the deletions. *)
Lemma transaction_Get_deleted_origin_key (c : transaction) key originVal d :
  items (additions c) !! key = None →
  items (origin c) !! key = Some originVal →
  items (deletions c) !! key = Some d →
  transaction_Get c key = (anil, true).
Proof. unfold transaction_Get. by intros -> -> ->. Qed.

Lemma maps_Copy_nil_nonempty (src : gset string) k :
  range_complete → k ∈ src → maps_Copy None src = None.
Proof.
  intros Hc Hk. unfold maps_Copy.
  specialize (Hc src k Hk).
  destruct (range src) as [|x l]; [by apply elem_of_nil in Hc|].
  simpl. clear. induction l as [|y l IH]; simpl; done.
Qed.

Lemma transaction_Iter_loop_skips {A} (c : transaction) (fn : visitFn A) ks a :
  transaction_Iter_loop c true fn ks a = a.
Proof. induction ks as [|k ks IH]; simpl; done. Qed.

(** X4. [transaction.Iter] never invokes the callback: whenever it returns,
    the state accumulated by the callback is the initial one. *)
Lemma transaction_Iter_never_visits {A} (c : transaction) tag (fn : visitFn A) a a' :
  range_sound →
  transaction_Iter c tag fn a = Some a' → a' = a.
Proof.
  intros Hs. unfold transaction_Iter.
  destruct (tagToKeys (deletions c) !! tag); [by intros [= <-]|].
  destruct (maps_Copy None _) as [keys|]; simpl; [|done].
  destruct (tagToKeys (additions c) !! tag) as [added|] eqn:Ha; simpl.
  - rewrite ?bool_decide_eq_true_2 by eauto.
    destruct (maps_Copy keys added); simpl; [|done].
    intros [= <-]. apply transaction_Iter_loop_skips.
  - rewrite ?bool_decide_eq_false_2 by (by intros [? ?]).
    simpl. intros [= <-].
    destruct (range ∅) as [|x l] eqn:Hr; [done|].
    assert (Hx : x ∈ (∅ : gset string)) by (apply Hs; rewrite Hr; left).
    by apply not_elem_of_empty in Hx.
Qed.

(** C4, as the code has it. On an overlay whose origin binds a key to the
    tag, and where the tag is not marked deleted, [transaction.Iter]
    panics: it copies the origin's key set into the nil map [keys]. It
    also panics when the additions bind a key to the tag. *)
Theorem transaction_Iter_panics {A} (c : transaction) tag (fn : visitFn A) a k :
  range_complete →
  tagToKeys (deletions c) !! tag = None →
  k ∈ default ∅ (tagToKeys (origin c) !! tag)
  ∨ k ∈ default ∅ (tagToKeys (additions c) !! tag) →
  transaction_Iter c tag fn a = None.
Proof.
  intros Hc Hd Hk. unfold transaction_Iter. rewrite Hd.
  destruct Hk as [Hk|Hk].
  - by rewrite (maps_Copy_nil_nonempty _ k Hc Hk).
  - destruct (maps_Copy None (default ∅ (tagToKeys (origin c) !! tag)))
      as [keys|] eqn:Hcopy; simpl; [|done].
    destruct (tagToKeys (additions c) !! tag) as [added|] eqn:Ha; simpl in *.
    2:{ by apply not_elem_of_empty in Hk. }
    rewrite ?bool_decide_eq_true_2 by eauto.
    assert (keys = None) as ->.
    { clear -Hcopy. unfold maps_Copy in Hcopy.
      revert Hcopy. generalize (range (default ∅ (tagToKeys (origin c) !! tag))).
      intros l. destruct l as [|x l]; simpl; [by intros [= <-]|].
      intros H. exfalso. revert H. clear.
      induction l as [|y l IH]; simpl; done. }
    by rewrite (maps_Copy_nil_nonempty _ k Hc Hk).
Qed.


(** *** Tag *)

Lemma Tag_step_frame (c : transaction) key tag :
  origin (Tag_step key c tag) = origin c
  ∧ deletions (Tag_step key c tag) = deletions c
  ∧ items (additions (Tag_step key c tag)) = items (additions c).
Proof. done. Qed.

Lemma Tag_fold_frame (c : transaction) key tags :
  origin (foldl (Tag_step key) c tags) = origin c
  ∧ deletions (foldl (Tag_step key) c tags) = deletions c
  ∧ items (additions (foldl (Tag_step key) c tags)) = items (additions c).
Proof.
  revert c. induction tags as [|tag tags IH]; intros c; simpl; [done|].
  destruct (IH (Tag_step key c tag)) as (-> & -> & ->). done.
Qed.

Lemma transaction_Tag_frame (c : transaction) key tags :
  origin (transaction_Tag c key tags) = origin c
  ∧ deletions (transaction_Tag c key tags) = deletions c
  ∧ items (additions (transaction_Tag c key tags)) = items (additions c).
Proof.
  unfold transaction_Tag.
  match goal with |- context [foldl _ ?c0 _] => destruct (Tag_fold_frame c0 key tags) as (-> & -> & ->) end.
  done.
Qed.

(** *** GetOrFill *)

Lemma db_GetOrFill_hit (c : db) key (g : fillFn) tags w v :
  db_Get c key = (v, true) → db_GetOrFill c key g tags w = Some (c, (v, None), w).
Proof. unfold db_GetOrFill. by intros ->. Qed.

(** The slow path of [GetOrFill] on a key the store does not hold. *)
Lemma db_GetOrFill_miss (c : db) key (f : fillFn) tags w v err w1 :
  overlay_empty c →
  db_Get c key = (anil, false) →
  f w = (v, err, w1) →
  ∃ c1, db_GetOrFill c key f tags w = Some (c1, (v, err), w1)
    ∧ overlay_empty c1
    ∧ match err with
      | Some _ => db_storage c1 = db_storage c
      | None => db_Get c1 key = (v, true)
      end.
Proof.
  intros [Ha Hd] Hget Hf. unfold db_GetOrFill. rewrite Hget.
  unfold db_Update, GetOrFill_updateFn. simpl.
  assert (Hmiss : transaction_Get
            (Transaction (db_storage c) (additions (db_t c)) (deletions (db_t c))) key
          = (anil, false)).
  { unfold transaction_Get. simpl. rewrite Ha. simpl. rewrite lookup_empty.
    revert Hget. unfold db_Get, cacheView_Get.
    by destruct (items (db_storage c) !! key). }
  rewrite Hmiss, Hf. destruct err as [e|]; simpl.
  - eexists. split; [done|]. by split.
  - match goal with
    | |- context [transaction_Tag ?c0 key tags] =>
        pose proof (transaction_Tag_frame c0 key tags) as (Ho & Hdel & Hit);
        destruct (transaction_Tag c0 key tags) as [o' a' d'] eqn:Htag
    end.
    simpl in *. eexists. split; [done|]. split; [by split|].
    unfold db_Get, cacheView_Get. simpl.
    rewrite lookup_publish_map. unfold effective.
    rewrite Hit, lookup_insert_eq. done.
Qed.


(** [GetOrFill] always returns. *)
Lemma db_GetOrFill_total (c : db) key (f : fillFn) tags w :
  is_Some (db_GetOrFill c key f tags w).
Proof.
  unfold db_GetOrFill, db_Update, GetOrFill_updateFn. simpl.
  destruct (db_Get c key) as [v [|]]; [done|].
  destruct (transaction_Get _ key) as [v' [|]]; simpl; [done|].
  destruct (f w) as [[v2 [e|]] w2]; simpl; [done|].
  by destruct (transaction_Tag _ key tags).
Qed.



(** *** Invalidate *)

Lemma deletes_only_refl (c : transaction) : deletes_only c c.
Proof. unfold deletes_only. naive_solver. Qed.

Lemma deletes_only_trans (c1 c2 c3 : transaction) :
  deletes_only c1 c2 → deletes_only c2 c3 → deletes_only c1 c3.
Proof.
  intros (Ho & Hk & Hdk & Ht & Hi & Hdi & Hdt) (Ho' & Hk' & Hdk' & Ht' & Hi' & Hdi' & Hdt').
  repeat split; try congruence; eauto.
  intros tag K3 H3. destruct (Ht' _ _ H3) as (K2 & H2 & Hsub).
  destruct (Ht _ _ H2) as (K1 & H1 & Hsub'). exists K1. split; [done|]. set_solver.
Qed.

Lemma deletes_only_foldl {X} (f : transaction → X → transaction) :
  (∀ c x, deletes_only c (f c x)) → ∀ l c, deletes_only c (foldl f c l).
Proof.
  intros Hf l. induction l as [|x l IH]; intros c; simpl.
  - apply deletes_only_refl.
  - eapply deletes_only_trans; [apply Hf|apply IH].
Qed.

Lemma deleteKey_step_deletes_only key (c : transaction) tag :
  deletes_only c (deleteKey_step key c tag).
Proof.
  unfold deleteKey_step.
  destruct (tagToKeys (deletions c) !! tag) eqn:Hd; [apply deletes_only_refl|].
  repeat split; simpl; try done.
  - intros tag' K'. unfold inner_delete. rewrite lookup_alter.
    case_decide as Heq.
    + subst tag'. destruct (tagToKeys (additions c) !! tag) as [K|]; simpl; [|done].
      intros [= <-]. exists K. split; [done|]. by apply subseteq_difference_l.
    + intros Hl. exists K'. split; [done|]. set_solver.
  - intros tag' Hl. rewrite lookup_insert. case_decide; [eauto|done].
Qed.

Lemma transaction_deleteKey_deletes_only (c : transaction) key :
  deletes_only c (transaction_deleteKey c key).
Proof.
  unfold transaction_deleteKey.
  eapply deletes_only_trans;
    [|apply deletes_only_foldl; intros; apply deleteKey_step_deletes_only].
  repeat split; simpl; try done.
  - intros tag K' Hl. exists K'. split; [done|]. set_solver.
  - intros k v. rewrite lookup_delete. case_decide; [done|auto].
  - intros k Hl. rewrite lookup_insert. case_decide; [eauto|done].
Qed.

Lemma Invalidate_keys_deletes_only l (c : transaction) deleted :
  deletes_only c (foldl Invalidate_key (c, deleted) l).1.
Proof.
  revert c deleted. induction l as [|k l IH]; intros c deleted; simpl.
  - apply deletes_only_refl.
  - eapply deletes_only_trans; [|apply IH]. apply transaction_deleteKey_deletes_only.
Qed.

Lemma Invalidate_step_deletes_only (st : transaction * list string) tag :
  deletes_only st.1 (Invalidate_step st tag).1.
Proof.
  unfold Invalidate_step.
  destruct (tagToKeys (deletions st.1) !! tag) eqn:Hd; [apply deletes_only_refl|].
  destruct (match tagToKeys (additions st.1) !! tag with
            | Some keys => Some keys
            | None => tagToKeys (origin st.1) !! tag
            end) as [keys'|]; [|apply deletes_only_refl].
  simpl. eapply deletes_only_trans;
    [|eapply deletes_only_trans;
       [apply Invalidate_keys_deletes_only|apply transaction_deleteKey_deletes_only]].
  repeat split; simpl; try done.
  - intros tag' K'. rewrite lookup_delete. case_decide; [done|].
    intros Hl. exists K'. split; [done|]. set_solver.
  - intros tag' Hl. rewrite lookup_insert. case_decide; [eauto|done].
Qed.

Lemma transaction_Invalidate_deletes_only (c : transaction) tags :
  deletes_only c (transaction_Invalidate c tags).1.
Proof.
  unfold transaction_Invalidate. generalize (@nil string).
  revert c. induction tags as [|tag tags IH]; intros c deleted; simpl.
  - apply deletes_only_refl.
  - pose proof (Invalidate_step_deletes_only (c, deleted) tag) as Hstep.
    destruct (Invalidate_step (c, deleted) tag) as [c' deleted']. simpl in Hstep.
    eapply deletes_only_trans; [exact Hstep|apply IH].
Qed.

Lemma tags_of_deletes_only (c c' : transaction) key :
  deletes_only c c' → tags_of c' key = tags_of c key.
Proof. intros (Ho & Hk & _). unfold tags_of. by rewrite Ho, Hk. Qed.

Lemma deleteKey_steps_mark key l (c : transaction) tag :
  tag ∈ l → is_Some (tagToKeys (deletions (foldl (deleteKey_step key) c l)) !! tag).
Proof.
  revert c. induction l as [|x l IH]; intros c Hin; [by apply elem_of_nil in Hin|].
  simpl. apply elem_of_cons in Hin as [->|Hin]; [|by apply IH].
  pose proof (deletes_only_foldl (deleteKey_step key)
                (deleteKey_step_deletes_only key) l (deleteKey_step key c x))
    as (_ & _ & _ & _ & _ & _ & Hmono).
  apply Hmono. unfold deleteKey_step.
  destruct (tagToKeys (deletions c) !! x) eqn:Hd; [by rewrite Hd|].
  simpl. rewrite lookup_insert_eq. eauto.
Qed.

(** [deleteKey] marks the key deleted, and marks every tag of the key
    deleted as a whole. *)
Lemma transaction_deleteKey_marks (c : transaction) key :
  range_complete →
  is_Some (items (deletions (transaction_deleteKey c key)) !! key)
  ∧ ∀ tag, tag ∈ tags_of c key →
      is_Some (tagToKeys (deletions (transaction_deleteKey c key)) !! tag).
Proof.
  intros Hc. split.
  - unfold transaction_deleteKey.
    match goal with
    | |- context [foldl _ ?c0 ?l] =>
        pose proof (deletes_only_foldl (deleteKey_step key)
                      (deleteKey_step_deletes_only key) l c0)
          as (_ & _ & _ & _ & _ & Hmono & _)
    end.
    apply Hmono. simpl. rewrite lookup_insert_eq. eauto.
  - intros tag Hin. unfold transaction_deleteKey.
    apply deleteKey_steps_mark. apply Hc. exact Hin.
Qed.

Lemma Invalidate_keys_mark l (c : transaction) deleted k :
  range_complete →
  k ∈ l →
  is_Some (items (deletions (foldl Invalidate_key (c, deleted) l).1) !! k)
  ∧ ∀ tag, tag ∈ tags_of c k →
      is_Some (tagToKeys (deletions (foldl Invalidate_key (c, deleted) l).1) !! tag).
Proof.
  intros Hc. revert c deleted.
  induction l as [|x l IH]; intros c deleted Hin; [by apply elem_of_nil in Hin|].
  simpl. apply elem_of_cons in Hin as [->|Hin].
  - destruct (transaction_deleteKey_marks c x Hc) as [Hk Ht].
    pose proof (Invalidate_keys_deletes_only l (transaction_deleteKey c x)
                  (append_new deleted x)) as (_ & _ & _ & _ & _ & Hmi & Hmt).
    split; [by apply Hmi|]. intros tag Hin. apply Hmt, Ht, Hin.
  - destruct (IH (transaction_deleteKey c x) (append_new deleted x) Hin) as [Hk Ht].
    split; [done|]. intros tag Htag. apply Ht.
    by rewrite (tags_of_deletes_only c _ k (transaction_deleteKey_deletes_only c x)).
Qed.

(** Invalidating one tag from an empty overlay: every key bound to the
    tag is marked deleted together with all of its tags, and nothing is
    added. *)
Lemma transaction_Invalidate_one (s : storage) tag K :
  range_complete →
  tagToKeys s !! tag = Some K →
  let c' := (transaction_Invalidate (Transaction s empty_storage empty_storage) [tag]).1 in
  origin c' = s
  ∧ additions c' = empty_storage
  ∧ keyToTags (deletions c') = ∅
  ∧ ∀ k, k ∈ K →
      is_Some (items (deletions c') !! k)
      ∧ ∀ tag', tag' ∈ default ∅ (keyToTags s !! k) →
          is_Some (tagToKeys (deletions c') !! tag').
Proof.
  intros Hc HK c'.
  pose proof (transaction_Invalidate_deletes_only
                (Transaction s empty_storage empty_storage) [tag])
    as (Ho & Hk & Hdk & Ht & Hi & _ & _).
  fold c' in Ho, Hk, Hdk, Ht, Hi. simpl in *.
  split; [done|]. split.
  { destruct (additions c') as [t2k k2t it] eqn:Ha. simpl in *. subst k2t.
    unfold empty_storage. f_equal.
    - apply map_eq. intros i. rewrite lookup_empty.
      destruct (t2k !! i) as [K'|] eqn:Hl; [|done].
      destruct (Ht _ _ Hl) as (? & Hbad & _). by rewrite lookup_empty in Hbad.
    - apply map_eq. intros i. rewrite lookup_empty.
      destruct (it !! i) as [v|] eqn:Hl; [|done].
      apply Hi in Hl. by rewrite lookup_empty in Hl. }
  split; [done|].
  intros k Hin. subst c'.
  set (c1 := set_deletions
               (set_additions (Transaction s empty_storage empty_storage)
                  (set_tagToKeys empty_storage (delete tag ∅)))
               (set_tagToKeys empty_storage (<[tag := ∅]> ∅))).
  assert (Heq : transaction_Invalidate (Transaction s empty_storage empty_storage) [tag]
                = Invalidate_key (foldl Invalidate_key (c1, []) (range K)) tag).
  { unfold transaction_Invalidate, Invalidate_step. simpl.
    by rewrite !lookup_empty, HK. }
  rewrite Heq. simpl.
  destruct (Invalidate_keys_mark (range K) c1 [] k Hc (Hc _ _ Hin)) as [Hmk Hmt].
  pose proof (transaction_deleteKey_deletes_only
                (foldl Invalidate_key (c1, []) (range K)).1 tag)
    as (_ & _ & _ & _ & _ & Hmi' & Hmt').
  split; [by apply Hmi'|].
  intros tag' Htag'. apply Hmt', Hmt. unfold tags_of. simpl.
  by rewrite lookup_empty.
Qed.

(** Invalidating a tag at the store deletes every key bound to the tag
    and drops every tag of such a key from tag→keys; it never panics. *)
Lemma db_Invalidate_one (c : db) tag K :
  range_complete →
  overlay_empty c →
  tagToKeys (db_storage c) !! tag = Some K →
  ∃ c' deleted,
    db_Invalidate c [tag] = Some (c', deleted)
    ∧ overlay_empty c'
    ∧ keyToTags (db_storage c') = keyToTags (db_storage c)
    ∧ (∀ k, items (db_storage c') !! k = None ∨
            items (db_storage c') !! k = items (db_storage c) !! k)
    ∧ ∀ k, k ∈ K →
        db_Get c' k = (anil, false)
        ∧ ∀ tag', tag' ∈ default ∅ (keyToTags (db_storage c) !! k) →
            tagToKeys (db_storage c') !! tag' = None.
Proof.
  intros Hc [Ha Hd] HK.
  unfold db_Invalidate, db_Update. simpl. rewrite Ha, Hd.
  destruct (transaction_Invalidate_one (db_storage c) tag K Hc HK)
    as (Ho & Hadd & Hdk & Hkeys).
  destruct (transaction_Invalidate
              (Transaction (db_storage c) empty_storage empty_storage) [tag])
    as [c' deleted] eqn:Hinv.
  simpl in *. eexists _, _. split; [done|]. split; [by split|].
  unfold publish. rewrite Hadd, Hdk. simpl. split.
  { apply map_eq. intros i. rewrite lookup_publish_map. unfold effective.
    by rewrite !lookup_empty. }
  split.
  { intros k. rewrite lookup_publish_map. unfold effective. rewrite lookup_empty.
    destruct (items (deletions c') !! k); auto. }
  intros k Hin. destruct (Hkeys k Hin) as [[d Hk] Ht]. split.
  - unfold db_Get, cacheView_Get. simpl.
    rewrite lookup_publish_map. unfold effective. by rewrite lookup_empty, Hk.
  - intros tag' Htag'. destruct (Ht tag' Htag') as [d' Hd'].
    rewrite lookup_publish_map. unfold effective. by rewrite lookup_empty, Hd'.
Qed.

(** C6, as the code has it. A key [k] tagged with [t1] and [t2] does not
    survive [Invalidate(t2)]: afterwards [Get(k)] reports [ok = false],
    and [Iter(t1)] no longer enumerates [k]. *)
Theorem Invalidate_deletes_key_under_other_tags (c : db) k t1 t2 val :
  range_complete →
  overlay_empty c →
  t1 ≠ t2 →
  db_Get c k = (val, true) →
  keyToTags (db_storage c) !! k = Some {[t1; t2]} →
  (∃ K1, tagToKeys (db_storage c) !! t1 = Some K1 ∧ k ∈ K1) →
  (∃ K2, tagToKeys (db_storage c) !! t2 = Some K2 ∧ k ∈ K2) →
  ∃ c' deleted,
    db_Invalidate c [t2] = Some (c', deleted)
    ∧ db_Get c' k = (anil, false)
    ∧ k ∉ visited_keys c' t1.
Proof.
  intros Hc Hempty Hne Hget Htags _ (K2 & HK2 & Hin).
  destruct (db_Invalidate_one c t2 K2 Hc Hempty HK2)
    as (c' & deleted & Hinv & _ & _ & _ & Hdel).
  destruct (Hdel k Hin) as [Hgone Hdropped].
  exists c', deleted. split; [done|]. split; [done|].
  unfold visited_keys, db_Iter, cacheView_Iter.
  rewrite (Hdropped t1); [apply not_elem_of_nil|].
  rewrite Htags. simpl. apply elem_of_union_l. by apply elem_of_singleton.
Qed.


(** ** Consistency of the snapshot *)

Lemma materialize_lookup k (added orig : gmap string (gset string)) j :
  materialize k added orig !! j
  = if decide (k = j)
    then Some (match added !! k with
               | Some x => x
               | None => default ∅ (orig !! k)
               end)
    else added !! j.
Proof.
  unfold materialize. destruct (added !! k) as [x|] eqn:Ha.
  - case_decide; [by subst|done].
  - destruct (orig !! k) as [y|]; simpl; rewrite lookup_insert; by case_decide.
Qed.

Lemma inner_add_lookup outer inner (m : gmap string (gset string)) j :
  inner_add outer inner m !! j
  = if decide (outer = j) then (λ x, {[inner]} ∪ x) <$> m !! outer else m !! j.
Proof. unfold inner_add. by rewrite lookup_alter. Qed.

Lemma overlay_inv_deletes_only (s : storage) (c c' : transaction) :
  overlay_inv s c → deletes_only c c' → overlay_inv s c'.
Proof.
  intros (Ho & Hdk & Hsup & Hback) (Ho' & Hk' & Hdk' & Ht' & _).
  repeat split.
  - congruence.
  - congruence.
  - intros k T T0. rewrite Hk'. apply Hsup.
  - intros tag K' k HK' Hin. destruct (Ht' _ _ HK') as (K & HK & Hsub).
    destruct (Hback tag K k HK) as (T & HT & HinT); [set_solver|].
    exists T. split; [|done]. unfold eff_k2t in *. by rewrite Ho', Hk'.
Qed.

Lemma overlay_inv_Put (s : storage) (c : transaction) key val :
  overlay_inv s c → overlay_inv s (transaction_Put c key val).
Proof. intros (Ho & Hdk & Hsup & Hback). repeat split; done. Qed.

Lemma Tag_step_overlay_inv (s : storage) (c : transaction) key tag :
  inv_t2k s →
  overlay_inv s c →
  is_Some (keyToTags (additions c) !! key) →
  overlay_inv s (Tag_step key c tag)
  ∧ is_Some (keyToTags (additions (Tag_step key c tag)) !! key).
Proof.
  intros Hs (Ho & Hdk & Hsup & Hback) [Tkey HTkey].
  assert (Heff : ∀ k T, eff_k2t c k = Some T →
            ∃ T', eff_k2t (Tag_step key c tag) k = Some T' ∧ T ⊆ T').
  { intros k T. unfold eff_k2t, Tag_step. simpl. rewrite inner_add_lookup.
    case_decide as Hk.
    - subst k. rewrite HTkey. simpl. intros [= <-]. eexists. split; [done|].
      apply union_subseteq_r.
    - intros Hl. exists T. split; [done|]. done. }
  split; [|unfold Tag_step; simpl; rewrite inner_add_lookup;
           rewrite decide_True by done; rewrite HTkey; simpl; eauto].
  repeat split; try done.
  - intros k T T0. unfold Tag_step. simpl. rewrite inner_add_lookup.
    case_decide as Hk.
    + subst k. rewrite HTkey. simpl. intros [= <-] HT0.
      etrans; [by eapply Hsup|]. apply union_subseteq_r.
    + apply Hsup.
  - intros tag' K k. unfold Tag_step at 1. simpl.
    rewrite inner_add_lookup, materialize_lookup.
    case_decide as Htag.
    + subst tag'. rewrite decide_True by done. simpl. intros [= <-] Hin.
      apply elem_of_union in Hin as [Hin|Hin].
      * apply elem_of_singleton in Hin. subst k.
        unfold eff_k2t, Tag_step. simpl. rewrite inner_add_lookup.
        rewrite decide_True by done. rewrite HTkey. simpl.
        eexists. split; [done|]. apply elem_of_union_l. by apply elem_of_singleton.
      * assert (∃ T, eff_k2t c k = Some T ∧ tag ∈ T) as (T & HT & HinT).
        { destruct (tagToKeys (additions c) !! tag) as [K0|] eqn:HK0.
          - by eapply Hback.
          - rewrite Ho in Hin.
            destruct (tagToKeys s !! tag) as [K0|] eqn:HK0'; simpl in Hin;
              [|by apply not_elem_of_empty in Hin].
            destruct (Hs tag K0 k HK0' Hin) as (T0 & HT0 & HinT0).
            unfold eff_k2t. rewrite Ho.
            destruct (keyToTags (additions c) !! k) as [T|] eqn:HT.
            + exists T. split; [done|]. by eapply Hsup.
            + exists T0. done. }
        destruct (Heff k T HT) as (T' & HT' & Hsub). exists T'. split; [done|].
        by apply Hsub.
    + rewrite materialize_lookup, decide_False by done.
      intros HK Hin. destruct (Hback tag' K k HK Hin) as (T & HT & HinT).
      destruct (Heff k T HT) as (T' & HT' & Hsub). exists T'. split; [done|].
      by apply Hsub.
Qed.

Lemma transaction_Tag_overlay_inv (s : storage) (c : transaction) key tags :
  inv_t2k s → overlay_inv s c → overlay_inv s (transaction_Tag c key tags).
Proof.
  intros Hs (Ho & Hdk & Hsup & Hback). unfold transaction_Tag.
  set (c0 := set_additions c _).
  assert (H0 : overlay_inv s c0 ∧ is_Some (keyToTags (additions c0) !! key)).
  { subst c0. split.
    - repeat split; try done.
      + intros k T T0. simpl. rewrite materialize_lookup. case_decide as Hk.
        * subst k. intros [= <-] HT0.
          destruct (keyToTags (additions c) !! key) as [T|] eqn:HT.
          -- by eapply Hsup.
          -- rewrite Ho, HT0. done.
        * apply Hsup.
      + intros tag K k HK Hin. destruct (Hback tag K k HK Hin) as (T & HT & HinT).
        exists T. split; [|done]. revert HT. unfold eff_k2t. simpl.
        rewrite materialize_lookup. case_decide as Hk; [|done].
        subst k. destruct (keyToTags (additions c) !! key); [done|].
        by intros ->.
    - simpl. rewrite materialize_lookup. rewrite decide_True by done. eauto. }
  clearbody c0. clear -Hs H0. revert c0 H0.
  induction tags as [|tag tags IH]; intros c0 [Hinv Hkey]; simpl; [done|].
  apply IH. by apply Tag_step_overlay_inv.
Qed.

(** Every callback keeps the overlay invariant, whatever it calls. *)
Lemma run_overlay_inv {R} (s : storage) (p : wprog R) (c c' : transaction) r :
  inv_t2k s → overlay_inv s c → run p c = Some (c', r) → overlay_inv s c'.
Proof.
  intros Hs. revert c.
  induction p as [r0| |key k IH|A tag fn a k IH|key val k IH|key tags k IH|tags k IH];
    intros c Hinv; simpl.
  - by intros [= <- <-].
  - done.
  - apply IH, Hinv.
  - destruct (transaction_Iter c tag fn a) as [a'|]; simpl; [|done]. apply IH, Hinv.
  - apply IH. by apply overlay_inv_Put.
  - apply IH. by apply transaction_Tag_overlay_inv.
  - pose proof (transaction_Invalidate_deletes_only c tags) as Hdel.
    destruct (transaction_Invalidate c tags) as [c1 deleted]. simpl in Hdel.
    apply IH. by eapply overlay_inv_deletes_only.
Qed.

Lemma publish_inv_t2k (s : storage) (c : transaction) :
  inv_t2k s → overlay_inv s c → inv_t2k (publish s c).
Proof.
  intros Hs (Ho & Hdk & Hsup & Hback) tag K k. unfold publish. simpl.
  rewrite !lookup_publish_map. unfold effective at 1. rewrite Hdk.
  assert (Hk2t : effective (keyToTags s) (keyToTags (additions c)) ∅ k = eff_k2t c k).
  { unfold effective, eff_k2t. rewrite lookup_empty, Ho. done. }
  rewrite Hk2t.
  destruct (tagToKeys (additions c) !! tag) as [K'|] eqn:Hadd.
  - intros [= <-]. by eapply Hback.
  - destruct (tagToKeys (deletions c) !! tag); [done|].
    intros HK Hin. destruct (Hs tag K k HK Hin) as (T0 & HT0 & HinT0).
    unfold eff_k2t. rewrite Ho.
    destruct (keyToTags (additions c) !! k) as [T|] eqn:HT.
    + exists T. split; [done|]. by eapply Hsup.
    + by exists T0.
Qed.

Lemma open_overlay_inv (c : db) : overlay_empty c → overlay_inv (db_storage c) (open_overlay c).
Proof.
  intros [Ha Hd]. unfold open_overlay. repeat split; simpl.
  - by rewrite Hd.
  - intros k T T0. rewrite Ha. simpl. by rewrite lookup_empty.
  - intros tag K k. rewrite Ha. simpl. by rewrite lookup_empty.
Qed.

(** Every Update, published or not, keeps the tag→keys sets listed
    back. *)
Lemma db_Update_inv_t2k {R} (c c' : db) (fn : wprog (R * option error)) r err :
  overlay_empty c →
  inv_t2k (db_storage c) →
  db_Update c fn = Some (c', r, err) →
  inv_t2k (db_storage c').
Proof.
  intros Hempty Hs (t' & Hrun & ->)%db_Update_unfold. simpl.
  destruct err as [e|]; [done|].
  apply publish_inv_t2k; [done|].
  eapply run_overlay_inv; [done|by apply open_overlay_inv|done].
Qed.


Lemma Tag_step_eff_t2k (c : transaction) key tag tg :
  eff_t2k (Tag_step key c tag) tg
  = if decide (tag = tg) then Some ({[key]} ∪ default ∅ (eff_t2k c tag))
    else eff_t2k c tg.
Proof.
  unfold eff_t2k, Tag_step. simpl. rewrite inner_add_lookup.
  case_decide as Htag.
  - rewrite materialize_lookup, decide_True by done. simpl.
    by destruct (tagToKeys (additions c) !! tag).
  - by rewrite materialize_lookup, decide_False by done.
Qed.

Lemma Tag_step_eff_k2t (c : transaction) key tag k Tkey :
  keyToTags (additions c) !! key = Some Tkey →
  eff_k2t (Tag_step key c tag) k
  = if decide (key = k) then Some ({[tag]} ∪ Tkey) else eff_k2t c k.
Proof.
  intros HT. unfold eff_k2t, Tag_step. simpl. rewrite inner_add_lookup.
  case_decide; [by rewrite HT|done].
Qed.

Lemma Tag_step_tag_overlay_inv (s : storage) (c : transaction) key tag :
  tag_overlay_inv s c →
  is_Some (keyToTags (additions c) !! key) →
  tag_overlay_inv s (Tag_step key c tag)
  ∧ is_Some (keyToTags (additions (Tag_step key c tag)) !! key).
Proof.
  intros (Ho & Hd & Hi & Hback) [Tkey HTkey]. split.
  2:{ unfold Tag_step. simpl. rewrite inner_add_lookup, decide_True by done.
      rewrite HTkey. simpl. eauto. }
  assert (Hgrow : ∀ tg K, eff_t2k c tg = Some K →
            ∃ K', eff_t2k (Tag_step key c tag) tg = Some K' ∧ K ⊆ K').
  { intros tg K HK. rewrite Tag_step_eff_t2k. case_decide as Htag.
    - subst tg. rewrite HK. simpl. eexists. split; [done|]. apply union_subseteq_r.
    - exists K. done. }
  repeat split; try done.
  intros k T tg. rewrite (Tag_step_eff_k2t c key tag k Tkey HTkey).
  assert (Hold : ∀ T0, eff_k2t c k = Some T0 → tg ∈ T0 →
            ∃ K, eff_t2k (Tag_step key c tag) tg = Some K ∧ k ∈ K).
  { intros T0 HT0 Hin. destruct (Hback k T0 tg HT0 Hin) as (K & HK & HinK).
    destruct (Hgrow tg K HK) as (K' & HK' & Hsub). exists K'. split; [done|].
    by apply Hsub. }
  case_decide as Hk; [|apply Hold].
  subst k. intros [= <-] Hin. apply elem_of_union in Hin as [Hin|Hin].
  - apply elem_of_singleton in Hin. subst tg.
    rewrite Tag_step_eff_t2k, decide_True by done.
    eexists. split; [done|]. apply elem_of_union_l. by apply elem_of_singleton.
  - apply (Hold Tkey); [|done]. unfold eff_k2t. by rewrite HTkey.
Qed.

Lemma transaction_Tag_tag_overlay_inv (s : storage) key tags :
  inv_k2t s →
  tag_overlay_inv s
    (transaction_Tag (Transaction s empty_storage empty_storage) key tags).
Proof.
  intros Hs. unfold transaction_Tag.
  set (c0 := set_additions _ _).
  assert (H0 : tag_overlay_inv s c0 ∧ is_Some (keyToTags (additions c0) !! key)).
  { subst c0. split.
    - repeat split; try done.
      intros k T tag. unfold eff_k2t, eff_t2k. simpl.
      rewrite materialize_lookup, !lookup_empty.
      case_decide as Hk.
      + subst k. intros [= <-].
        destruct (keyToTags s !! key) as [T0|] eqn:HT0; simpl.
        * by apply Hs.
        * intros Hin. by apply not_elem_of_empty in Hin.
      + apply Hs.
    - simpl. rewrite materialize_lookup, decide_True by done. eauto. }
  clearbody c0. revert c0 H0.
  induction tags as [|tag tags IH]; intros c0 [Hinv Hkey]; simpl; [done|].
  apply IH. by apply Tag_step_tag_overlay_inv.
Qed.

Lemma publish_tag_overlay (s : storage) (c : transaction) :
  inv_items s → tag_overlay_inv s c →
  inv_items (publish s c) ∧ inv_k2t (publish s c).
Proof.
  intros Hit (Ho & Hd & Hi & Hback).
  assert (Hk2t : ∀ k, keyToTags (publish s c) !! k = eff_k2t c k).
  { intros k. unfold publish. simpl. rewrite lookup_publish_map.
    unfold effective, eff_k2t. rewrite Hd, Ho. simpl. by rewrite lookup_empty. }
  assert (Ht2k : ∀ tag, tagToKeys (publish s c) !! tag = eff_t2k c tag).
  { intros tag. unfold publish. simpl. rewrite lookup_publish_map.
    unfold effective, eff_t2k. rewrite Hd, Ho. simpl. by rewrite lookup_empty. }
  split.
  - intros k. rewrite Hk2t. unfold publish. simpl. rewrite lookup_publish_map.
    unfold effective. rewrite Hi, Hd. simpl. rewrite !lookup_empty.
    intros Hk%Hit. unfold eff_k2t. rewrite Ho.
    destruct (keyToTags (additions c) !! k); [eauto|done].
  - intros k T tag. rewrite Hk2t, Ht2k. apply Hback.
Qed.

(** [Tag] at the store keeps all three parts of the consistency. *)
Lemma db_Tag_consistent (c c' : db) key tags :
  overlay_empty c →
  consistent (db_storage c) →
  db_Tag c key tags = Some c' →
  consistent (db_storage c').
Proof.
  intros Hempty (Hit & Hk2t & Ht2k) Htag.
  assert (Hupd : db_Update c (CallTag key tags (Return (tt, None))) = Some (c', tt, None)).
  { revert Htag. unfold db_Tag.
    destruct (db_Update c _) as [[[c1 []] err]|] eqn:Hupd; simpl; [|done].
    intros [= <-]. revert Hupd. unfold db_Update. simpl.
    by intros [= <- <-]. }
  pose proof (db_Update_inv_t2k c c' _ tt None Hempty Ht2k Hupd) as Ht2k'.
  revert Hupd. unfold db_Update. destruct Hempty as [-> ->]. simpl.
  intros [= <-]. simpl in *.
  destruct (publish_tag_overlay (db_storage c) _ Hit
              (transaction_Tag_tag_overlay_inv (db_storage c) key tags Hk2t))
    as [Hit' Hk2t'].
  done.
Qed.

(** [Put] at the store stores the item and touches neither tag map. *)
Lemma db_Put_tag_maps (c c' : db) key val :
  overlay_empty c →
  db_Put c key val = Some c' →
  keyToTags (db_storage c') = keyToTags (db_storage c)
  ∧ tagToKeys (db_storage c') = tagToKeys (db_storage c)
  ∧ items (db_storage c') = <[key := val]> (items (db_storage c)).
Proof.
  intros [Ha Hd]. unfold db_Put, db_Update. simpl. rewrite Ha, Hd.
  intros [= <-]. simpl. repeat split; apply map_eq; intros i;
    rewrite lookup_publish_map; unfold effective; rewrite ?lookup_empty; try done.
  rewrite !lookup_insert. case_decide; [done|]. by rewrite !lookup_empty.
Qed.

(** [Invalidate] at the store never panics, leaves key→tags as it is,
    and only removes entries of the other two maps. *)
Lemma db_Invalidate_shrinks (c : db) tags :
  overlay_empty c →
  ∃ c' deleted,
    db_Invalidate c tags = Some (c', deleted)
    ∧ overlay_empty c'
    ∧ keyToTags (db_storage c') = keyToTags (db_storage c)
    ∧ (∀ k, items (db_storage c') !! k = None
            ∨ items (db_storage c') !! k = items (db_storage c) !! k)
    ∧ (∀ tag, tagToKeys (db_storage c') !! tag = None
              ∨ tagToKeys (db_storage c') !! tag = tagToKeys (db_storage c) !! tag).
Proof.
  intros [Ha Hd]. unfold db_Invalidate, db_Update. simpl. rewrite Ha, Hd.
  pose proof (transaction_Invalidate_deletes_only
                (Transaction (db_storage c) empty_storage empty_storage) tags)
    as (Ho & Hk & Hdk & Ht & Hi & _ & _).
  destruct (transaction_Invalidate _ tags) as [c1 deleted]. simpl in *.
  eexists _, _. split; [done|]. split; [by split|]. simpl.
  assert (Hnoadd : ∀ tag, tagToKeys (additions c1) !! tag = None).
  { intros tag. destruct (tagToKeys (additions c1) !! tag) as [K'|] eqn:Hl; [|done].
    destruct (Ht _ _ Hl) as (? & Hbad & _). by rewrite lookup_empty in Hbad. }
  assert (Hnoitem : ∀ k, items (additions c1) !! k = None).
  { intros k. destruct (items (additions c1) !! k) as [v|] eqn:Hl; [|done].
    apply Hi in Hl. by rewrite lookup_empty in Hl. }
  repeat split.
  - apply map_eq. intros i. rewrite lookup_publish_map. unfold effective.
    by rewrite Hk, Hdk, !lookup_empty.
  - intros k. rewrite lookup_publish_map. unfold effective. rewrite Hnoitem.
    destruct (items (deletions c1) !! k); auto.
  - intros tag. rewrite lookup_publish_map. unfold effective. rewrite Hnoadd.
    destruct (tagToKeys (deletions c1) !! tag); auto.
Qed.

(** C2, as the code has it. From a store whose overlay is empty:
    every Update keeps each key listed under a tag in tag→keys listing
    that tag in its key→tags entry; [Tag] keeps all three parts of the
    consistency; [Put] stores the item and touches neither tag map, so a
    key that was never tagged has no key→tags entry; [Invalidate] keeps
    every stored key with a key→tags entry. *)
Theorem consistency_preserved_as_designed (c : db) :
  overlay_empty c →
  (∀ R (fn : wprog (R * option error)) c' r err,
     db_Update c fn = Some (c', r, err) →
     inv_t2k (db_storage c) → inv_t2k (db_storage c'))
  ∧ (∀ key tags c',
       db_Tag c key tags = Some c' →
       consistent (db_storage c) → consistent (db_storage c'))
  ∧ (∀ key val c',
       db_Put c key val = Some c' →
       keyToTags (db_storage c') = keyToTags (db_storage c)
       ∧ tagToKeys (db_storage c') = tagToKeys (db_storage c)
       ∧ items (db_storage c') = <[key := val]> (items (db_storage c)))
  ∧ (∀ tags c' deleted,
       db_Invalidate c tags = Some (c', deleted) →
       inv_items (db_storage c) → inv_items (db_storage c')).
Proof.
  intros Hempty. split; [|split; [|split]].
  - intros R fn c' r err Hupd Hinv. by eapply db_Update_inv_t2k.
  - intros key tags c' Htag Hcons. by eapply db_Tag_consistent.
  - intros key val c' Hput. by eapply db_Put_tag_maps.
  - intros tags c' deleted Hinv Hit k.
    destruct (db_Invalidate_shrinks c tags Hempty)
      as (c1 & d1 & Hinv1 & _ & Hk & Hi & _).
    rewrite Hinv1 in Hinv. injection Hinv as <- <-.
    rewrite Hk. destruct (Hi k) as [->| ->]; [by intros [? ?]|apply Hit].
Qed.


(** ** Collections *)

(** C10. A collection whose [extract] is nil cannot be loaded: [Load]
    panics on every writer, and so does [Invalidate], which calls [Load]
    inside its Update. The collection that [Infer] returns is made
    without an Extractor, so this is what happens to it. Conversely, a
    [Load] that returns was given an Extractor. *)
Theorem Load_without_Extractor_panics :
  (∀ T (D : Dyn T) (c : Collection T),
     extract c = None →
     (∀ w t, run (Collection_Load c w) t = None)
     ∧ (∀ d w, Collection_Invalidate c d w = None))
  ∧ (∀ Base Inferred (D : Dyn Inferred) (baseCol : Collection Base) mapBy
       (mapFn' : mapFn Base Inferred),
       extract (Infer baseCol mapBy mapFn').2 = None
       ∧ (∀ w t, run (Collection_Load (Infer baseCol mapBy mapFn').2 w) t = None)
       ∧ (∀ d w, Collection_Invalidate (Infer baseCol mapBy mapFn').2 d w = None))
  ∧ (∀ T (D : Dyn T) (c : Collection T) w t,
       is_Some (run (Collection_Load c w) t) → is_Some (extract c)).
Proof.
  assert (Hnil : ∀ T (D : Dyn T) (c : Collection T),
            extract c = None →
            (∀ w t, run (Collection_Load c w) t = None)
            ∧ (∀ d w, Collection_Invalidate c d w = None)).
  { intros T D c Hnil. split.
    - intros w t. unfold Collection_Load. by rewrite Hnil.
    - intros d w. unfold Collection_Invalidate, db_Update, Collection_Load.
      rewrite Hnil. simpl.
      by destruct (transaction_Invalidate _ [kind c]). }
  split; [exact Hnil|]. split.
  - intros Base Inferred D baseCol mapBy mapFn'.
    assert (Hx : extract (Infer baseCol mapBy mapFn').2 = None) by reflexivity.
    split; [exact Hx|]. exact (Hnil _ _ _ Hx).
  - intros T D c w t. unfold Collection_Load.
    destruct (extract c); [eauto|]. simpl. by intros [? ?].
Qed.

(** *** Derivatives *)




Lemma mkKey_unfold kind' attr val :
  Codec.mkKey kind' attr val
  = (kind' ++ String Codec.curlyStart
               (attr ++ String Codec.colon (val ++ String Codec.curlyEnd "")))%string.
Proof. reflexivity. Qed.


Lemma Tag_step_keeps_tagged key (c : transaction) tag tag' :
  (∃ K, tagToKeys (additions c) !! tag = Some K ∧ key ∈ K) →
  ∃ K, tagToKeys (additions (Tag_step key c tag')) !! tag = Some K ∧ key ∈ K.
Proof.
  intros (K & HK & Hin). unfold Tag_step. simpl. rewrite inner_add_lookup.
  case_decide as Htag.
  - subst tag'. rewrite materialize_lookup, decide_True by done. simpl.
    rewrite HK. eexists. split; [done|]. apply elem_of_union_l.
    by apply elem_of_singleton.
  - rewrite materialize_lookup, decide_False by done. eauto.
Qed.

Lemma Tag_fold_tagged key tags (c : transaction) tag :
  tag ∈ tags →
  ∃ K, tagToKeys (additions (foldl (Tag_step key) c tags)) !! tag = Some K ∧ key ∈ K.
Proof.
  assert (Hkeep : ∀ l (c0 : transaction),
            (∃ K, tagToKeys (additions c0) !! tag = Some K ∧ key ∈ K) →
            ∃ K, tagToKeys (additions (foldl (Tag_step key) c0 l)) !! tag = Some K
                 ∧ key ∈ K).
  { intros l. induction l as [|x l IH]; intros c0 H0; simpl; [done|].
    apply IH. by apply Tag_step_keeps_tagged. }
  revert c. induction tags as [|x tags IH]; intros c Hin;
    [by apply elem_of_nil in Hin|].
  simpl. apply elem_of_cons in Hin as [->|Hin]; [|by apply IH].
  apply Hkeep. unfold Tag_step. simpl.
  rewrite inner_add_lookup, decide_True by done.
  rewrite materialize_lookup, decide_True by done. simpl.
  eexists. split; [done|]. apply elem_of_union_l. by apply elem_of_singleton.
Qed.

(** A fill that succeeds binds the key to each of the tags given to
    [GetOrFill]. *)
Lemma db_GetOrFill_miss_tagged (c c1 : db) key (f : fillFn) tags w v w1 tag :
  overlay_empty c →
  db_Get c key = (anil, false) →
  db_GetOrFill c key f tags w = Some (c1, (v, None), w1) →
  tag ∈ tags →
  ∃ K, tagToKeys (db_storage c1) !! tag = Some K ∧ key ∈ K.
Proof.
  intros [Ha Hd] Hget Hcall Htag. revert Hcall.
  unfold db_GetOrFill. rewrite Hget.
  unfold db_Update, GetOrFill_updateFn. simpl.
  assert (Hmiss : transaction_Get
            (Transaction (db_storage c) (additions (db_t c)) (deletions (db_t c))) key
          = (anil, false)).
  { unfold transaction_Get. simpl. rewrite Ha. simpl. rewrite lookup_empty.
    revert Hget. unfold db_Get, cacheView_Get.
    by destruct (items (db_storage c) !! key). }
  rewrite Hmiss. destruct (f w) as [[v' [e|]] w']; simpl; [done|].
  intros [= <- <- <-]. simpl. rewrite lookup_publish_map. unfold effective.
  unfold transaction_Tag.
  match goal with
  | |- context [foldl (Tag_step key) ?c0 tags] =>
      destruct (Tag_fold_tagged key tags c0 tag Htag) as (K & -> & Hin)
  end.
  eauto.
Qed.

Lemma Derive_hit {In Out} `{!Dyn Out} (collection : Collection In) name pkref
    (fn : In → W → Out * option error * W) i d w val :
  ref (col_pk collection) = Some pkref →
  db_Get d (Derive_key collection name pkref i) = (val, true) →
  Derive collection name fn i d w
  = Some (d, match assert_type val with
             | Some out => (Some out, None)
             | None => (None, Some ErrTypeAssertion)
             end, w).
Proof.
  intros Hpk Hget. unfold Derive. rewrite Hpk.
  rewrite (db_GetOrFill_hit d _ _ [kind collection] w val Hget). simpl.
  by destruct (assert_type val).
Qed.

(** A derivative that is not memoized runs [fn]; when [fn] succeeds its
    output is returned, stored under the derivative's key and bound to
    the kind of the collection. *)
Lemma Derive_miss {In Out} `{!Dyn Out} (collection : Collection In) name pkref
    (fn : In → W → Out * option error * W) i d w out w1 :
  overlay_empty d →
  ref (col_pk collection) = Some pkref →
  db_Get d (Derive_key collection name pkref i) = (anil, false) →
  fn i w = (out, None, w1) →
  ∃ d1, Derive collection name fn i d w = Some (d1, (Some out, None), w1)
    ∧ overlay_empty d1
    ∧ db_Get d1 (Derive_key collection name pkref i) = (to_any out, true)
    ∧ ∃ K, tagToKeys (db_storage d1) !! kind collection = Some K
           ∧ Derive_key collection name pkref i ∈ K.
Proof.
  intros Hempty Hpk Hget Hfn. unfold Derive. rewrite Hpk.
  set (key := Derive_key collection name pkref i) in *.
  set (fill := λ w0 : W, let '(res, err, w') := fn i w0 in (to_any res, err, w')).
  assert (Hfill : fill w = (to_any out, None, w1)) by (subst fill; simpl; by rewrite Hfn).
  destruct (db_GetOrFill_miss d key fill [kind collection] w _ _ _ Hempty Hget Hfill)
    as (d1 & Hcall & Hempty1 & Hstored).
  rewrite Hcall. simpl. rewrite assert_to_any. exists d1.
  split; [done|]. split; [done|]. split; [done|].
  eapply db_GetOrFill_miss_tagged; [exact Hempty|exact Hget|exact Hcall|]. left.
Qed.





End Facts.

(** * Further properties *)

Section MoreFacts.

Context {V W : Type} {order : MapOrder}.

Local Abbreviation storage := (@storage V).
Local Abbreviation transaction := (@transaction V).
Local Abbreviation db := (@db V).
Local Abbreviation wprog := (@wprog V).
Local Abbreviation visitFn := (@visitFn V).
Local Abbreviation fillFn := (@fillFn V W).
Local Abbreviation Collection := (@Collection V W).
Local Abbreviation Dyn := (@Dyn V).
Local Abbreviation NewDB := (@NewDB V).

(** ** Key codec *)

Section MoreCodecFacts.
Import Codec.

Lemma string_from_0 s : string_from 0 s = s.
Proof.
  unfold string_from. rewrite Nat.sub_0_r.
  induction s as [|a s IH]; simpl; [done|]. by rewrite IH.
Qed.

Lemma string_from_split s n m :
  (n ≤ m)%nat → (m ≤ String.length s)%nat →
  string_from n s = (substring n (m - n) s ++ string_from m s)%string.
Proof.
  unfold string_from. revert n m. induction s as [|a s IH]; intros n m Hnm Hm.
  - simpl in Hm. assert (m = 0)%nat as -> by lia. assert (n = 0)%nat as -> by lia. done.
  - destruct n as [|n].
    + destruct m as [|m].
      * simpl. by rewrite append_nil_l.
      * simpl String.length. simpl in Hm.
        change (substring 0 (S (String.length s) - 0) (String a s))
          with (String a (substring 0 (String.length s) s)).
        change (substring 0 (S m - 0) (String a s))
          with (String a (substring 0 m s)).
        change (substring (S m) (S (String.length s) - S m) (String a s))
          with (substring m (String.length s - m) s).
        rewrite append_cons. f_equal.
        pose proof (IH 0%nat m ltac:(lia) ltac:(lia)) as H0.
        rewrite !Nat.sub_0_r in H0. exact H0.
    + destruct m as [|m]; [lia|]. simpl in Hm.
      change (substring (S n) (String.length (String a s) - S n) (String a s))
        with (substring n (String.length s - n) s).
      change (substring (S n) (S m - S n) (String a s))
        with (substring n (m - n) s).
      change (substring (S m) (String.length (String a s) - S m) (String a s))
        with (substring m (String.length s - m) s).
      apply IH; lia.
Qed.

Lemma string_from_IndexByte s c n :
  IndexByte s c = Z.of_nat n → string_from n s = String c (string_from (S n) s).
Proof.
  unfold string_from. revert n. induction s as [|a s IH]; intros n; simpl IndexByte.
  - lia.
  - destruct (Ascii.eqb_spec a c) as [->|Hne].
    + intros Hn. assert (n = 0)%nat as -> by lia. simpl String.length.
      change (substring 0 (S (String.length s) - 0) (String c s))
        with (String c (substring 0 (String.length s) s)).
      change (substring 1 (S (String.length s) - 1) (String c s))
        with (substring 0 (String.length s - 0) s).
      by rewrite Nat.sub_0_r.
    + pose proof (IndexByte_lower s c).
      destruct (Z.ltb_spec (IndexByte s c) 0) as [?|?]; [lia|].
      intros Hn. destruct n as [|n]; [lia|].
      change (substring (S n) (String.length (String a s) - S n) (String a s))
        with (substring n (String.length s - n) s).
      change (substring (S (S n)) (String.length (String a s) - S (S n)) (String a s))
        with (substring (S n) (String.length s - S n) s).
      apply IH. lia.
Qed.

Lemma slice_Some_substring s lo hi r :
  slice s lo hi = Some r →
  r = substring (Z.to_nat lo) (Z.to_nat hi - Z.to_nat lo) s.
Proof.
  intros Hs. pose proof (slice_Some_bounds _ _ _ _ Hs) as Hb.
  revert Hs. unfold slice. destruct (_ && _ && _); [|done].
  intros [= <-]. f_equal. lia.
Qed.

(** X2. A key that [parseKey] accepts is an encoded triple followed by
    whatever comes after the first close marker. *)
Theorem parseKey_accepts_encoded_prefix (key kind' attr val : string) :
  parseKey key = Some (kind', attr, val, true) →
  ∃ rest, key = (mkKey kind' attr val ++ rest)%string.
Proof.
  unfold parseKey.
  pose proof (IndexByte_upper key curlyStart) as U1.
  pose proof (IndexByte_upper key colon) as U2.
  pose proof (IndexByte_upper key curlyEnd) as U3.
  destruct (Z.ltb_spec (IndexByte key curlyStart) 0) as [L1|L1]; [done|].
  destruct (slice key 0 (IndexByte key curlyStart)) as [k1|] eqn:E1; simpl; [|done].
  destruct (Z.ltb_spec (IndexByte key colon) 0) as [L2|L2]; [done|].
  destruct (slice key (IndexByte key curlyStart + 1) (IndexByte key colon))
    as [k2|] eqn:E2; simpl; [|done].
  destruct (Z.ltb_spec (IndexByte key curlyEnd) 0) as [L3|L3]; [done|].
  destruct (slice key (IndexByte key colon + 1) (IndexByte key curlyEnd))
    as [k3|] eqn:E3; simpl; [|done].
  intros [= -> -> ->].
  pose proof (slice_Some_bounds _ _ _ _ E2) as B2.
  pose proof (slice_Some_bounds _ _ _ _ E3) as B3.
  apply slice_Some_substring in E1, E2, E3.
  set (i1 := Z.to_nat (IndexByte key curlyStart)) in *.
  set (i2 := Z.to_nat (IndexByte key colon)) in *.
  set (i3 := Z.to_nat (IndexByte key curlyEnd)) in *.
  replace (Z.to_nat (IndexByte key curlyStart + 1)) with (S i1) in E2 by lia.
  replace (Z.to_nat (IndexByte key colon + 1)) with (S i2) in E3 by lia.
  change (Z.to_nat 0) with 0%nat in E1.
  exists (string_from (S i3) key).
  rewrite mkKey_unfold, <- (string_from_0 key) at 1.
  rewrite (string_from_split key 0 i1) by lia.
  rewrite (string_from_IndexByte key curlyStart i1) by lia.
  rewrite (string_from_split key (S i1) i2) by lia.
  rewrite (string_from_IndexByte key colon i2) by lia.
  rewrite (string_from_split key (S i2) i3) by lia.
  rewrite (string_from_IndexByte key curlyEnd i3) by lia.
  rewrite <- E1, <- E2, <- E3.
  rewrite !app_string_assoc, !append_cons, !app_string_assoc, !append_cons.
  rewrite !app_string_assoc, !append_cons, append_nil_l. done.
Qed.

(** X3. A key without an open marker, or without a separator, is reported as
    not structured, without a panic; a key without a close marker is never
    reported as structured. *)
Theorem parseKey_soft_failure (key : string) :
  (occurs curlyStart key = false → parseKey key = Some ("", "", "", false))
  ∧ (occurs colon key = false → ∃ kind', parseKey key = Some (kind', "", "", false))
  ∧ (occurs curlyEnd key = false → ∀ r, parseKey key = Some r → r.2 = false).
Proof.
  split; [|split].
  - intros H%IndexByte_absent. unfold parseKey. by rewrite H.
  - intros H%IndexByte_absent. unfold parseKey.
    pose proof (IndexByte_upper key curlyStart) as U1.
    destruct (Z.ltb_spec (IndexByte key curlyStart) 0) as [L1|L1]; [eauto|].
    destruct (slice key 0 (IndexByte key curlyStart)) as [k1|] eqn:E1; simpl.
    + rewrite H. simpl. eauto.
    + apply slice_None_iff in E1. lia.
  - intros H r. apply parseKey_missing_delimiter. auto.
Qed.

End MoreCodecFacts.

(** ** The store engine *)

Lemma publish_nothing (s s' : storage) :
  publish s (Transaction s' empty_storage empty_storage) = s.
Proof.
  destruct s as [t2k k2t it]. unfold publish. simpl.
  f_equal; apply map_eq; intros i; rewrite lookup_publish_map; unfold effective;
    by rewrite !lookup_empty.
Qed.

Lemma run_wbind {R S} (p : wprog R) (f : R → wprog S) (c : transaction) :
  run (wbind p f) c = '(c', r) ← run p c; run (f r) c'.
Proof.
  revert c. induction p as [r0| |key k IH|A tag fn a k IH|key val k IH|key tags k IH|tags k IH];
    intros c; simpl; try done.
  - destruct (transaction_Iter c tag fn a) as [a'|]; simpl; [apply IH|done].
  - destruct (transaction_Invalidate c tags) as [c1 deleted]. apply IH.
Qed.

(** X5. Read after write: [Put] at the store never panics, the value is what
    [Get] returns afterwards, and nothing else changes: no other key, and
    neither tag map. *)
Theorem Put_then_Get (c : db) (key : string) (val : any V) :
  overlay_empty c →
  ∃ c', db_Put c key val = Some c'
    ∧ overlay_empty c'
    ∧ db_Get c' key = (val, true)
    ∧ (∀ k, k ≠ key → db_Get c' k = db_Get c k)
    ∧ keyToTags (db_storage c') = keyToTags (db_storage c)
    ∧ tagToKeys (db_storage c') = tagToKeys (db_storage c).
Proof.
  intros Hempty.
  assert (Hsome : ∃ c', db_Put c key val = Some c' ∧ overlay_empty c').
  { unfold db_Put, db_Update. simpl. eexists. split; [done|]. by split. }
  destruct Hsome as (c' & Hput & Hempty'). exists c'.
  destruct (db_Put_tag_maps c c' key val Hempty Hput) as (Hk & Ht & Hi).
  split; [done|]. split; [done|]. unfold db_Get, cacheView_Get. rewrite Hi.
  split; [by rewrite lookup_insert_eq|]. split; [|done].
  intros k Hne. by rewrite lookup_insert_ne.
Qed.

(** *** Tag *)

Lemma Tag_fold_eff (key : string) (tags : list string) (c : transaction) (T : gset string) :
  keyToTags (additions c) !! key = Some T →
  (∀ k, eff_k2t (foldl (Tag_step key) c tags) k
        = if decide (key = k) then Some (list_to_set tags ∪ T) else eff_k2t c k)
  ∧ (∀ tag, eff_t2k (foldl (Tag_step key) c tags) tag
            = if decide (tag ∈ tags)
              then Some ({[key]} ∪ default ∅ (eff_t2k c tag))
              else eff_t2k c tag).
Proof.
  revert c T. induction tags as [|t tags IH]; intros c T HT; simpl.
  - split.
    + intros k. case_decide as Hk; [|done]. subst k.
      unfold eff_k2t. rewrite HT. f_equal. by rewrite union_empty_l_L.
    + intros tag. destruct (decide (tag ∈ [])) as [Hin|_]; [|done].
      by apply elem_of_nil in Hin.
  - assert (HT1 : keyToTags (additions (Tag_step key c t)) !! key = Some ({[t]} ∪ T)).
    { unfold Tag_step. simpl. rewrite inner_add_lookup, decide_True by done.
      by rewrite HT. }
    destruct (IH (Tag_step key c t) ({[t]} ∪ T) HT1) as [IHk IHt]. split.
    + intros k. rewrite IHk. case_decide as Hk.
      * f_equal. rewrite (assoc_L (∪)). f_equal. apply (comm_L (∪)).
      * rewrite (Tag_step_eff_k2t c key t k T HT). by rewrite decide_False.
    + intros tag. rewrite IHt, Tag_step_eff_t2k.
      destruct (decide (tag ∈ t :: tags)) as [Hin'|Hnin'];
        destruct (decide (tag ∈ tags)) as [Hin|Hnin];
        destruct (decide (t = tag)) as [Heq|Hne]; try subst tag; try done.
      * simpl. by rewrite (assoc_L (∪)), (idemp_L (∪)).
      * apply elem_of_cons in Hin' as [?|?]; congruence.
      * exfalso. apply Hnin', elem_of_cons. by left.
      * exfalso. apply Hnin', elem_of_cons. by right.
      * exfalso. apply Hnin', elem_of_cons. by left.
Qed.

(** X6. What [Tag] does to the store: it never panics and leaves the items
    alone; the key→tags entry of the key becomes its former tags (none if
    it had no entry) together with the given tags; each given tag's key
    set becomes its former members (none if the tag was unknown) together
    with the key; every other entry of both maps stays. *)
Theorem Tag_effect (c : db) (key : string) (tags : list string) :
  overlay_empty c →
  ∃ c', db_Tag c key tags = Some c'
    ∧ overlay_empty c'
    ∧ items (db_storage c') = items (db_storage c)
    ∧ (∀ k, keyToTags (db_storage c') !! k
            = if decide (key = k)
              then Some (list_to_set tags ∪ default ∅ (keyToTags (db_storage c) !! key))
              else keyToTags (db_storage c) !! k)
    ∧ (∀ tag, tagToKeys (db_storage c') !! tag
              = if decide (tag ∈ tags)
                then Some ({[key]} ∪ default ∅ (tagToKeys (db_storage c) !! tag))
                else tagToKeys (db_storage c) !! tag).
Proof.
  intros [Ha Hd]. unfold db_Tag, db_Update. simpl. rewrite Ha, Hd.
  eexists. split; [done|]. split; [by split|]. simpl.
  set (s := db_storage c).
  set (c0 := Transaction s empty_storage empty_storage).
  destruct (transaction_Tag_frame c0 key tags) as (Ho & Hdel & Hit).
  unfold transaction_Tag in *.
  set (c1 := set_additions c0 _) in *.
  assert (HT : keyToTags (additions c1) !! key = Some (default ∅ (keyToTags s !! key))).
  { subst c1. simpl. rewrite materialize_lookup, decide_True by done.
    by rewrite lookup_empty. }
  destruct (Tag_fold_eff key tags c1 _ HT) as [Hk Ht].
  set (c2 := foldl (Tag_step key) c1 tags) in *.
  split; [|split].
  - apply map_eq. intros i. rewrite lookup_publish_map. unfold effective.
    rewrite Hit, Hdel. simpl. by rewrite !lookup_empty.
  - intros k. rewrite lookup_publish_map.
    assert (Heff : effective (keyToTags s) (keyToTags (additions c2))
                     (keyToTags (deletions c2)) k = eff_k2t c2 k).
    { unfold effective, eff_k2t. rewrite Hdel, Ho. simpl. by rewrite lookup_empty. }
    rewrite Heff, Hk. case_decide as Heq; [done|].
    unfold eff_k2t. subst c1. simpl.
    rewrite materialize_lookup, decide_False by done. by rewrite lookup_empty.
  - intros tag. rewrite lookup_publish_map.
    assert (Heff : effective (tagToKeys s) (tagToKeys (additions c2))
                     (tagToKeys (deletions c2)) tag = eff_t2k c2 tag).
    { unfold effective, eff_t2k. rewrite Hdel, Ho. simpl. by rewrite lookup_empty. }
    rewrite Heff, Ht.
    assert (Horig : eff_t2k c1 tag = tagToKeys s !! tag).
    { unfold eff_t2k. subst c1. simpl. by rewrite lookup_empty. }
    by rewrite Horig.
Qed.

(** *** Iter on the published snapshot *)

Lemma visited_loop (s : storage) (ks acc : list string) :
  cacheView_Iter_loop s (λ acc key _, ((acc ++ [key])%list, true)) ks acc
  = (acc ++ ks)%list.
Proof.
  revert acc. induction ks as [|k ks IH]; intros acc; simpl.
  - by rewrite app_nil_r.
  - rewrite IH. by rewrite <- app_assoc.
Qed.

(** X7. [Iter] at the store hands the callback every key bound to the tag
    and no other key, and does not call it for an unknown tag; a callback
    that answers false is called for the first key only, and the getter it
    receives reads the store. *)
Theorem Iter_enumerates_tag (c : db) (tag : string) :
  range_complete → range_sound →
  (∀ k, k ∈ visited_keys c tag
        ↔ ∃ K, tagToKeys (db_storage c) !! tag = Some K ∧ k ∈ K)
  ∧ (tagToKeys (db_storage c) !! tag = None →
     ∀ A (fn : visitFn A) a, db_Iter c tag fn a = a)
  ∧ (∀ K, tagToKeys (db_storage c) !! tag = Some K →
     db_Iter c tag (λ _ k getVal, (Some (k, getVal tt), false)) None
     = (λ k, (k, db_Get c k)) <$> head (range K)).
Proof.
  intros Hc Hs. split; [|split].
  - intros k. unfold visited_keys, db_Iter, cacheView_Iter.
    destruct (tagToKeys (db_storage c) !! tag) as [K|].
    + rewrite visited_loop. simpl. split.
      * intros Hin. exists K. split; [done|]. by apply Hs.
      * intros (K' & [= <-] & Hin). by apply Hc.
    + split; [by intros ?%elem_of_nil|]. by intros (K' & ? & _).
  - intros Hnone A fn a. unfold db_Iter, cacheView_Iter. by rewrite Hnone.
  - intros K HK. unfold db_Iter, cacheView_Iter. rewrite HK.
    by destruct (range K).
Qed.

(** *** Invalidate *)

Lemma append_new_elem (deleted : list string) k x :
  x ∈ append_new deleted k ↔ x ∈ deleted ∨ x = k.
Proof.
  unfold append_new. case_decide as Hin.
  - split; [auto|]. intros [?| ->]; done.
  - rewrite elem_of_app, list_elem_of_singleton. done.
Qed.

Lemma append_new_NoDup (deleted : list string) k :
  NoDup deleted → NoDup (append_new deleted k).
Proof.
  intros Hnd. unfold append_new. case_decide as Hin; [done|].
  apply NoDup_app. split; [done|]. split.
  - intros x Hx ->%list_elem_of_singleton. done.
  - apply NoDup_singleton.
Qed.

Lemma Invalidate_keys_NoDup l (c : transaction) deleted :
  NoDup deleted → NoDup (foldl Invalidate_key (c, deleted) l).2.
Proof.
  revert c deleted. induction l as [|k l IH]; intros c deleted Hnd; simpl; [done|].
  apply IH. by apply append_new_NoDup.
Qed.

Lemma Invalidate_keys_elem l (c : transaction) deleted x :
  x ∈ (foldl Invalidate_key (c, deleted) l).2 ↔ x ∈ deleted ∨ x ∈ l.
Proof.
  revert c deleted. induction l as [|k l IH]; intros c deleted; simpl.
  - split; [auto|]. intros [?|?%elem_of_nil]; done.
  - change (Invalidate_key (c, deleted) k)
      with (transaction_deleteKey c k, append_new deleted k).
    rewrite IH, append_new_elem, elem_of_cons. tauto.
Qed.

Lemma Invalidate_step_NoDup (st : transaction * list string) tag :
  NoDup st.2 → NoDup (Invalidate_step st tag).2.
Proof.
  intros Hnd. unfold Invalidate_step.
  destruct (tagToKeys (deletions st.1) !! tag); [done|].
  destruct (match tagToKeys (additions st.1) !! tag with
            | Some keys => Some keys
            | None => tagToKeys (origin st.1) !! tag
            end) as [keys'|]; [|done].
  simpl. apply append_new_NoDup. by apply Invalidate_keys_NoDup.
Qed.

(** X8. [Invalidate] never panics, and the list of deleted keys it returns
    never holds a key twice, inside a callback and at the store, whatever
    tags are given and however often a key is met. *)
Theorem Invalidate_deleted_NoDup (tags : list string) :
  (∀ c : transaction, NoDup (transaction_Invalidate c tags).2)
  ∧ ∀ c : db, ∃ c' deleted,
      db_Invalidate c tags = Some (c', deleted) ∧ NoDup deleted.
Proof.
  assert (Htx : ∀ c : transaction, NoDup (transaction_Invalidate c tags).2).
  { intros c. unfold transaction_Invalidate.
    assert (Hgen : ∀ st : transaction * list string,
              NoDup st.2 → NoDup (foldl Invalidate_step st tags).2).
    { induction tags as [|tag tags' IH]; intros st Hnd; simpl; [done|].
      apply IH. by apply Invalidate_step_NoDup. }
    apply Hgen. simpl. apply NoDup_nil_2. }
  split; [exact Htx|].
  intros c. unfold db_Invalidate, db_Update. simpl.
  pose proof (Htx (Transaction (db_storage c) (additions (db_t c)) (deletions (db_t c))))
    as Hnd.
  destruct (transaction_Invalidate _ tags) as [c1 d1]. simpl in *.
  eexists _, d1. by split.
Qed.

Lemma Invalidate_unknown_fold (tags : list string) (c : transaction) deleted :
  (∀ tag, tag ∈ tags →
     tagToKeys (deletions c) !! tag = None
     ∧ tagToKeys (additions c) !! tag = None
     ∧ tagToKeys (origin c) !! tag = None) →
  foldl Invalidate_step (c, deleted) tags = (c, deleted).
Proof.
  induction tags as [|tag tags IH]; intros Hnone; simpl; [done|].
  destruct (Hnone tag) as (Hd & Ha & Ho); [apply elem_of_cons; by left|].
  unfold Invalidate_step at 2. simpl. rewrite Hd, Ha, Ho.
  apply IH. intros tag' Hin. apply Hnone. apply elem_of_cons. by right.
Qed.

(** X9. Invalidating tags that the store does not know changes nothing and
    deletes nothing. *)
Theorem Invalidate_unknown_tags (c : db) (tags : list string) :
  overlay_empty c →
  (∀ tag, tag ∈ tags → tagToKeys (db_storage c) !! tag = None) →
  ∃ c', db_Invalidate c tags = Some (c', [])
    ∧ db_storage c' = db_storage c
    ∧ overlay_empty c'.
Proof.
  intros [Ha Hd] Hnone. unfold db_Invalidate, db_Update. simpl. rewrite Ha, Hd.
  unfold transaction_Invalidate. rewrite Invalidate_unknown_fold.
  - simpl. eexists. split; [done|]. split; [apply publish_nothing|by split].
  - intros tag Hin. simpl. rewrite !lookup_empty. split; [done|]. split; [done|].
    by apply Hnone.
Qed.

Lemma transaction_Invalidate_single (s : storage) tag K :
  tagToKeys s !! tag = Some K →
  transaction_Invalidate (Transaction s empty_storage empty_storage) [tag]
  = Invalidate_key
      (foldl Invalidate_key
         (set_deletions
            (set_additions (Transaction s empty_storage empty_storage)
               (set_tagToKeys empty_storage (delete tag ∅)))
            (set_tagToKeys empty_storage (<[tag := ∅]> ∅)), [])
         (range K)) tag.
Proof.
  intros HK. unfold transaction_Invalidate, Invalidate_step. simpl.
  by rewrite !lookup_empty, HK.
Qed.

(** X10. The cascade of one tag: [Invalidate] at the store deletes every key
    bound to the tag, deletes the tag itself as a key and drops it from
    tag→keys; the returned list holds exactly those keys and the tag; and
    invalidating the tag again changes nothing. *)
Theorem Invalidate_cascade (c : db) (tag : string) (K : gset string) :
  range_complete → range_sound →
  overlay_empty c →
  tagToKeys (db_storage c) !! tag = Some K →
  ∃ c' deleted,
    db_Invalidate c [tag] = Some (c', deleted)
    ∧ (∀ k, k ∈ K → db_Get c' k = (anil, false))
    ∧ db_Get c' tag = (anil, false)
    ∧ tagToKeys (db_storage c') !! tag = None
    ∧ (∀ x, x ∈ deleted ↔ x ∈ K ∨ x = tag)
    ∧ ∃ c'', db_Invalidate c' [tag] = Some (c'', [])
             ∧ db_storage c'' = db_storage c'.
Proof.
  intros Hc Hs Hempty HK.
  destruct (db_Invalidate_one c tag K Hc Hempty HK)
    as (c' & deleted & Hinv & Hempty' & _ & _ & Hdel).
  exists c', deleted. split; [done|].
  split; [by intros k Hin; apply Hdel|].
  (* what the overlay holds about the tag itself *)
  revert Hinv. unfold db_Invalidate, db_Update. simpl.
  destruct Hempty as [-> ->].
  destruct (transaction_Invalidate_one (db_storage c) tag K Hc HK)
    as (_ & Hadd & _ & _).
  rewrite (transaction_Invalidate_single _ _ _ HK) in *.
  set (c1 := set_deletions _ _) in *.
  set (st := foldl Invalidate_key (c1, []) (range K)) in *.
  simpl in Hadd. simpl. intros [= <- <-]. simpl.
  destruct (transaction_deleteKey_marks st.1 tag Hc) as [[x Hx] _].
  pose proof (Invalidate_keys_deletes_only (range K) c1 []) as (_ & _ & _ & _ & _ & _ & Hmt).
  pose proof (transaction_deleteKey_deletes_only st.1 tag) as (_ & _ & _ & _ & _ & _ & Hmt').
  fold st in Hmt.
  assert (Htag : is_Some (tagToKeys (deletions (transaction_deleteKey st.1 tag)) !! tag)).
  { apply Hmt', Hmt. subst c1. simpl. rewrite lookup_insert_eq. eauto. }
  destruct Htag as [y Hy].
  assert (Hdropped : tagToKeys (publish (db_storage c) (transaction_deleteKey st.1 tag))
                       !! tag = None).
  { unfold publish. simpl. rewrite lookup_publish_map. unfold effective.
    rewrite Hadd, Hy. simpl. by rewrite lookup_empty. }
  split; [|split; [exact Hdropped|split]].
  - unfold db_Get, cacheView_Get. simpl. rewrite lookup_publish_map. unfold effective.
    rewrite Hadd, Hx. simpl. by rewrite lookup_empty.
  - intros z. rewrite append_new_elem. unfold st. rewrite Invalidate_keys_elem.
    split.
    + intros [[?%elem_of_nil|Hin]| ->]; [done|left; by apply Hs|by right].
    + intros [Hin| ->]; [left; right; by apply Hc|by right].
  - unfold transaction_Invalidate. rewrite Invalidate_unknown_fold.
    + simpl. eexists. split; [done|]. apply publish_nothing.
    + intros t ->%list_elem_of_singleton. simpl. rewrite !lookup_empty.
      split; [done|]. split; [done|]. exact Hdropped.
Qed.

(** X11. A [Put] that ends a callback is always published: whatever the
    callback did before, also when it invalidated the key, [Get] returns
    the value put once the Update has returned. *)
Theorem Put_at_the_end_is_published {R} (c c' : db) (p : wprog unit) key val
    (r r' : R) err :
  db_Update c (wbind p (λ _, CallPut key val (Return (r, None)))) = Some (c', r', err) →
  err = None ∧ r' = r ∧ db_Get c' key = (val, true).
Proof.
  intros (t' & Hrun & ->)%db_Update_unfold.
  rewrite run_wbind in Hrun.
  destruct (run p (open_overlay c)) as [[c1 []]|]; simpl in Hrun; [|done].
  injection Hrun as <- <- <-. split; [done|]. split; [done|].
  unfold db_Get, cacheView_Get. simpl. rewrite lookup_publish_map. unfold effective.
  simpl. by rewrite lookup_insert_eq.
Qed.

(** X12. Inside a callback, [Get] on a key that the callback has just
    invalidated through its tag, and that the store holds, answers the nil
    value with [ok = true]. *)
Theorem Get_after_Invalidate_in_callback (c : db) tag (K : gset string) k v :
  range_complete →
  overlay_empty c →
  tagToKeys (db_storage c) !! tag = Some K →
  k ∈ K →
  items (db_storage c) !! k = Some v →
  ∃ c1 deleted,
    run (CallInvalidate [tag] (λ deleted, CallGet k (λ r, Return (deleted, r))))
      (open_overlay c)
    = Some (c1, (deleted, (anil, true))).
Proof.
  intros Hc [Ha Hd] HK Hin Hv. unfold open_overlay. rewrite Ha, Hd. simpl.
  destruct (transaction_Invalidate_one (db_storage c) tag K Hc HK)
    as (Ho & Hadd & _ & Hkeys).
  destruct (transaction_Invalidate _ [tag]) as [c1 deleted]. simpl in *.
  destruct (Hkeys k Hin) as [[d Hdel] _].
  exists c1, deleted. do 3 f_equal.
  apply (transaction_Get_deleted_origin_key c1 k v d).
  - rewrite Hadd. apply lookup_empty.
  - by rewrite Ho.
  - exact Hdel.
Qed.

(** X13. A fill that succeeds makes the key enumerable under each of the tags
    given to [GetOrFill]. *)
Theorem GetOrFill_binds_tags (c c1 : db) key (f : fillFn) tags w v w1 :
  range_complete →
  overlay_empty c →
  db_Get c key = (anil, false) →
  db_GetOrFill c key f tags w = Some (c1, (v, None), w1) →
  ∀ tag, tag ∈ tags → key ∈ visited_keys c1 tag.
Proof.
  intros Hc Hempty Hget Hcall tag Htag.
  destruct (db_GetOrFill_miss_tagged c c1 key f tags w v w1 tag Hempty Hget Hcall Htag)
    as (K & HK & Hin).
  unfold visited_keys, db_Iter, cacheView_Iter. rewrite HK, visited_loop. simpl.
  by apply Hc.
Qed.

(** X14. A callback that invalidates a tag and then tags a key with it lists
    the invalidated keys under the tag again: after the Update the tag
    holds the new key together with all the keys it held before, although
    the items of those keys are gone. *)
Theorem Invalidate_then_Tag_relists (c : db) (tag key : string) (K : gset string) :
  range_complete →
  overlay_empty c →
  tagToKeys (db_storage c) !! tag = Some K →
  ∃ c',
    db_Update c (CallInvalidate [tag] (λ _, CallTag key [tag] (Return (tt, None))))
    = Some (c', tt, None)
    ∧ tagToKeys (db_storage c') !! tag = Some ({[key]} ∪ K)
    ∧ ∀ k, k ∈ K → db_Get c' k = (anil, false).
Proof.
  intros Hc [Ha Hd] HK. unfold db_Update. simpl. rewrite Ha, Hd.
  destruct (transaction_Invalidate_one (db_storage c) tag K Hc HK)
    as (Ho & Hadd & _ & Hkeys).
  destruct (transaction_Invalidate _ [tag]) as [c1 deleted]. simpl in *.
  eexists. split; [done|]. simpl.
  split.
  - rewrite lookup_publish_map. unfold effective, transaction_Tag, Tag_step. simpl.
    rewrite inner_add_lookup, decide_True by done.
    rewrite materialize_lookup, decide_True by done.
    rewrite Hadd, Ho. simpl. by rewrite lookup_empty, HK.
  - intros k Hin. unfold db_Get, cacheView_Get. simpl.
    rewrite lookup_publish_map. unfold effective.
    change (items (additions (transaction_Tag c1 key [tag])) !! k) with
      (items (additions c1) !! k).
    change (items (deletions (transaction_Tag c1 key [tag])) !! k) with
      (items (deletions c1) !! k).
    rewrite Hadd. simpl. rewrite lookup_empty.
    destruct (Hkeys k Hin) as [[x ->] _]. done.
Qed.

(** ** Callbacks that only put and tag *)

Local Abbreviation wop := (@wop V).

Lemma trace_wbind {R S} (p : wprog R) (f : R → wprog S) :
  trace (wbind p f)
  = '(ops, r) ← trace p; '(ops', s) ← trace (f r); Some ((ops ++ ops')%list, s).
Proof.
  induction p as [r0| |key k IH|A tag fn a k IH|key val k IH|key tags k IH|tags k IH];
    simpl; try done.
  - by destruct (trace (f r0)) as [[ops' s]|].
  - rewrite IH. destruct (trace k) as [[ops r]|]; simpl; [|done].
    by destruct (trace (f r)) as [[ops' s]|].
  - rewrite IH. destruct (trace k) as [[ops r]|]; simpl; [|done].
    by destruct (trace (f r)) as [[ops' s]|].
Qed.

Lemma run_trace {R} (p : wprog R) ops r (c : transaction) :
  trace p = Some (ops, r) → run p c = Some (foldl apply_op c ops, r).
Proof.
  revert ops c.
  induction p as [r0| |key k IH|A tag fn a k IH|key val k IH|key tags k IH|tags k IH];
    intros ops c; simpl; try done.
  - by intros [= <- <-].
  - destruct (trace k) as [[ops' r']|]; simpl; [|done].
    intros [= <- <-]. simpl. by apply IH.
  - destruct (trace k) as [[ops' r']|]; simpl; [|done].
    intros [= <- <-]. simpl. by apply IH.
Qed.

Lemma wseq_cons (p : wprog unit) ps : wseq (p :: ps) = wbind p (λ _, wseq ps).
Proof. done. Qed.

Lemma trace_wseq_fmap {A} (f : A → wprog unit) (g : A → list wop) (l : list A) :
  (∀ a, a ∈ l → trace (f a) = Some (g a, tt)) →
  trace (wseq (f <$> l)) = Some (l ≫= g, tt).
Proof.
  induction l as [|a l IH]; intros Hall; [done|].
  rewrite fmap_cons, wseq_cons, trace_wbind, Hall by (apply elem_of_cons; by left).
  simpl. rewrite IH by (intros; apply Hall, elem_of_cons; by right). done.
Qed.

Lemma trace_wseq_app (l1 l2 : list (wprog unit)) ops1 ops2 :
  trace (wseq l1) = Some (ops1, tt) → trace (wseq l2) = Some (ops2, tt) →
  trace (wseq (l1 ++ l2)) = Some ((ops1 ++ ops2)%list, tt).
Proof.
  revert ops1. induction l1 as [|p l1 IH]; intros ops1 H1 H2.
  - simpl in H1. by injection H1 as <-.
  - rewrite <- app_comm_cons, wseq_cons, trace_wbind.
    rewrite wseq_cons, trace_wbind in H1.
    destruct (trace p) as [[o []]|]; simpl in *; [|done].
    destruct (trace (wseq l1)) as [[o1 []]|]; simpl in *; [|done].
    injection H1 as <-. rewrite (IH o1 eq_refl H2). simpl. by rewrite app_assoc.
Qed.

Lemma trace_wseq_bind {A} (h : A → list (wprog unit)) (g : A → list wop) (l : list A) :
  (∀ a, a ∈ l → trace (wseq (h a)) = Some (g a, tt)) →
  trace (wseq (l ≫= h)) = Some (l ≫= g, tt).
Proof.
  induction l as [|a l IH]; intros Hall; [done|].
  rewrite !bind_cons. apply trace_wseq_app.
  - apply Hall, elem_of_cons. by left.
  - apply IH. intros; apply Hall, elem_of_cons; by right.
Qed.

Lemma bind_singleton_fmap {A B} (f : A → B) (l : list A) :
  l ≫= (λ x, [f x]) = f <$> l.
Proof. induction l as [|x l IH]; [done|]. by rewrite bind_cons, IH. Qed.

Lemma bind_const_nil {A B} (l : list A) : l ≫= (λ _, @nil B) = [].
Proof. induction l as [|x l IH]; [done|]. by rewrite bind_cons, IH. Qed.

Lemma bind_bind {A B C} (h : A → list B) (g : B → list C) (l : list A) :
  (l ≫= h) ≫= g = l ≫= (λ x, h x ≫= g).
Proof.
  induction l as [|x l IH]; [done|]. by rewrite !bind_cons, bind_app, IH.
Qed.

Lemma concat_bind {A B} (g : A → list B) (ls : list (list A)) :
  concat ls ≫= g = ls ≫= (λ l, l ≫= g).
Proof.
  induction ls as [|l ls IH]; [done|].
  change (concat (l :: ls)) with (l ++ concat ls)%list.
  by rewrite bind_app, bind_cons, IH.
Qed.

(** *** What a sequence of puts and tags leaves in the overlay *)

Lemma apply_ops_frame (ops : list wop) (c : transaction) :
  origin (foldl apply_op c ops) = origin c
  ∧ deletions (foldl apply_op c ops) = deletions c.
Proof.
  revert c. induction ops as [|op ops IH]; intros c; [done|]. simpl.
  destruct (IH (apply_op c op)) as [-> ->].
  destruct op as [key val|key tags]; simpl; [done|].
  by destruct (transaction_Tag_frame c key tags) as (-> & -> & _).
Qed.

Lemma last_put_snoc (ops : list wop) op key :
  last_put (ops ++ [op]) key
  = match op with
    | OpPut k v => if decide (k = key) then Some v else last_put ops key
    | OpTag _ _ => last_put ops key
    end.
Proof. unfold last_put. by rewrite foldl_app. Qed.

Lemma last_put_app (ops1 ops2 : list wop) key :
  last_put (ops1 ++ ops2) key
  = match last_put ops2 key with
    | Some v => Some v
    | None => last_put ops1 key
    end.
Proof.
  induction ops2 as [|op ops2 IH] using rev_ind.
  - by rewrite app_nil_r.
  - rewrite app_assoc, !last_put_snoc, IH.
    destruct op as [k v|k tags]; [|done]. by case_decide.
Qed.

Lemma last_put_None (ops : list wop) key :
  (∀ v, OpPut key v ∉ ops) → last_put ops key = None.
Proof.
  induction ops as [|op ops IH] using rev_ind; intros Hno; [done|].
  rewrite last_put_snoc.
  assert (Hops : last_put ops key = None).
  { apply IH. intros v Hin. apply (Hno v), elem_of_app. by left. }
  destruct op as [k v|k tags]; [|done].
  case_decide as Hk; [|done]. subst k.
  exfalso. apply (Hno v), elem_of_app. right. by apply list_elem_of_singleton.
Qed.

Lemma apply_ops_items (ops : list wop) (c : transaction) key :
  items (additions (foldl apply_op c ops)) !! key
  = match last_put ops key with
    | Some v => Some v
    | None => items (additions c) !! key
    end.
Proof.
  induction ops as [|op ops IH] using rev_ind; [done|].
  rewrite foldl_app, last_put_snoc. simpl.
  destruct op as [k v|k tags]; simpl.
  - case_decide as Hk.
    + subst k. by rewrite lookup_insert_eq.
    + by rewrite lookup_insert_ne.
  - by destruct (transaction_Tag_frame (foldl apply_op c ops) k tags) as (_ & _ & ->).
Qed.

Lemma Tag_step_keeps_member key (c : transaction) tag' tag k :
  (∃ K, tagToKeys (additions c) !! tag = Some K ∧ k ∈ K) →
  ∃ K, tagToKeys (additions (Tag_step key c tag')) !! tag = Some K ∧ k ∈ K.
Proof.
  intros (K & HK & Hin). unfold Tag_step. simpl. rewrite inner_add_lookup.
  case_decide as Htag.
  - subst tag'. rewrite materialize_lookup, decide_True by done.
    rewrite HK. simpl. eexists. split; [done|]. by apply elem_of_union_r.
  - rewrite materialize_lookup, decide_False by done. eauto.
Qed.

Lemma apply_op_keeps_tagged (c : transaction) op tag k :
  (∃ K, tagToKeys (additions c) !! tag = Some K ∧ k ∈ K) →
  ∃ K, tagToKeys (additions (apply_op c op)) !! tag = Some K ∧ k ∈ K.
Proof.
  intros Hin. destruct op as [key val|key tags]; simpl; [done|].
  unfold transaction_Tag.
  set (c1 := set_additions c _).
  assert (H1 : ∃ K, tagToKeys (additions c1) !! tag = Some K ∧ k ∈ K) by done.
  clearbody c1. revert c1 H1.
  induction tags as [|t tags IH]; intros c1 H1; simpl; [done|].
  apply IH. by apply Tag_step_keeps_member.
Qed.

Lemma apply_ops_keeps_tagged (ops : list wop) (c : transaction) tag k :
  (∃ K, tagToKeys (additions c) !! tag = Some K ∧ k ∈ K) →
  ∃ K, tagToKeys (additions (foldl apply_op c ops)) !! tag = Some K ∧ k ∈ K.
Proof.
  revert c. induction ops as [|op ops IH]; intros c Hin; [done|].
  simpl. by apply IH, apply_op_keeps_tagged.
Qed.

Lemma apply_ops_tagged (ops : list wop) (c : transaction) key tags tag :
  OpTag key tags ∈ ops → tag ∈ tags →
  ∃ K, tagToKeys (additions (foldl apply_op c ops)) !! tag = Some K ∧ key ∈ K.
Proof.
  intros Hop Htag. apply list_elem_of_split in Hop as (l1 & l2 & ->).
  rewrite foldl_app. simpl. apply apply_ops_keeps_tagged.
  unfold transaction_Tag. by apply Tag_fold_tagged.
Qed.

Lemma apply_op_eff_member (c : transaction) op tag k :
  (∃ K, eff_t2k c tag = Some K ∧ k ∈ K) →
  ∃ K, eff_t2k (apply_op c op) tag = Some K ∧ k ∈ K.
Proof.
  intros (K & HK & Hin). destruct op as [key val|key tags]; simpl; [by exists K|].
  unfold transaction_Tag.
  set (c1 := set_additions c _).
  assert (HT : keyToTags (additions c1) !! key
               = Some (match keyToTags (additions c) !! key with
                       | Some x => x
                       | None => default ∅ (keyToTags (origin c) !! key)
                       end)).
  { subst c1. simpl. by rewrite materialize_lookup, decide_True. }
  destruct (Tag_fold_eff key tags c1 _ HT) as [_ Ht]. rewrite Ht.
  change (eff_t2k c1 tag) with (eff_t2k c tag). rewrite HK.
  case_decide; [|by exists K].
  eexists. split; [done|]. by apply elem_of_union_r.
Qed.

Lemma apply_ops_eff_member (ops : list wop) (c : transaction) tag k :
  (∃ K, eff_t2k c tag = Some K ∧ k ∈ K) →
  ∃ K, eff_t2k (foldl apply_op c ops) tag = Some K ∧ k ∈ K.
Proof.
  revert c. induction ops as [|op ops IH]; intros c Hin; [done|].
  simpl. by apply IH, apply_op_eff_member.
Qed.

(** ** Collections *)

Lemma append_inv_head (s a b : string) : (s ++ a = s ++ b)%string → a = b.
Proof.
  induction s as [|ch s IH]; [by rewrite !append_nil_l|].
  rewrite !append_cons. intros [= H]. by apply IH.
Qed.

Lemma append_char_inj (a b : string) ch :
  (a ++ String ch "" = b ++ String ch "")%string → a = b.
Proof.
  revert b. induction a as [|x a IH]; intros [|y b].
  - done.
  - rewrite append_nil_l, append_cons. intros [= _ H].
    destruct b; rewrite ?append_nil_l, ?append_cons in H; discriminate.
  - rewrite append_nil_l, append_cons. intros [= _ H].
    destruct a; rewrite ?append_nil_l, ?append_cons in H; discriminate.
  - rewrite !append_cons. intros [= -> H]. f_equal. by apply IH.
Qed.

Lemma mkKey_inj_val kind' attr v v' :
  Codec.mkKey kind' attr v = Codec.mkKey kind' attr v' → v = v'.
Proof.
  rewrite !mkKey_unfold. intros H%append_inv_head.
  injection H as H. apply append_inv_head in H. injection H as H.
  by apply append_char_inj in H.
Qed.

(** *** Load *)

Lemma trace_indexer {T} (c : Collection T) pkref (items' : list T)
    (fn : string → T → wprog unit) (g : string → T → list wop) :
  ref (col_pk c) = Some pkref →
  (∀ key item, trace (fn key item) = Some (g key item, tt)) →
  trace (Collection_indexer c items' fn)
  = Some (item ← items'; v ← pkref item;
          g (Codec.mkKey (kind c) (ikey (col_pk c)) v) item, tt).
Proof.
  intros Hpk Hfn. unfold Collection_indexer. rewrite Hpk.
  apply trace_wseq_bind. intros item _.
  apply (trace_wseq_fmap
           (λ v, fn (Codec.mkKey (kind c) (ikey (col_pk c)) v) item)
           (λ v, g (Codec.mkKey (kind c) (ikey (col_pk c)) v) item)).
  intros v _. apply Hfn.
Qed.

Lemma trace_tagItemWithIndexes {T} (c : Collection T) key (item : T) :
  Forall (λ idx, is_Some (ref idx)) (keys c) →
  trace (Collection_tagItemWithIndexes c key item)
  = Some (idx ← keys c;
          (λ v, OpTag key [Codec.mkKey (kind c) (ikey idx) v])
            <$> default (λ _, []) (ref idx) item, tt).
Proof.
  intros Hall. unfold Collection_tagItemWithIndexes.
  apply trace_wseq_fmap. intros idx Hin.
  rewrite Forall_forall in Hall. destruct (Hall idx Hin) as [r ->]. simpl.
  rewrite <- (bind_singleton_fmap
                (λ v, OpTag key [Codec.mkKey (kind c) (ikey idx) v])).
  by apply (trace_wseq_fmap
              (λ v, CallTag key [Codec.mkKey (kind c) (ikey idx) v] (Return tt))).
Qed.

Lemma trace_loadItem_hooks {T} `{!Dyn T} (c : Collection T) key (item : T)
    (h : inferFn T → list wop) :
  Forall (λ idx, is_Some (ref idx)) (keys c) →
  (∀ infer, infer ∈ inferences c → trace (infer item) = Some (h infer, tt)) →
  trace (Collection_loadItem c key item)
  = Some ((loadItem_ops c key item ++ (inferences c ≫= h))%list, tt).
Proof.
  intros Hall Hinf. unfold Collection_loadItem, loadItem_ops. simpl.
  rewrite trace_wbind, trace_tagItemWithIndexes by done. simpl.
  by rewrite (trace_wseq_fmap (λ infer, infer item) h).
Qed.

Lemma trace_loadItem {T} `{!Dyn T} (c : Collection T) key (item : T) :
  Forall (λ idx, is_Some (ref idx)) (keys c) →
  inferences c = [] →
  trace (Collection_loadItem c key item) = Some (loadItem_ops c key item, tt).
Proof.
  intros Hall Hinf.
  rewrite (trace_loadItem_hooks c key item (λ _, [])); [|done|].
  - by rewrite Hinf, app_nil_r.
  - rewrite Hinf. by intros infer ?%elem_of_nil.
Qed.

Lemma Load_ops_unfold {T} `{!Dyn T} (c : Collection T) pkref (batches : list (list T)) :
  Load_ops c pkref batches
  = items' ← batches; item ← items'; v ← pkref item;
    loadItem_ops c (Codec.mkKey (kind c) (ikey (col_pk c)) v) item.
Proof.
  unfold Load_ops, Load_pairs. rewrite bind_bind, concat_bind.
  apply list_bind_ext; [|done]. intros items'.
  apply list_bind_ext; [|done]. intros item.
  by rewrite list_fmap_bind.
Qed.

Lemma trace_Load_hooks {T} `{!Dyn T} (c : Collection T) x pkref w batches w'
    (h : inferFn T → T → list wop) :
  extract c = Some x →
  x w = (batches, w') →
  ref (col_pk c) = Some pkref →
  Forall (λ idx, is_Some (ref idx)) (keys c) →
  (∀ infer item, infer ∈ inferences c → trace (infer item) = Some (h infer item, tt)) →
  trace (Collection_Load c w)
  = Some ('(v, item) ← Load_pairs pkref batches;
          (loadItem_ops c (Codec.mkKey (kind c) (ikey (col_pk c)) v) item
           ++ (infer ← inferences c; h infer item))%list, w').
Proof.
  intros Hx Hxw Hpk Hall Hinf. unfold Collection_Load. rewrite Hx, Hxw.
  rewrite trace_wbind.
  rewrite (trace_wseq_fmap _
             (λ items', item ← items'; v ← pkref item;
                (loadItem_ops c (Codec.mkKey (kind c) (ikey (col_pk c)) v) item
                 ++ (infer ← inferences c; h infer item))%list)).
  - simpl. rewrite app_nil_r. f_equal. f_equal.
    unfold Load_pairs. rewrite bind_bind, concat_bind.
    apply list_bind_ext; [|done]. intros items'.
    apply list_bind_ext; [|done]. intros item.
    by rewrite list_fmap_bind.
  - intros items' _.
    apply (trace_indexer c pkref items' _
             (λ key item, (loadItem_ops c key item
                           ++ (infer ← inferences c; h infer item))%list)); [done|].
    intros key item. apply trace_loadItem_hooks; [done|].
    intros infer Hin. by apply Hinf.
Qed.

Lemma trace_Load {T} `{!Dyn T} (c : Collection T) x pkref w batches w' :
  extract c = Some x →
  x w = (batches, w') →
  ref (col_pk c) = Some pkref →
  Forall (λ idx, is_Some (ref idx)) (keys c) →
  inferences c = [] →
  trace (Collection_Load c w) = Some (Load_ops c pkref batches, w').
Proof.
  intros Hx Hxw Hpk Hall Hinf.
  rewrite (trace_Load_hooks c x pkref w batches w' (λ _ _, [])); [|done..|].
  - rewrite Hinf. unfold Load_ops. f_equal. f_equal.
    apply list_bind_ext; [|done]. intros [v item]. by rewrite app_nil_r.
  - rewrite Hinf. by intros infer item ?%elem_of_nil.
Qed.

(** X15. What [Load] does with the writer, for a collection with an extractor
    and a primary index, whose secondary indexes all have an index
    function, and without inferences: it never panics, and for each pair
    of an item and a value its primary index yields, in the order the
    extractor hands the items over, it puts the item under the primary
    key, tags the key with the kind, and tags it once per value of each
    secondary index; it calls nothing else. *)
Theorem Load_writes {T} `{!Dyn T} (c : Collection T) x pkref w batches w'
    (t : transaction) :
  extract c = Some x →
  x w = (batches, w') →
  ref (col_pk c) = Some pkref →
  Forall (λ idx, is_Some (ref idx)) (keys c) →
  inferences c = [] →
  run (Collection_Load c w) t
  = Some (foldl apply_op t (Load_ops c pkref batches), w').
Proof.
  intros Hx Hxw Hpk Hall Hinf. apply run_trace. by eapply trace_Load.
Qed.

(** X16. Without a primary index [Load] runs the extractor and then loads
    nothing: the overlay is as before. *)
Theorem Load_without_primary_index {T} `{!Dyn T} (c : Collection T) x w batches w'
    (t : transaction) :
  extract c = Some x →
  x w = (batches, w') →
  ref (col_pk c) = None →
  run (Collection_Load c w) t = Some (t, w').
Proof.
  intros Hx Hxw Hpk. unfold Collection_Load. rewrite Hx, Hxw.
  assert (Htr : trace (wseq ((λ items', Collection_indexer c items'
                                          (Collection_loadItem c)) <$> batches))
                = Some ([], tt)).
  { rewrite (trace_wseq_fmap _ (λ _, [])).
    - by rewrite bind_const_nil.
    - intros items' _. unfold Collection_indexer. by rewrite Hpk. }
  rewrite run_wbind, (run_trace _ _ _ _ Htr). done.
Qed.

Lemma last_put_loadItem_ops {T} `{!Dyn T} (c : Collection T) key (item : T) key' :
  last_put (loadItem_ops c key item) key'
  = if decide (key = key') then Some (to_any item) else None.
Proof.
  unfold loadItem_ops.
  change (OpPut key (to_any item) :: OpTag key [kind c] :: ?l)
    with ([OpPut key (to_any item); OpTag key [kind c]] ++ l)%list.
  rewrite last_put_app, last_put_None.
  - unfold last_put. simpl. by case_decide.
  - intros v (idx & Hv & _)%list_elem_of_bind.
    by apply list_elem_of_fmap in Hv as (? & ? & _).
Qed.

Lemma last_put_pairs {T} `{!Dyn T} (c : Collection T) (l : list (string * T)) v :
  v ∉ l.*1 →
  last_put ('(v', item) ← l;
            loadItem_ops c (Codec.mkKey (kind c) (ikey (col_pk c)) v') item)
           (Codec.mkKey (kind c) (ikey (col_pk c)) v) = None.
Proof.
  induction l as [|[v' item] l IH]; intros Hnin; [done|].
  rewrite bind_cons, last_put_app, IH.
  - rewrite last_put_loadItem_ops, decide_False; [done|].
    intros ->%mkKey_inj_val. apply Hnin. simpl. apply elem_of_cons. by left.
  - intros Hin. apply Hnin. simpl. apply elem_of_cons. by right.
Qed.

Lemma last_put_Load_ops {T} `{!Dyn T} (c : Collection T) pkref batches l1 v item l2 :
  Load_pairs pkref batches = (l1 ++ (v, item) :: l2)%list →
  v ∉ l2.*1 →
  last_put (Load_ops c pkref batches) (Codec.mkKey (kind c) (ikey (col_pk c)) v)
  = Some (to_any item).
Proof.
  intros Hl Hnin. unfold Load_ops. rewrite Hl, bind_app, bind_cons, !last_put_app.
  rewrite last_put_pairs by done.
  by rewrite last_put_loadItem_ops, decide_True.
Qed.

Lemma Collection_Invalidate_run {T} `{!Dyn T} (c : Collection T) (d : db) w ops w' :
  overlay_empty d →
  trace (Collection_Load c w) = Some (ops, w') →
  let c1 := (transaction_Invalidate
               (Transaction (db_storage d) empty_storage empty_storage) [kind c]).1 in
  let s' := publish (db_storage d) (foldl apply_op c1 ops) in
  Collection_Invalidate c d w
  = Some (DB s' (Transaction s' empty_storage empty_storage), w').
Proof.
  intros [Ha Hd] Htr. simpl.
  unfold Collection_Invalidate, db_Update. simpl. rewrite Ha, Hd.
  destruct (transaction_Invalidate _ [kind c]) as [c1 deleted]. simpl.
  by rewrite run_wbind, (run_trace _ _ _ _ Htr).
Qed.

Lemma Collection_Invalidate_unfold {T} `{!Dyn T} (c : Collection T) x pkref (d : db)
    w batches w' :
  overlay_empty d →
  extract c = Some x →
  x w = (batches, w') →
  ref (col_pk c) = Some pkref →
  Forall (λ idx, is_Some (ref idx)) (keys c) →
  inferences c = [] →
  let c1 := (transaction_Invalidate
               (Transaction (db_storage d) empty_storage empty_storage) [kind c]).1 in
  let s' := publish (db_storage d) (foldl apply_op c1 (Load_ops c pkref batches)) in
  Collection_Invalidate c d w
  = Some (DB s' (Transaction s' empty_storage empty_storage), w').
Proof.
  intros Hempty Hx Hxw Hpk Hall Hinf.
  apply Collection_Invalidate_run; [done|]. by eapply trace_Load.
Qed.

(** X17. Reloading a collection and reading it back by primary key: after
    [Invalidate], the getter of the primary index, at a value the primary
    index yielded during the load, answers the item loaded last with that
    value, and so does a [Scalar] made for that value. *)
Theorem Invalidate_then_GetBy {T} `{!Dyn T} (c : Collection T) x pkref (d : db)
    w batches w' :
  overlay_empty d →
  extract c = Some x →
  x w = (batches, w') →
  ref (col_pk c) = Some pkref →
  Forall (λ idx, is_Some (ref idx)) (keys c) →
  inferences c = [] →
  ∃ d', Collection_Invalidate c d w = Some (d', w')
    ∧ overlay_empty d'
    ∧ ∀ l1 v item l2,
        Load_pairs pkref batches = (l1 ++ (v, item) :: l2)%list →
        v ∉ l2.*1 →
        Collection_GetBy c (ikey (col_pk c)) d' v = (Some item, true)
        ∧ Collection_Scalar c (ikey (col_pk c)) v d' = (Some item, true).
Proof.
  intros Hempty Hx Hxw Hpk Hall Hinf.
  eexists. split; [by eapply Collection_Invalidate_unfold|].
  split; [by split|].
  intros l1 v item l2 Hl Hnin.
  set (c1 := (transaction_Invalidate _ [kind c]).1).
  assert (Hget : db_Get
            (DB (publish (db_storage d) (foldl apply_op c1 (Load_ops c pkref batches)))
               (Transaction
                  (publish (db_storage d) (foldl apply_op c1 (Load_ops c pkref batches)))
                  empty_storage empty_storage))
            (Codec.mkKey (kind c) (ikey (col_pk c)) v) = (to_any item, true)).
  { unfold db_Get, cacheView_Get. simpl. rewrite lookup_publish_map. unfold effective.
    by rewrite apply_ops_items, (last_put_Load_ops c pkref batches l1 v item l2). }
  unfold Collection_GetBy, Collection_Scalar, Collection_getter.
  rewrite String.eqb_refl. simpl. rewrite Hget. simpl.
  by rewrite assert_to_any.
Qed.

(** X18. An item that the extractor no longer hands over is gone after
    [Invalidate]: the getter of the primary index answers nothing at a
    value whose key was listed under the kind and which the primary index
    did not yield during the reload. *)
Theorem Invalidate_drops_missing_items {T} `{!Dyn T} (c : Collection T) x pkref
    (d d' : db) w batches w' w'' (K : gset string) v :
  range_complete →
  overlay_empty d →
  extract c = Some x →
  x w = (batches, w') →
  ref (col_pk c) = Some pkref →
  Forall (λ idx, is_Some (ref idx)) (keys c) →
  inferences c = [] →
  tagToKeys (db_storage d) !! kind c = Some K →
  Codec.mkKey (kind c) (ikey (col_pk c)) v ∈ K →
  v ∉ (Load_pairs pkref batches).*1 →
  Collection_Invalidate c d w = Some (d', w'') →
  Collection_GetBy c (ikey (col_pk c)) d' v = (None, false).
Proof.
  intros Hc Hempty Hx Hxw Hpk Hall Hinf HK Hin Hnin.
  rewrite (Collection_Invalidate_unfold c x pkref d w batches w') by done.
  intros [= <- _].
  destruct (transaction_Invalidate_one (db_storage d) (kind c) K Hc HK)
    as (_ & Hadd & _ & Hkeys).
  set (c1 := (transaction_Invalidate _ [kind c]).1) in *.
  destruct (Hkeys _ Hin) as [[m Hm] _].
  destruct (apply_ops_frame (Load_ops c pkref batches) c1) as [_ Hdel].
  unfold Collection_GetBy, Collection_getter. rewrite String.eqb_refl. simpl.
  unfold db_Get, cacheView_Get. simpl. rewrite lookup_publish_map. unfold effective.
  rewrite apply_ops_items, Hdel, Hm, Hadd. unfold Load_ops.
  rewrite last_put_pairs by done. simpl. by rewrite lookup_empty.
Qed.

(** X19. A reload keeps listing the keys it deleted: when [Invalidate] loads
    at least one item, every key that was listed under the kind before is
    still handed to the callback of an [Iter] over the kind afterwards,
    also a key whose item is gone. *)
Theorem Invalidate_keeps_stale_keys {T} `{!Dyn T} (c : Collection T) x pkref
    (d d' : db) w batches w' w'' (K : gset string) k :
  range_complete →
  overlay_empty d →
  extract c = Some x →
  x w = (batches, w') →
  ref (col_pk c) = Some pkref →
  Forall (λ idx, is_Some (ref idx)) (keys c) →
  inferences c = [] →
  tagToKeys (db_storage d) !! kind c = Some K →
  k ∈ K →
  Load_pairs pkref batches ≠ [] →
  Collection_Invalidate c d w = Some (d', w'') →
  k ∈ visited_keys d' (kind c).
Proof.
  intros Hc Hempty Hx Hxw Hpk Hall Hinf HK Hin Hne.
  rewrite (Collection_Invalidate_unfold c x pkref d w batches w') by done.
  intros [= <- _].
  destruct (transaction_Invalidate_one (db_storage d) (kind c) K Hc HK)
    as (Ho & Hadd & _ & _).
  set (c1 := (transaction_Invalidate _ [kind c]).1) in *.
  assert (Htagged : ∃ K', tagToKeys (additions
                            (foldl apply_op c1 (Load_ops c pkref batches))) !! kind c
                          = Some K' ∧ k ∈ K').
  { unfold Load_ops. destruct (Load_pairs pkref batches) as [|[v item] l]; [done|].
    rewrite bind_cons. unfold loadItem_ops at 1.
    rewrite <- !app_comm_cons. simpl foldl at 1.
    apply apply_ops_keeps_tagged.
    unfold transaction_Tag, Tag_step. simpl.
    rewrite inner_add_lookup, decide_True by done.
    rewrite materialize_lookup, decide_True by done.
    rewrite Hadd, Ho. simpl. rewrite lookup_empty, HK. simpl.
    eexists. split; [done|]. by apply elem_of_union_r. }
  destruct Htagged as (K' & HK' & Hin').
  unfold visited_keys, db_Iter, cacheView_Iter. simpl.
  rewrite lookup_publish_map. unfold effective. rewrite HK', visited_loop. simpl.
  by apply Hc.
Qed.

(** X29. A reload keeps the stale entries of a secondary index: when some
    item of the reload yields a value for a secondary index, every key
    that was listed under the tag of that value before the reload is
    still handed over by an iteration of the tag afterwards, also a key
    whose item no longer yields that value. *)
Theorem Invalidate_keeps_stale_index_entries {T} `{!Dyn T} (c : Collection T) x pkref
    (d d' : db) w batches w' w'' idx r v item val (K : gset string) k :
  range_complete →
  overlay_empty d →
  extract c = Some x →
  x w = (batches, w') →
  ref (col_pk c) = Some pkref →
  Forall (λ idx, is_Some (ref idx)) (keys c) →
  inferences c = [] →
  idx ∈ keys c →
  ref idx = Some r →
  (v, item) ∈ Load_pairs pkref batches →
  val ∈ r item →
  tagToKeys (db_storage d) !! Codec.mkKey (kind c) (ikey idx) val = Some K →
  k ∈ K →
  Collection_Invalidate c d w = Some (d', w'') →
  k ∈ visited_keys d' (Codec.mkKey (kind c) (ikey idx) val).
Proof.
  intros Hc Hempty Hx Hxw Hpk Hall Hinf Hidx Hr Hpair Hval HK Hin.
  rewrite (Collection_Invalidate_unfold c x pkref d w batches w') by done.
  intros [= <- _].
  set (tag := Codec.mkKey (kind c) (ikey idx) val) in *.
  pose proof (transaction_Invalidate_deletes_only
                (Transaction (db_storage d) empty_storage empty_storage) [kind c])
    as (Ho & _ & _ & Hsub & _).
  set (c1 := (transaction_Invalidate _ [kind c]).1) in *.
  set (ops := Load_ops c pkref batches).
  assert (Hadd1 : tagToKeys (additions c1) !! tag = None).
  { destruct (tagToKeys (additions c1) !! tag) as [K'|] eqn:HK'; [|done].
    destruct (Hsub tag K' HK') as (K0 & HK0 & _). simpl in HK0.
    by rewrite lookup_empty in HK0. }
  assert (Heff : ∃ K', eff_t2k (foldl apply_op c1 ops) tag = Some K' ∧ k ∈ K').
  { apply apply_ops_eff_member. exists K. split; [|done].
    unfold eff_t2k. rewrite Hadd1, Ho. exact HK. }
  assert (Hop : OpTag (Codec.mkKey (kind c) (ikey (col_pk c)) v) [tag] ∈ ops).
  { subst ops. unfold Load_ops. apply list_elem_of_bind. exists (v, item).
    split; [|done]. unfold loadItem_ops.
    apply elem_of_cons. right. apply elem_of_cons. right.
    apply list_elem_of_bind. exists idx. split; [|done].
    rewrite Hr. simpl. apply list_elem_of_fmap. by exists val. }
  destruct (apply_ops_tagged ops c1 _ _ tag Hop) as (K1 & HK1 & _);
    [apply elem_of_cons; by left|].
  destruct Heff as (K' & HK' & Hin'). unfold eff_t2k in HK'. rewrite HK1 in HK'.
  injection HK' as <-.
  unfold visited_keys, db_Iter, cacheView_Iter. simpl.
  rewrite lookup_publish_map. unfold effective. rewrite HK1, visited_loop. simpl.
  by apply Hc.
Qed.

(** *** Queries *)

Local Abbreviation query_visit filters :=
  (λ '(res, err) key (getVal : unit → any V * bool),
     let '(item, ok) := getVal tt in
     if negb ok then ((res, Some (ErrRetrieve key)), false)
     else
       match assert_type item with
       | None => ((res, Some (ErrExpectedType key)), false)
       | Some t =>
           if forallb (λ f, f t) filters then (((res ++ [t])%list, err), true)
           else ((res, err), true)
       end).

Lemma Query_loop {T} `{!Dyn T} (s : storage) (filters : list (T → bool)) ks
    (res0 res : list T) err :
  cacheView_Iter_loop s (query_visit filters) ks (res0, None) = (res, err) →
  (err = None ↔ ∀ k, k ∈ ks → is_Some (stored (T:=T) s k))
  ∧ (∀ t, t ∈ res →
       t ∈ res0 ∨ (forallb (λ f, f t) filters = true
                   ∧ ∃ k, k ∈ ks ∧ stored s k = Some t))
  ∧ (err = None → ∀ k t, k ∈ ks → stored s k = Some t →
       forallb (λ f, f t) filters = true → t ∈ res)
  ∧ (∀ t, t ∈ res0 → t ∈ res).
Proof.
  revert res0. induction ks as [|k ks IH]; intros res0; simpl.
  - intros [= <- <-]. split; [|split; [|split]].
    + split; [by intros _ k ?%elem_of_nil|done].
    + auto.
    + by intros _ k t ?%elem_of_nil.
    + auto.
  - unfold cacheView_Get.
    destruct (items s !! k) as [v|] eqn:Hv; simpl.
    + destruct (assert_type v) as [t0|] eqn:Ht0.
      * assert (Hk : stored (T:=T) s k = Some t0) by (unfold stored; by rewrite Hv).
        destruct (forallb (λ f, f t0) filters) eqn:Hf; intros Hloop;
          destruct (IH _ Hloop) as (IH1 & IH2 & IH3 & IH4).
        -- split; [|split; [|split]].
           ++ rewrite IH1. split.
              ** intros Hall k' [->|?]%elem_of_cons; [by rewrite Hk|by apply Hall].
              ** intros Hall k' ?. apply Hall, elem_of_cons. by right.
           ++ intros t Hin. destruct (IH2 t Hin) as [Hin0|(Hp & k' & Hk' & Hs)].
              ** apply elem_of_app in Hin0 as [?| ->%list_elem_of_singleton]; [by left|].
                 right. split; [done|]. exists k. split; [apply elem_of_cons; by left|done].
              ** right. split; [done|]. exists k'. split; [apply elem_of_cons; by right|done].
           ++ intros He k' t [->|Hin]%elem_of_cons Hs Hp.
              ** rewrite Hk in Hs. injection Hs as <-.
                 apply IH4, elem_of_app. right. by apply list_elem_of_singleton.
              ** by eapply IH3.
           ++ intros t Hin. apply IH4, elem_of_app. by left.
        -- split; [|split; [|split]].
           ++ rewrite IH1. split.
              ** intros Hall k' [->|?]%elem_of_cons; [by rewrite Hk|by apply Hall].
              ** intros Hall k' ?. apply Hall, elem_of_cons. by right.
           ++ intros t Hin. destruct (IH2 t Hin) as [Hin0|(Hp & k' & Hk' & Hs)];
                [by left|].
              right. split; [done|]. exists k'. split; [apply elem_of_cons; by right|done].
           ++ intros He k' t [->|Hin]%elem_of_cons Hs Hp.
              ** rewrite Hk in Hs. injection Hs as <-. congruence.
              ** by eapply IH3.
           ++ done.
      * intros [= <- <-]. split; [|split; [|split]].
        -- split; [done|]. intros Hall.
           destruct (Hall k) as [t Ht]; [apply elem_of_cons; by left|].
           unfold stored in Ht. rewrite Hv in Ht. simpl in Ht. congruence.
        -- auto.
        -- done.
        -- auto.
    + intros [= <- <-]. split; [|split; [|split]].
      * split; [done|]. intros Hall.
        destruct (Hall k) as [t Ht]; [apply elem_of_cons; by left|].
        unfold stored in Ht. by rewrite Hv in Ht.
      * auto.
      * done.
      * auto.
Qed.

(** X20. What a query answers. The query of an inferred collection iterates
    the tag of the value under the base kind; its error is nil exactly
    when every key listed under the tag holds an item of the queried
    type; every item of the result is stored under a key listed under the
    tag and passes every filter; and without an error the result holds
    every such item. The query that [MapBy] returns is the same query over
    the kind of its collection. *)
Theorem Query_answers {T} `{!Dyn T} (kind' key val : string) (d : db)
    (filters : list (T → bool)) :
  range_complete → range_sound →
  let tag := Codec.mkKey kind' key val in
  let res := (Infer_query kind' key d val filters).1 in
  let err := (Infer_query kind' key d val filters).2 in
  (err = None ↔
     ∀ K k, tagToKeys (db_storage d) !! tag = Some K → k ∈ K →
       is_Some (stored (T:=T) (db_storage d) k))
  ∧ (∀ t, t ∈ res →
       forallb (λ f, f t) filters = true
       ∧ ∃ K k, tagToKeys (db_storage d) !! tag = Some K ∧ k ∈ K
                ∧ stored (db_storage d) k = Some t)
  ∧ (err = None →
     ∀ K k t, tagToKeys (db_storage d) !! tag = Some K → k ∈ K →
       stored (db_storage d) k = Some t →
       forallb (λ f, f t) filters = true → t ∈ res)
  ∧ ∀ (c : Collection T) r,
      kind c = kind' →
      (Collection_MapBy c key r).2 d val filters = Infer_query kind' key d val filters.
Proof.
  intros Hc Hs tag res err. subst res err.
  unfold Infer_query, db_Iter, cacheView_Iter. fold tag.
  destruct (tagToKeys (db_storage d) !! tag) as [K|] eqn:HK.
  - destruct (cacheView_Iter_loop _ _ (range K) _) as [res err] eqn:Hloop.
    destruct (Query_loop _ _ _ _ _ _ Hloop) as (H1 & H2 & H3 & _). simpl.
    split; [|split; [|split]].
    + rewrite H1. split.
      * intros Hall K' k [= <-] Hin. by apply Hall, Hc.
      * intros Hall k Hin. apply (Hall K); [done|]. by apply Hs.
    + intros t Hin. destruct (H2 t Hin) as [?%elem_of_nil|(Hp & k & Hk & Hst)]; [done|].
      split; [done|]. exists K, k. split; [done|]. split; [by apply Hs|done].
    + intros He K' k t [= <-] Hin Hst Hp. apply (H3 He k t); [by apply Hc|done..].
    + intros c r <-. unfold Collection_MapBy, db_Iter, cacheView_Iter. simpl.
      fold tag. by rewrite HK.
  - simpl. split; [|split; [|split]].
    + split; [done|done].
    + by intros t ?%elem_of_nil.
    + done.
    + intros c r <-. unfold Collection_MapBy, db_Iter, cacheView_Iter. simpl.
      fold tag. by rewrite HK.
Qed.

(** *** Getters of secondary indexes *)

(** X21. The getter of a secondary index looks at one key only, the first
    that the iteration over the tag of the value hands over: it answers
    the typed item stored under that key, and nothing when that key holds
    none, whatever the other keys of the tag hold. So an item it answers
    is stored under a key of the tag, and it answers nothing for an
    unknown tag. The getter that the method [AdditionalKey] returns is
    this getter. *)
Theorem secondary_getter_answers {T} `{!Dyn T} (c : Collection T) (key : string)
    (d : db) (val : string) :
  range_sound →
  let tag := Codec.mkKey (kind c) key val in
  (∀ K k rest, tagToKeys (db_storage d) !! tag = Some K → range K = k :: rest →
     Collection_getter c key false d val
     = match stored (db_storage d) k with
       | Some t => (Some t, true)
       | None => (None, false)
       end)
  ∧ (∀ t, Collection_getter c key false d val = (Some t, true) →
       ∃ K k, tagToKeys (db_storage d) !! tag = Some K ∧ k ∈ K
              ∧ stored (db_storage d) k = Some t)
  ∧ (tagToKeys (db_storage d) !! tag = None →
     Collection_getter c key false d val = (None, false))
  ∧ ∀ value, (Collection_AdditionalKey c key value).2 d val
             = Collection_getter c key false d val.
Proof.
  intros Hs tag.
  assert (Hfirst : ∀ K k rest,
             tagToKeys (db_storage d) !! tag = Some K → range K = k :: rest →
             Collection_getter c key false d val
             = match stored (db_storage d) k with
               | Some t => (Some t, true)
               | None => (None, false)
               end).
  { intros K k rest HK Hr. unfold Collection_getter, db_Iter, cacheView_Iter. simpl.
    fold tag. rewrite HK, Hr. simpl. unfold cacheView_Get, stored.
    destruct (items (db_storage d) !! k) as [v|]; simpl; [|done].
    by destruct (assert_type v). }
  assert (Hnone : ∀ K, tagToKeys (db_storage d) !! tag = Some K → range K = [] →
                       Collection_getter c key false d val = (None, false)).
  { intros K HK Hr. unfold Collection_getter, db_Iter, cacheView_Iter. simpl.
    fold tag. by rewrite HK, Hr. }
  split; [exact Hfirst|]. split; [|split].
  - intros t Hget.
    destruct (tagToKeys (db_storage d) !! tag) as [K|] eqn:HK.
    + destruct (range K) as [|k rest] eqn:Hr.
      * rewrite (Hnone K eq_refl Hr) in Hget. discriminate.
      * rewrite (Hfirst K k rest eq_refl Hr) in Hget.
        exists K, k. split; [done|]. split.
        -- apply Hs. rewrite Hr. apply elem_of_cons. by left.
        -- destruct (stored (db_storage d) k); [|discriminate]. by injection Hget as ->.
    + revert Hget. unfold Collection_getter, db_Iter, cacheView_Iter. simpl.
      fold tag. by rewrite HK.
  - intros HK. unfold Collection_getter, db_Iter, cacheView_Iter. simpl.
    fold tag. by rewrite HK.
  - intros value. unfold Collection_AdditionalKey, Collection_index, addIndex.
    by destruct (existsb _ (keys c)).
Qed.

(** *** Scan *)

Local Abbreviation collect :=
  (λ acc t, ((acc ++ [t])%list, true)).

Local Abbreviation scanned c s filters k t :=
  ((∃ kind' v, Codec.parseKey k = Some (kind', ikey (col_pk c), v, true))
   ∧ stored s k = Some t
   ∧ forallb (λ f, f t) filters = true).

Lemma Scan_visit_step {T} `{!Dyn T} (c : Collection T) (s : storage)
    (filters : list (T → bool)) (l0 : list T) k r :
  Codec.parseKey k = Some r →
  ∃ new,
    Scan_visit c collect filters (Some l0) k (λ _, cacheView_Get s k)
    = (Some (l0 ++ new)%list, true)
    ∧ ∀ t, t ∈ new ↔ scanned c s filters k t.
Proof.
  intros Hp.
  assert (Hsc : ∀ t, scanned c s filters k t
                     ↔ (∃ kind' v, r = (kind', ikey (col_pk c), v, true))
                       ∧ stored s k = Some t
                       ∧ forallb (λ f, f t) filters = true).
  { intros t. rewrite Hp.
    split; intros ((kind' & v & He) & ?); (split; [exists kind', v; congruence|done]). }
  cut (∃ new,
         Scan_visit c collect filters (Some l0) k (λ _, cacheView_Get s k)
         = (Some (l0 ++ new)%list, true)
         ∧ ∀ t, t ∈ new ↔ (∃ kind' v, r = (kind', ikey (col_pk c), v, true))
                          ∧ stored s k = Some t
                          ∧ forallb (λ f, f t) filters = true).
  { intros (new & ? & Hn). exists new. split; [done|]. intros t. by rewrite Hsc. }
  clear Hsc. unfold Scan_visit. rewrite Hp. clear Hp.
  destruct r as [[[kd key] v] ok].
  assert (Hskip : (ok = false ∨ key ≠ ikey (col_pk c)) →
                  ∀ t, t ∈ [] ↔ (∃ kind' v0, (kd, key, v, ok) = (kind', ikey (col_pk c), v0, true))
                                ∧ stored s k = Some t
                                ∧ forallb (λ f, f t) filters = true).
  { intros Hno t. split; [by intros ?%elem_of_nil|].
    intros [(kind' & v' & He) _]. injection He as _ Hkey _ Hok.
    destruct Hno; congruence. }
  destruct ok; simpl.
  - destruct (String.eqb key (ikey (col_pk c))) eqn:He; simpl.
    + apply String.eqb_eq in He. subst key.
      assert (Hnone : stored (T:=T) s k = None →
                ∀ t, t ∈ [] ↔ (∃ kind' v0, (kd, ikey (col_pk c), v, true)
                                           = (kind', ikey (col_pk c), v0, true))
                              ∧ stored s k = Some t
                              ∧ forallb (λ f, f t) filters = true).
      { intros Hst t. split; [by intros ?%elem_of_nil|].
        intros (_ & Hst' & _). congruence. }
      unfold cacheView_Get.
      destruct (items s !! k) as [x|] eqn:Hx; simpl.
      * destruct (assert_type x) as [t0|] eqn:Ht0.
        -- assert (Hst : stored (T:=T) s k = Some t0) by (unfold stored; by rewrite Hx).
           destruct (forallb (λ f, f t0) filters) eqn:Hf.
           ++ exists [t0]. split; [done|]. intros t. rewrite list_elem_of_singleton.
              split.
              ** intros ->. split; [by exists kd, v|done].
              ** intros (_ & Hst' & _). congruence.
           ++ exists []. split; [by rewrite app_nil_r|].
              intros t. split; [by intros ?%elem_of_nil|].
              intros (_ & Hst' & Hf'). rewrite Hst in Hst'. injection Hst' as <-.
              by rewrite Hf in Hf'.
        -- exists []. split; [by rewrite app_nil_r|]. apply Hnone.
           unfold stored. by rewrite Hx.
      * exists []. split; [by rewrite app_nil_r|]. apply Hnone.
        unfold stored. by rewrite Hx.
    + exists []. split; [by rewrite app_nil_r|]. apply Hskip. right.
      by apply String.eqb_neq.
  - exists []. split; [by rewrite app_nil_r|]. apply Hskip. by left.
Qed.

Lemma cacheView_Iter_loop_cons {A} (s : storage) (fn : visitFn A) k ks a :
  cacheView_Iter_loop s fn (k :: ks) a
  = (let '(a', proceed) := fn a k (λ _, cacheView_Get s k) in
     if proceed then cacheView_Iter_loop s fn ks a' else a').
Proof. done. Qed.

Lemma Scan_loop {T} `{!Dyn T} (c : Collection T) (s : storage)
    (filters : list (T → bool)) ks (l0 : list T) :
  match cacheView_Iter_loop s (Scan_visit c collect filters) ks (Some l0) with
  | None => ∃ k, k ∈ ks ∧ Codec.parseKey k = None
  | Some l =>
      (∀ k, k ∈ ks → Codec.parseKey k ≠ None)
      ∧ ∀ t, t ∈ l ↔ t ∈ l0 ∨ ∃ k, k ∈ ks ∧ scanned c s filters k t
  end.
Proof.
  revert l0. induction ks as [|k ks IH]; intros l0.
  - simpl. split; [by intros k ?%elem_of_nil|].
    intros t. split; [auto|]. by intros [?|(k & ?%elem_of_nil & _)].
  - rewrite cacheView_Iter_loop_cons.
    destruct (Codec.parseKey k) as [r|] eqn:Hp.
    + destruct (Scan_visit_step c s filters l0 k r Hp) as (new & -> & Hnew).
      specialize (IH (l0 ++ new)%list).
      destruct (cacheView_Iter_loop s _ ks (Some (l0 ++ new)%list)) as [l|].
      * destruct IH as [Hall Hl]. split.
        -- intros k' [->|Hin]%elem_of_cons; [congruence|by apply Hall].
        -- intros t. rewrite Hl, elem_of_app, Hnew. split.
           ++ intros [[?|Hsc]|(k' & Hin & Hsc)]; [by left|right..].
              ** exists k. split; [apply elem_of_cons; by left|done].
              ** exists k'. split; [apply elem_of_cons; by right|done].
           ++ intros [?|(k' & [->|Hin]%elem_of_cons & Hsc)].
              ** left. by left.
              ** left. by right.
              ** right. by exists k'.
      * destruct IH as (k' & Hin & Hk'). exists k'.
        split; [apply elem_of_cons; by right|done].
    + unfold Scan_visit at 1. rewrite Hp. exists k.
      split; [apply elem_of_cons; by left|done].
Qed.

(** X22. What [Scan] hands to [consume] when [consume] always proceeds. It
    panics exactly when [parseKey] panics on a key listed under the kind.
    Otherwise it consumes exactly the typed items that pass every filter
    and are stored under a key listed under the kind whose attribute name
    is that of the primary index; the kind part of the key is not
    compared with the kind of the collection. *)
Theorem Scan_consumes {T} `{!Dyn T} (c : Collection T) (d : db)
    (filters : list (T → bool)) :
  range_complete → range_sound →
  let listed k := ∃ K, tagToKeys (db_storage d) !! kind c = Some K ∧ k ∈ K in
  (Collection_Scan c d collect filters [] = None
   ↔ ∃ k, listed k ∧ Codec.parseKey k = None)
  ∧ ∀ l, Collection_Scan c d collect filters [] = Some l →
      ∀ t, t ∈ l ↔ ∃ k, listed k ∧ scanned c (db_storage d) filters k t.
Proof.
  intros Hc Hs listed. subst listed. unfold Collection_Scan, db_Iter, cacheView_Iter.
  destruct (tagToKeys (db_storage d) !! kind c) as [K|] eqn:HK.
  - pose proof (Scan_loop c (db_storage d) filters (range K) []) as Hloop.
    destruct (cacheView_Iter_loop _ _ (range K) (Some [])) as [l|].
    + destruct Hloop as [Hall Hl]. split.
      * split; [done|]. intros (k & (K' & HK' & Hin) & Hp).
        injection HK' as <-.
        destruct (Hall k); [by apply Hc|done].
      * intros l' [= <-] t. rewrite Hl. split.
        -- intros [?%elem_of_nil|(k & Hin & Hsc)]; [done|].
           exists k. split; [|done]. exists K. split; [done|]. by apply Hs.
        -- intros (k & (K' & HK' & Hin) & Hsc). right.
           injection HK' as <-.
           exists k. split; [by apply Hc|done].
    + destruct Hloop as (k & Hin & Hp). split; [|done].
      split; [|done]. intros _. exists k. split; [|done].
      exists K. split; [done|]. by apply Hs.
  - split.
    + split; [done|]. by intros (k & (K' & HK' & _) & _).
    + intros l [= <-] t. split; [by intros ?%elem_of_nil|].
      by intros (k & (K' & HK' & _) & _).
Qed.

(** *** Derivatives *)






(** X23. A derivation that fails is not cached: the error is returned with no
    output, the store stays as it was, and the key is still absent. *)
Theorem Derive_error_is_not_cached {In Out} `{!Dyn Out} (collection : Collection In)
    name pkref (fn : In → W → Out * option error * W) i (d : db) w out e w1 :
  overlay_empty d →
  ref (col_pk collection) = Some pkref →
  db_Get d (Derive_key collection name pkref i) = (anil, false) →
  fn i w = (out, Some e, w1) →
  ∃ d1, Derive collection name fn i d w = Some (d1, (None, Some e), w1)
    ∧ overlay_empty d1
    ∧ db_storage d1 = db_storage d.
Proof.
  intros Hempty Hpk Hget Hfn. unfold Derive. rewrite Hpk.
  destruct (db_GetOrFill_miss d (Derive_key collection name pkref i)
              (λ w, let '(res, err, w') := fn i w in (to_any res, err, w'))
              [kind collection] w (to_any out) (Some e) w1 Hempty Hget)
    as (d1 & -> & Hempty1 & Hsame); [by rewrite Hfn|].
  simpl. by exists d1.
Qed.

(** X24. Items for which the primary index yields no value share one
    derivative: it is stored under the empty key, so the output derived
    for one such item is answered for every other, without deriving. *)
Theorem Derive_without_key_value_is_shared {In Out} `{!Dyn Out}
    (collection : Collection In) name pkref (fn : In → W → Out * option error * W)
    i j (d : db) w out w1 :
  overlay_empty d →
  ref (col_pk collection) = Some pkref →
  pkref i = [] →
  pkref j = [] →
  db_Get d "" = (anil, false) →
  fn i w = (out, None, w1) →
  ∃ d1, Derive collection name fn i d w = Some (d1, (Some out, None), w1)
    ∧ ∀ w2, Derive collection name fn j d1 w2 = Some (d1, (Some out, None), w2).
Proof.
  intros Hempty Hpk Hi Hj Hget Hfn.
  assert (Hki : Derive_key collection name pkref i = "")
    by (unfold Derive_key; by rewrite Hi).
  assert (Hkj : Derive_key collection name pkref j = "")
    by (unfold Derive_key; by rewrite Hj).
  destruct (Derive_miss collection name pkref fn i d w out w1 Hempty Hpk)
    as (d1 & Hcall & _ & Hget1 & _); [by rewrite Hki|done|].
  exists d1. split; [done|]. intros w2.
  rewrite (Derive_hit collection name pkref fn j d1 w2 (to_any out) Hpk).
  - by rewrite assert_to_any.
  - by rewrite Hkj, <- Hki.
Qed.

(** *** Inferences *)

(** X25. The hook that [Infer] appends for a base collection reads the
    inferred collection when it is called. Whatever state the two
    collections are in by then, it loads nothing as long as the inferred
    collection has no primary index: it leaves the overlay as it is,
    whatever the mapping function yields and whatever the base collection
    holds. [Infer] returns the inferred collection without a primary
    index, so this is what the hook does until an option gives it one. *)
Theorem Infer_needs_primary_key {Base Inferred} `{!Dyn Inferred}
    (baseCol : Collection Base) (mapBy : string) (mapFn' : mapFn Base Inferred)
    (baseNow : Collection Base) (inferredNow : Collection Inferred) :
  kind (Infer baseCol mapBy mapFn').2 = mapBy
  ∧ ref (col_pk (Infer baseCol mapBy mapFn').2) = None
  ∧ ∃ hook,
      inferences ((Infer baseCol mapBy mapFn').1 baseNow inferredNow)
      = (inferences baseCol ++ [hook])%list
      ∧ (ref (col_pk inferredNow) = None →
         ∀ base (t : transaction), run (hook base) t = Some (t, tt)).
Proof.
  split; [done|]. split; [done|].
  eexists. split; [done|]. intros Hpk base t.
  assert (Htr : trace (Infer_hook baseNow mapBy mapFn' inferredNow base)
                = Some ([], tt)).
  { unfold Infer_hook.
    rewrite (trace_wseq_fmap _ (λ _, [])); [by rewrite bind_const_nil|].
    intros [kv items'] _. unfold Collection_indexer. by rewrite Hpk. }
  by rewrite (run_trace _ _ _ t Htr).
Qed.

Lemma trace_Infer_hook {Base Inferred} `{!Dyn Inferred}
    (baseCol : Collection Base) (mapBy : string) (mapFn' : mapFn Base Inferred)
    (inferredCol : Collection Inferred) ipk bpk base :
  ref (col_pk inferredCol) = Some ipk →
  ref (col_pk baseCol) = Some bpk →
  Forall (λ idx, is_Some (ref idx)) (keys inferredCol) →
  inferences inferredCol = [] →
  trace (Infer_hook baseCol mapBy mapFn' inferredCol base)
  = Some ('(kv, items') ← mapFn' base;
          item ← items';
          v ← ipk item;
          (loadItem_ops inferredCol
             (Codec.mkKey (kind inferredCol) (ikey (col_pk inferredCol)) v) item
           ++ ((λ _, OpTag
                       (Codec.mkKey (kind inferredCol) (ikey (col_pk inferredCol)) v)
                       [Codec.mkKey (kind baseCol) mapBy kv]) <$> bpk base))%list,
          tt).
Proof.
  intros Hipk Hbpk Hall Hinf. unfold Infer_hook.
  apply trace_wseq_fmap. intros [kv items'] _.
  apply (trace_indexer inferredCol ipk items' _
           (λ key item,
              loadItem_ops inferredCol key item
              ++ ((λ _, OpTag key [Codec.mkKey (kind baseCol) mapBy kv]) <$> bpk base))%list);
    [done|].
  intros key item. rewrite trace_wbind, trace_loadItem by done. simpl.
  rewrite Hbpk.
  rewrite (trace_wseq_fmap _ (λ _, [OpTag key [Codec.mkKey (kind baseCol) mapBy kv]]))
    by done.
  simpl. by rewrite bind_singleton_fmap.
Qed.

(** X26. What the hook does once both collections have a primary index: for
    each item the mapping function yields and each value the primary
    index of the inferred collection yields for it, it loads the item as
    [loadItem] does and then tags its key with the tag of the mapped
    value under the base kind, once per value of the base item's primary
    index. *)
Theorem Infer_hook_writes {Base Inferred} `{!Dyn Inferred}
    (baseCol : Collection Base) (mapBy : string) (mapFn' : mapFn Base Inferred)
    (inferredCol : Collection Inferred) ipk bpk base (t : transaction) :
  ref (col_pk inferredCol) = Some ipk →
  ref (col_pk baseCol) = Some bpk →
  Forall (λ idx, is_Some (ref idx)) (keys inferredCol) →
  inferences inferredCol = [] →
  run (Infer_hook baseCol mapBy mapFn' inferredCol base) t
  = Some (foldl apply_op t
            ('(kv, items') ← mapFn' base;
             item ← items';
             v ← ipk item;
             (loadItem_ops inferredCol
                (Codec.mkKey (kind inferredCol) (ikey (col_pk inferredCol)) v) item
              ++ ((λ _, OpTag
                          (Codec.mkKey (kind inferredCol) (ikey (col_pk inferredCol)) v)
                          [Codec.mkKey (kind baseCol) mapBy kv]) <$> bpk base))%list),
          tt).
Proof.
  intros Hipk Hbpk Hall Hinf. apply run_trace. by apply trace_Infer_hook.
Qed.

(** X28. Reloading a base collection that carries the hook of an inference:
    [Invalidate] never panics, and for every base item it loads, every
    item the mapping function yields for it and every value the primary
    index of the inferred collection yields for that item, the key of the
    inferred item is afterwards handed over by an iteration of the tag
    that the query of the inference iterates for the mapped value. The
    hook reads the kind and the primary index of the base collection. *)
Theorem Infer_tags_inferred_items {Base Inferred} `{!Dyn Base} `{!Dyn Inferred}
    (c c0 : Collection Base) (mapBy : string) (mapFn' : mapFn Base Inferred)
    (inferredCol : Collection Inferred) x bpk ipk (d : db) w batches w' :
  range_complete →
  overlay_empty d →
  extract c = Some x →
  x w = (batches, w') →
  ref (col_pk c) = Some bpk →
  Forall (λ idx, is_Some (ref idx)) (keys c) →
  kind c0 = kind c →
  col_pk c0 = col_pk c →
  inferences c = [Infer_hook c0 mapBy mapFn' inferredCol] →
  ref (col_pk inferredCol) = Some ipk →
  Forall (λ idx, is_Some (ref idx)) (keys inferredCol) →
  inferences inferredCol = [] →
  ∃ d', Collection_Invalidate c d w = Some (d', w')
    ∧ overlay_empty d'
    ∧ ∀ bv base kv items' item v,
        (bv, base) ∈ Load_pairs bpk batches →
        (kv, items') ∈ mapFn' base →
        item ∈ items' →
        v ∈ ipk item →
        Codec.mkKey (kind inferredCol) (ikey (col_pk inferredCol)) v
        ∈ visited_keys d' (Codec.mkKey (kind c) mapBy kv).
Proof.
  intros Hc Hempty Hx Hxw Hbpk Hall Hkind Hpk Hinf Hipk Halli Hinfi.
  assert (Hbpk0 : ref (col_pk c0) = Some bpk) by (by rewrite Hpk).
  pose proof (trace_Load_hooks c x bpk w batches w'
                (λ _ base,
                   '(kv, items') ← mapFn' base;
                   item ← items';
                   v ← ipk item;
                   (loadItem_ops inferredCol
                      (Codec.mkKey (kind inferredCol) (ikey (col_pk inferredCol)) v) item
                    ++ ((λ _, OpTag
                                (Codec.mkKey (kind inferredCol)
                                   (ikey (col_pk inferredCol)) v)
                                [Codec.mkKey (kind c0) mapBy kv]) <$> bpk base))%list)
                Hx Hxw Hbpk Hall) as Htr.
  rewrite Hinf in Htr.
  specialize (Htr ltac:(intros infer base ->%list_elem_of_singleton;
                        by apply trace_Infer_hook)).
  eexists. split; [by apply (Collection_Invalidate_run c d w _ w' Hempty Htr)|].
  split; [by split|].
  intros bv base kv items' item v Hbase Hkv Hitem Hv.
  set (c1 := (transaction_Invalidate _ [kind c]).1).
  match goal with
  | |- context [foldl apply_op c1 ?l] => set (ops := l)
  end.
  assert (Hop : OpTag (Codec.mkKey (kind inferredCol) (ikey (col_pk inferredCol)) v)
                  [Codec.mkKey (kind c) mapBy kv] ∈ ops).
  { subst ops. apply list_elem_of_bind. exists (bv, base). split; [|done].
    apply elem_of_app. right. rewrite bind_singleton.
    apply list_elem_of_bind. exists (kv, items'). split; [|done].
    apply list_elem_of_bind. exists item. split; [|done].
    apply list_elem_of_bind. exists v. split; [|done].
    apply elem_of_app. right. rewrite Hkind.
    apply list_elem_of_fmap. exists bv. split; [done|].
    unfold Load_pairs in Hbase.
    apply list_elem_of_bind in Hbase as (base' & Hin & _).
    by apply list_elem_of_fmap in Hin as (bv' & [= -> ->] & Hbv). }
  destruct (apply_ops_tagged ops c1 _ _ (Codec.mkKey (kind c) mapBy kv) Hop)
    as (K & HK & Hin); [apply elem_of_cons; by left|].
  unfold visited_keys, db_Iter, cacheView_Iter. simpl.
  rewrite lookup_publish_map. unfold effective. rewrite HK, visited_loop. simpl.
  by apply Hc.
Qed.

(** *** Options *)

Lemma existsb_ikey_false {T} (l : list (index T)) key :
  existsb (λ i, String.eqb (ikey i) key) l = false → key ∉ ikey <$> l.
Proof.
  induction l as [|i l IH]; simpl; [by intros _ ?%elem_of_nil|].
  intros [Hi Hl]%orb_false_iff [->|Hin]%elem_of_cons.
  - by rewrite String.eqb_refl in Hi.
  - by apply IH.
Qed.

(** X27. A collection made by [NewCollection] from the options of the
    package keeps its kind and has no inferences. Its secondary indexes
    have pairwise distinct names, are not primary and carry the kind of
    the collection, and each holds the function of an [AdditionalKey]
    option of its name as that option was given, nil included. Its
    primary index is the zero index, or carries the kind and holds the
    function of a [PrimaryKey] option as it was given. *)
Theorem NewCollection_indexes {T} (kind' : string)
    (opts : list (CollectionOpt (V:=V) (W:=W) T)) :
  Forall std_opt opts →
  kind (NewCollection kind' opts) = kind'
  ∧ inferences (NewCollection kind' opts) = []
  ∧ NoDup (ikey <$> keys (NewCollection kind' opts))
  ∧ Forall (λ idx, pk idx = false ∧ ikind idx = kind'
                   ∧ AdditionalKey (ikey idx) (ref idx) ∈ opts)
      (keys (NewCollection kind' opts))
  ∧ (col_pk (NewCollection kind' opts) = Index false "" "" None
     ∨ ∃ name value, PrimaryKey name value ∈ opts
                     ∧ col_pk (NewCollection kind' opts) = Index true kind' name value).
Proof.
  unfold NewCollection, Collection_With.
  set (I := λ c : Collection T,
         kind c = kind' ∧ inferences c = [] ∧ NoDup (ikey <$> keys c)
         ∧ Forall (λ idx, pk idx = false ∧ ikind idx = kind'
                          ∧ AdditionalKey (ikey idx) (ref idx) ∈ opts) (keys c)
         ∧ (col_pk c = Index false "" "" None
            ∨ ∃ name value, PrimaryKey name value ∈ opts
                            ∧ col_pk c = Index true kind' name value)).
  assert (Hprimary : ∀ c name value,
             PrimaryKey name value ∈ opts →
             I c → I (addIndex c (kind c) name true value).1).
  { intros c name value Hin (Hk & Hinf & Hnd & Hall & Hpk). unfold addIndex.
    destruct (existsb _ (keys c)); [done|].
    split; [done|]. split; [done|]. split; [done|]. split; [done|].
    right. exists name, value. split; [done|]. simpl. by rewrite Hk. }
  assert (Hsecondary : ∀ c name value,
             AdditionalKey name value ∈ opts →
             I c → I (addIndex c (kind c) name false value).1).
  { intros c name value Hin (Hk & Hinf & Hnd & Hall & Hpk). unfold addIndex.
    destruct (existsb _ (keys c)) eqn:Hex; [done|].
    split; [done|]. split; [done|]. split; [|split; [|done]].
    - change (NoDup (ikey <$> (keys c ++ [Index false (kind c) name value])%list)).
      rewrite fmap_app. apply NoDup_app. split; [done|]. split.
      + intros x Hx ->%list_elem_of_singleton. by apply existsb_ikey_false in Hex.
      + apply NoDup_singleton.
    - change (Forall (λ idx, pk idx = false ∧ ikind idx = kind'
                             ∧ AdditionalKey (ikey idx) (ref idx) ∈ opts)
                (keys c ++ [Index false (kind c) name value])%list).
      apply Forall_app. split; [done|]. apply Forall_singleton. simpl. eauto. }
  assert (Hgen : ∀ rest c, I c → (∀ o, o ∈ rest → o ∈ opts) → Forall std_opt rest →
                           I (foldl (λ c opt, opt c) c rest)).
  { induction rest as [|o rest IH]; intros c Hc Hsub Hstd; [done|].
    apply Forall_cons in Hstd as [Ho Hstd]. simpl.
    assert (Hin : o ∈ opts) by (apply Hsub, elem_of_cons; by left).
    apply IH; [|intros o' Ho'; apply Hsub, elem_of_cons; by right|done].
    destruct Ho as [x|name value|name value].
    - done.
    - by apply Hprimary.
    - by apply Hsecondary. }
  intros Hopts. apply (Hgen opts); [|done|done].
  split; [done|]. split; [done|].
  split; [apply NoDup_nil_2|]. split; [apply Forall_nil_2|by left].
Qed.

(** *** Indexes without a function *)

Lemma aborts_run {R} (p : wprog R) (t : transaction) : aborts p → run p t = None.
Proof.
  intros Hp. revert t. induction Hp as [|key val k _ IH|key tags k _ IH]; intros t; simpl.
  - done.
  - apply IH.
  - apply IH.
Qed.

Lemma aborts_wbind {R S} (p : wprog R) (f : R → wprog S) :
  aborts p → aborts (wbind p f).
Proof. induction 1; simpl; by constructor. Qed.

Lemma trace_aborts_wbind {R S} (p : wprog R) (f : R → wprog S) ops r :
  trace p = Some (ops, r) → aborts (f r) → aborts (wbind p f).
Proof.
  revert ops.
  induction p as [r0| |key k IH|A tag fn a k IH|key val k IH|key tags k IH|tags k IH];
    intros ops; simpl; try done.
  - by intros [= _ <-].
  - destruct (trace k) as [[ops' r']|] eqn:Hk; simpl; [|done].
    intros [= _ <-] Hf. constructor. by eapply IH.
  - destruct (trace k) as [[ops' r']|] eqn:Hk; simpl; [|done].
    intros [= _ <-] Hf. constructor. by eapply IH.
Qed.

Lemma aborts_wseq (ps : list (wprog unit)) :
  (∀ p, p ∈ ps → is_Some (trace p) ∨ aborts p) →
  (∃ p, p ∈ ps ∧ aborts p) →
  aborts (wseq ps).
Proof.
  induction ps as [|p ps IH]; intros Hall (p0 & Hin & Hp0).
  - by apply elem_of_nil in Hin.
  - rewrite wseq_cons.
    destruct (Hall p) as [[[ops []] Htr]|Hp]; [apply elem_of_cons; by left| |].
    + apply elem_of_cons in Hin as [->|Hin]; [by apply aborts_wbind|].
      apply (trace_aborts_wbind p _ ops tt Htr). apply IH; [|by exists p0].
      intros p' Hp'. apply Hall, elem_of_cons. by right.
    + by apply aborts_wbind.
Qed.

Lemma tagItemWithIndexes_aborts {T} (c : Collection T) key (item : T) idx :
  idx ∈ keys c → ref idx = None →
  aborts (Collection_tagItemWithIndexes c key item).
Proof.
  intros Hin Hnil. unfold Collection_tagItemWithIndexes. apply aborts_wseq.
  - intros p (idx' & -> & _)%list_elem_of_fmap.
    destruct (ref idx') as [r|]; [left|right; constructor].
    rewrite (trace_wseq_fmap _ (λ v, [OpTag key [Codec.mkKey (kind c) (ikey idx') v]]))
      by done.
    by eexists.
  - eexists. split; [apply list_elem_of_fmap; by exists idx|].
    rewrite Hnil. constructor.
Qed.

Lemma loadItem_aborts {T} `{!Dyn T} (c : Collection T) key (item : T) idx :
  idx ∈ keys c → ref idx = None → aborts (Collection_loadItem c key item).
Proof.
  intros Hin Hnil. unfold Collection_loadItem. do 2 constructor.
  apply aborts_wbind. by eapply tagItemWithIndexes_aborts.
Qed.

Lemma indexer_aborts {T} `{!Dyn T} (c : Collection T) pkref (items' : list T) idx :
  ref (col_pk c) = Some pkref →
  idx ∈ keys c → ref idx = None →
  is_Some (trace (Collection_indexer c items' (Collection_loadItem c)))
  ∨ aborts (Collection_indexer c items' (Collection_loadItem c)).
Proof.
  intros Hpk Hin Hnil. unfold Collection_indexer. rewrite Hpk.
  destruct (items' ≫= _) as [|p ps] eqn:Hps; [left; by eexists|].
  right. rewrite <- Hps. apply aborts_wseq.
  - intros p' (item & (v & -> & _)%list_elem_of_fmap & _)%list_elem_of_bind.
    right. by eapply loadItem_aborts.
  - exists p. split; [rewrite Hps; apply elem_of_cons; by left|].
    assert (Hp : p ∈ p :: ps) by (apply elem_of_cons; by left).
    rewrite <- Hps in Hp.
    apply list_elem_of_bind in Hp as (item & (v & -> & _)%list_elem_of_fmap & _).
    by eapply loadItem_aborts.
Qed.

Lemma indexer_aborts_on_pair {T} `{!Dyn T} (c : Collection T) pkref (items' : list T)
    idx item v :
  ref (col_pk c) = Some pkref →
  idx ∈ keys c → ref idx = None →
  item ∈ items' → v ∈ pkref item →
  aborts (Collection_indexer c items' (Collection_loadItem c)).
Proof.
  intros Hpk Hin Hnil Hitem Hv. unfold Collection_indexer. rewrite Hpk.
  apply aborts_wseq.
  - intros p' (item' & (v' & -> & _)%list_elem_of_fmap & _)%list_elem_of_bind.
    right. by eapply loadItem_aborts.
  - eexists. split.
    + apply list_elem_of_bind. exists item. split; [|done].
      apply list_elem_of_fmap. by exists v.
    + by eapply loadItem_aborts.
Qed.

Lemma elem_of_concat {A} (x : A) (ls : list (list A)) :
  x ∈ concat ls → ∃ l, x ∈ l ∧ l ∈ ls.
Proof.
  induction ls as [|l ls IH]; simpl; [by intros ?%elem_of_nil|].
  intros [Hx|Hx]%elem_of_app.
  - exists l. split; [done|]. apply elem_of_cons. by left.
  - destruct (IH Hx) as (l' & ? & ?). exists l'. split; [done|].
    apply elem_of_cons. by right.
Qed.

(** X30. A secondary index registered with a nil function makes a load panic
    as soon as it meets an item: for a collection with an extractor and a
    primary index, [Load] panics on every overlay, and [Invalidate] on
    every store, when the primary index yields a value for some item that
    the extractor hands over. *)
Theorem Load_panics_on_nil_index {T} `{!Dyn T} (c : Collection T) x pkref w batches w'
    idx :
  extract c = Some x →
  x w = (batches, w') →
  ref (col_pk c) = Some pkref →
  idx ∈ keys c →
  ref idx = None →
  Load_pairs pkref batches ≠ [] →
  (∀ t : transaction, run (Collection_Load c w) t = None)
  ∧ ∀ d : db, Collection_Invalidate c d w = None.
Proof.
  intros Hx Hxw Hpk Hin Hnil Hne.
  assert (Habort : aborts (Collection_Load c w)).
  { unfold Collection_Load. rewrite Hx, Hxw. apply aborts_wbind, aborts_wseq.
    - intros p (items' & -> & _)%list_elem_of_fmap. by eapply indexer_aborts.
    - destruct (Load_pairs pkref batches) as [|[v item] l] eqn:Hpairs; [done|].
      assert (Hp : (v, item) ∈ Load_pairs pkref batches)
        by (rewrite Hpairs; apply elem_of_cons; by left).
      unfold Load_pairs in Hp.
      apply list_elem_of_bind in Hp as (item' & (v' & [= -> ->] & Hv)%list_elem_of_fmap & Hitem).
      apply elem_of_concat in Hitem as (items' & Hitem & Hbatch).
      eexists. split; [apply list_elem_of_fmap; by exists items'|].
      by eapply indexer_aborts_on_pair. }
  split.
  - intros t. by apply aborts_run.
  - intros d. unfold Collection_Invalidate, db_Update. simpl.
    destruct (transaction_Invalidate _ [kind c]) as [c1 deleted].
    assert (Hrun : run (wbind (Collection_Load c w) (λ w0, Return (w0, @None error))) c1
                   = None) by (by apply aborts_run, aborts_wbind).
    by rewrite Hrun.
Qed.

End MoreFacts.

(** * Concrete runs *)

Lemma range_complete_elements : @range_complete elements_order.
Proof. intros X x Hx. by apply elem_of_elements. Qed.

Lemma range_sound_elements : @range_sound elements_order.
Proof. intros X x Hx. by apply elem_of_elements in Hx. Qed.

(** Closing a goal made of concrete evaluations. *)
Ltac by_evaluation := repeat apply conj; vm_compute; reflexivity.

Lemma two_tag_store_overlay_empty : overlay_empty two_tag_store.
Proof. by_evaluation. Qed.


Example Update_publishes :
  db_Update two_tag_store succeeding_updateFn
  = Some (after_succeeding_update, tt, None)
  ∧ db_Get after_succeeding_update "a" = (aval "1", true)
  ∧ db_Get after_succeeding_update "k" = (anil, false)
  ∧ db_Get after_succeeding_update "k1" = (aval "v1", true).
Proof. by_evaluation. Qed.

(** *** Consistency *)

Lemma NewDB_consistent : consistent (db_storage (NewDB (V:=string))).
Proof.
  split; [|split].
  - intros k [x Hx]. simpl in Hx. by rewrite lookup_empty in Hx.
  - intros k T tag HT. simpl in HT. by rewrite lookup_empty in HT.
  - intros tag K k HK. simpl in HK. by rewrite lookup_empty in HK.
Qed.

(** [Put] alone breaks the first part of the consistency: the stored
    key has no key→tags entry. *)
Lemma Put_breaks_consistency :
  consistent (db_storage (NewDB (V:=string)))
  ∧ db_Put NewDB "k" (aval "v") = Some put_only
  ∧ ¬ consistent (db_storage put_only).
Proof.
  split; [apply NewDB_consistent|]. split; [vm_compute; reflexivity|].
  intros (Hitems & _).
  assert (Hk : items (db_storage put_only) !! "k" = Some (aval "v"))
    by (vm_compute; reflexivity).
  assert (Hnone : keyToTags (db_storage put_only) !! "k" = None)
    by (vm_compute; reflexivity).
  destruct (Hitems "k") as [T HT]; [by rewrite Hk|]. congruence.
Qed.

Lemma consistency_preserved_witness : consistent (db_storage tagged_once).
Proof.
  destruct (consistency_preserved_as_designed (NewDB (V:=string))
              NewDB_overlay_empty) as (_ & Htag & _).
  apply (Htag "k" ["t"] tagged_once); [vm_compute; reflexivity|apply NewDB_consistent].
Defined.

(** Invalidating [t2] deletes [k], which carried [t1] and [t2], and with
    it drops the whole tag [t1]: the surviving key [k1], tagged [t1]
    only, still lists [t1] but is no longer reachable through it, and a
    later [Invalidate(t1)] leaves it in the store. *)
Example Invalidate_drops_tag_of_surviving_key :
  db_Invalidate two_tag_store ["t2"] = Some (after_invalidate_t2, ["k"; "t2"])
  ∧ db_Get after_invalidate_t2 "k1" = (aval "v1", true)
  ∧ keyToTags (db_storage after_invalidate_t2) !! "k1" = Some {["t1"]}
  ∧ tagToKeys (db_storage after_invalidate_t2) !! "t1" = None
  ∧ db_Invalidate after_invalidate_t2 ["t1"] = Some (after_invalidate_t2_t1, [])
  ∧ db_Get after_invalidate_t2_t1 "k1" = (aval "v1", true).
Proof. by_evaluation. Qed.

(** *** GetOrFill *)


(** The sequence of db_test.go: a failing fill stores nothing, the next
    fill is stored, a third fill is ignored. *)
Example GetOrFill_db_test :
  db_GetOrFill (NewDB (V:=string)) "foo" fill_fails [] 0%nat
  = Some (after_failed_fill, (anil, Some (ErrCallback "not found")), 1%nat)
  ∧ db_Get after_failed_fill "foo" = (anil, false)
  ∧ db_GetOrFill after_failed_fill "foo" fill_barz [] 1%nat
    = Some (after_second_fill, (aval "barz", None), 2%nat)
  ∧ db_GetOrFill after_second_fill "foo" fill_bar [] 2%nat
    = Some (after_second_fill, (aval "barz", None), 2%nat).
Proof. by_evaluation. Qed.

(** *** The overlay *)

Lemma transaction_Iter_panics_witness :
  transaction_Iter two_tag_overlay "t1" count_visits 0%nat = None.
Proof.
  apply (transaction_Iter_panics two_tag_overlay "t1" count_visits 0%nat "k"
           range_complete_elements).
  - vm_compute. reflexivity.
  - left.
    assert (Hkeys : tagToKeys (origin two_tag_overlay) !! "t1" = Some {["k"; "k1"]})
      by (vm_compute; reflexivity).
    rewrite Hkeys. simpl. apply elem_of_union_l. by apply elem_of_singleton.
Defined.

(** A key present in the deletions and in the additions is not absent:
    [Get] returns the added value. *)
Lemma Get_added_wins_over_deleted :
  items (deletions reput_overlay) !! "k" = Some anil
  ∧ items (additions reput_overlay) !! "k" = Some (aval "v2")
  ∧ transaction_Get reput_overlay "k" = (aval "v2", true).
Proof. by_evaluation. Qed.

Lemma transaction_Get_precedence_witness :
  transaction_Get reput_overlay "k" = (aval "v2", true)
  ∧ transaction_Get two_tag_overlay "k1" = cacheView_Get (db_storage two_tag_store) "k1"
  ∧ transaction_Get two_tag_overlay "absent" = (anil, false).
Proof.
  destruct (transaction_Get_precedence reput_overlay "k") as (Hadded & _ & _).
  destruct (transaction_Get_precedence two_tag_overlay "k1") as (_ & Horigin & _).
  destruct (transaction_Get_precedence two_tag_overlay "absent") as (_ & _ & Habsent).
  split; [|split].
  - apply Hadded. vm_compute. reflexivity.
  - apply Horigin; vm_compute; reflexivity.
  - apply Habsent; vm_compute; reflexivity.
Defined.

(** A key of the origin that the callback invalidated is reported as
    present with the nil value. *)
Example Get_after_Invalidate_reports_ok :
  items (deletions invalidated_overlay) !! "k" = Some anil
  ∧ items (additions invalidated_overlay) !! "k" = None
  ∧ transaction_Get invalidated_overlay "k" = (anil, true).
Proof. by_evaluation. Qed.

(** *** Invalidate *)

(** The key [k] is tagged with exactly [t1] and [t2], it is stored, and
    after [Invalidate(t2)] it is neither retrievable nor enumerated under
    [t1]. *)
Lemma Invalidate_other_tag_deletes_key :
  db_Get two_tag_store "k" = (aval "v", true)
  ∧ keyToTags (db_storage two_tag_store) !! "k" = Some {["t1"; "t2"]}
  ∧ tagToKeys (db_storage two_tag_store) !! "t1" = Some {["k"; "k1"]}
  ∧ tagToKeys (db_storage two_tag_store) !! "t2" = Some {["k"]}
  ∧ db_Invalidate two_tag_store ["t2"] = Some (after_invalidate_t2, ["k"; "t2"])
  ∧ db_Get after_invalidate_t2 "k" = (anil, false)
  ∧ visited_keys after_invalidate_t2 "t1" = [].
Proof. by_evaluation. Qed.

Lemma Invalidate_deletes_key_witness :
  ∃ c' deleted,
    db_Invalidate two_tag_store ["t2"] = Some (c', deleted)
    ∧ db_Get c' "k" = (anil, false)
    ∧ "k" ∉ visited_keys c' "t1".
Proof.
  apply (Invalidate_deletes_key_under_other_tags two_tag_store
           "k" "t1" "t2" (aval "v") range_complete_elements two_tag_store_overlay_empty).
  - discriminate.
  - vm_compute. reflexivity.
  - vm_compute. reflexivity.
  - exists {["k"; "k1"]}. split; [vm_compute; reflexivity|].
    apply elem_of_union_l. by apply elem_of_singleton.
  - exists {["k"]}. split; [vm_compute; reflexivity|].
    by apply elem_of_singleton.
Defined.

(** *** Key codec *)

Lemma parseKey_mkKey_roundtrip_witness :
  Codec.parseKey (Codec.mkKey "foo" "id" "1") = Some ("foo", "id", "1", true).
Proof.
  apply (parseKey_mkKey_roundtrip "foo" "id" "1"); vm_compute; reflexivity.
Defined.

(** *** Collections and derivatives

    Items are pairs of an id and a pattern; the store holds such pairs,
    and a derived string is boxed as a pair with an empty second part. *)

Lemma bar_loaded_overlay_empty : overlay_empty bar_loaded.
Proof. by_evaluation. Qed.


(** The scenario of the collection test: the derivative is computed once,
    a changed pattern is not seen until the collection is invalidated,
    and then it is. *)
Example Derive_collection_test :
  Derive barCol "regex-pattern" pattern_of ("1", "\w+") bar_loaded 0%nat
  = Some (bar_derived, (Some "\w+", None), 1%nat)
  ∧ Derive barCol "regex-pattern" pattern_of ("1", "\d+") bar_derived 1%nat
    = Some (bar_derived, (Some "\w+", None), 1%nat)
  ∧ Collection_Invalidate barCol bar_derived 1%nat = Some (bar_reloaded, 1%nat)
  ∧ Derive barCol "regex-pattern" pattern_of ("1", "\d+") bar_reloaded 1%nat
    = Some (bar_derived_again, (Some "\d+", None), 2%nat).
Proof. by_evaluation. Qed.

(** The collection that [Infer] returns has no Extractor: loading or
    invalidating it panics. *)
Lemma Load_without_Extractor_panics_witness :
  extract (Infer barCol "foo-by-bar" (λ src : item, [(src.1, [src])])).2 = None
  ∧ Collection_Invalidate
      (Infer barCol "foo-by-bar" (λ src : item, [(src.1, [src])])).2 bar_loaded 0%nat
    = None.
Proof.
  destruct (Load_without_Extractor_panics (V:=item) (W:=nat))
    as (_ & Hinfer & _).
  destruct (Hinfer item item dyn_item barCol "foo-by-bar"
              (λ src : item, [(src.1, [src])])) as (Hx & _ & Hinv).
  split; [exact Hx|apply Hinv].
Defined.

(** *** Further runs of the key codec *)

Lemma parseKey_accepts_encoded_prefix_witness :
  ∃ rest, "bar{id:1}tail" = (Codec.mkKey "bar" "id" "1" ++ rest)%string.
Proof.
  apply (parseKey_accepts_encoded_prefix "bar{id:1}tail" "bar" "id" "1").
  vm_compute. reflexivity.
Defined.

(** *** Further runs of the store *)

Lemma Put_then_Get_witness :
  ∃ c', db_Put two_tag_store "a" (aval "1") = Some c'
    ∧ overlay_empty c'
    ∧ db_Get c' "a" = (aval "1", true)
    ∧ (∀ k, k ≠ "a" → db_Get c' k = db_Get two_tag_store k)
    ∧ keyToTags (db_storage c') = keyToTags (db_storage two_tag_store)
    ∧ tagToKeys (db_storage c') = tagToKeys (db_storage two_tag_store).
Proof.
  exact (Put_then_Get two_tag_store "a" (aval "1") two_tag_store_overlay_empty).
Defined.

Lemma Tag_effect_witness :
  ∃ c', db_Tag two_tag_store "k1" ["t2"; "t3"] = Some c'
    ∧ keyToTags (db_storage c') !! "k1" = Some {["t1"; "t2"; "t3"]}
    ∧ tagToKeys (db_storage c') !! "t2" = Some {["k"; "k1"]}
    ∧ tagToKeys (db_storage c') !! "t3" = Some {["k1"]}
    ∧ tagToKeys (db_storage c') !! "t1" = tagToKeys (db_storage two_tag_store) !! "t1".
Proof.
  destruct (Tag_effect two_tag_store "k1" ["t2"; "t3"] two_tag_store_overlay_empty)
    as (c' & Htag & _ & _ & Hk & Ht).
  exists c'. split; [exact Htag|]. split; [|split; [|split]].
  - rewrite (Hk "k1"). vm_compute. reflexivity.
  - rewrite (Ht "t2"). vm_compute. reflexivity.
  - rewrite (Ht "t3"). vm_compute. reflexivity.
  - rewrite (Ht "t1"). reflexivity.
Defined.

Lemma Iter_enumerates_tag_witness :
  "k1" ∈ visited_keys two_tag_store "t1"
  ∧ db_Iter two_tag_store "zz" count_visits 5%nat = 5%nat.
Proof.
  destruct (Iter_enumerates_tag two_tag_store "t1"
              range_complete_elements range_sound_elements) as (Hkeys & _ & _).
  destruct (Iter_enumerates_tag two_tag_store "zz"
              range_complete_elements range_sound_elements) as (_ & Hnone & _).
  split.
  - apply Hkeys. exists {["k"; "k1"]}. split; [vm_compute; reflexivity|].
    apply elem_of_union_r. by apply elem_of_singleton.
  - apply Hnone. vm_compute. reflexivity.
Defined.

Lemma Invalidate_unknown_tags_witness :
  ∃ c', db_Invalidate two_tag_store ["zz"] = Some (c', [])
    ∧ db_storage c' = db_storage two_tag_store
    ∧ overlay_empty c'.
Proof.
  apply (Invalidate_unknown_tags two_tag_store ["zz"] two_tag_store_overlay_empty).
  intros tag Hin. apply list_elem_of_singleton in Hin. subst tag.
  vm_compute. reflexivity.
Defined.

Lemma Invalidate_cascade_witness :
  ∃ c' deleted,
    db_Invalidate two_tag_store ["t2"] = Some (c', deleted)
    ∧ db_Get c' "k" = (anil, false)
    ∧ db_Get c' "t2" = (anil, false)
    ∧ tagToKeys (db_storage c') !! "t2" = None
    ∧ "k" ∈ deleted ∧ "t2" ∈ deleted.
Proof.
  destruct (Invalidate_cascade two_tag_store "t2" {["k"]}
              range_complete_elements range_sound_elements
              two_tag_store_overlay_empty)
    as (c' & deleted & Hinv & Hkeys & Htag & Hdrop & Hdel & _).
  { vm_compute. reflexivity. }
  exists c', deleted. split; [exact Hinv|]. split; [|split; [|split; [|split]]].
  - apply Hkeys. by apply elem_of_singleton.
  - exact Htag.
  - exact Hdrop.
  - apply Hdel. left. by apply elem_of_singleton.
  - apply Hdel. by right.
Defined.

Lemma Put_at_the_end_is_published_witness :
  db_Get after_invalidate_put "k" = (aval "again", true).
Proof.
  apply (Put_at_the_end_is_published two_tag_store after_invalidate_put
           invalidate_t1 "k" (aval "again") tt tt None).
  vm_compute. reflexivity.
Defined.

Lemma Get_after_Invalidate_in_callback_witness :
  ∃ c1 deleted,
    run (CallInvalidate ["t2"] (λ deleted, CallGet "k" (λ r, Return (deleted, r))))
      (open_overlay two_tag_store)
    = Some (c1, (deleted, (anil, true))).
Proof.
  apply (Get_after_Invalidate_in_callback two_tag_store "t2" {["k"]} "k" (aval "v")
           range_complete_elements two_tag_store_overlay_empty).
  - vm_compute. reflexivity.
  - by apply elem_of_singleton.
  - vm_compute. reflexivity.
Defined.

Lemma GetOrFill_binds_tags_witness : "foo" ∈ visited_keys after_fill "t".
Proof.
  apply (GetOrFill_binds_tags NewDB after_fill "foo" fill_barz ["t"] 0%nat
           (aval "barz") 1%nat range_complete_elements NewDB_overlay_empty).
  - vm_compute. reflexivity.
  - vm_compute. reflexivity.
  - apply elem_of_cons. by left.
Defined.

Lemma Invalidate_then_Tag_relists_witness :
  ∃ c',
    db_Update two_tag_store
      (CallInvalidate ["t1"] (λ _, CallTag "new" ["t1"] (Return (tt, None))))
    = Some (c', tt, None)
    ∧ tagToKeys (db_storage c') !! "t1" = Some ({["new"]} ∪ {["k"; "k1"]})
    ∧ db_Get c' "k" = (anil, false)
    ∧ db_Get c' "k1" = (anil, false).
Proof.
  destruct (Invalidate_then_Tag_relists two_tag_store "t1" "new" {["k"; "k1"]}
              range_complete_elements two_tag_store_overlay_empty)
    as (c' & Hupd & Htag & Hgone).
  { vm_compute. reflexivity. }
  exists c'. split; [exact Hupd|]. split; [exact Htag|]. split.
  - apply Hgone. apply elem_of_union_l. by apply elem_of_singleton.
  - apply Hgone. apply elem_of_union_r. by apply elem_of_singleton.
Defined.

Lemma transaction_Iter_never_visits_witness :
  ∃ n, transaction_Iter invalidated_overlay "t2" count_visits 0%nat = Some n
       ∧ n = 0%nat.
Proof.
  exists 0%nat. split; [vm_compute; reflexivity|].
  apply (transaction_Iter_never_visits invalidated_overlay "t2" count_visits
           0%nat 0%nat range_sound_elements).
  vm_compute. reflexivity.
Defined.

(** *** Further runs of collections *)

Lemma foo_loaded_overlay_empty : overlay_empty foo_loaded.
Proof. by_evaluation. Qed.

Lemma fooCol_keys : Forall (λ idx, is_Some (ref idx)) (keys fooCol).
Proof. apply Forall_singleton. by eexists. Qed.

Lemma Load_writes_witness :
  run (Collection_Load fooCol 0%nat) fresh_overlay
  = Some (foldl apply_op fresh_overlay
            [OpPut "foo{id:1}" (aval ("1", "a")); OpTag "foo{id:1}" ["foo"];
             OpTag "foo{id:1}" ["foo{group:a}"];
             OpPut "foo{id:2}" (aval ("2", "a")); OpTag "foo{id:2}" ["foo"];
             OpTag "foo{id:2}" ["foo{group:a}"]], 1%nat).
Proof.
  assert (Hops : Load_ops fooCol item_id [[("1", "a"); ("2", "a")]]
                 = [OpPut "foo{id:1}" (aval ("1", "a")); OpTag "foo{id:1}" ["foo"];
                    OpTag "foo{id:1}" ["foo{group:a}"];
                    OpPut "foo{id:2}" (aval ("2", "a")); OpTag "foo{id:2}" ["foo"];
                    OpTag "foo{id:2}" ["foo{group:a}"]])
    by (vm_compute; reflexivity).
  rewrite <- Hops.
  apply (Load_writes fooCol foo_extract item_id 0%nat
           [[("1", "a"); ("2", "a")]] 1%nat fresh_overlay);
    [reflexivity|reflexivity|reflexivity|exact fooCol_keys|reflexivity].
Defined.

Lemma Load_without_primary_index_witness :
  run (Collection_Load unkeyedCol 0%nat) fresh_overlay = Some (fresh_overlay, 1%nat).
Proof.
  apply (Load_without_primary_index unkeyedCol foo_extract 0%nat
           [[("1", "a"); ("2", "a")]] 1%nat fresh_overlay); reflexivity.
Defined.

Lemma Invalidate_then_GetBy_witness :
  Collection_GetBy fooCol "id" foo_loaded "2" = (Some ("2", "a"), true)
  ∧ Collection_Scalar fooCol "id" "2" foo_loaded = (Some ("2", "a"), true).
Proof.
  destruct (Invalidate_then_GetBy fooCol foo_extract item_id NewDB 0%nat
              [[("1", "a"); ("2", "a")]] 1%nat NewDB_overlay_empty
              eq_refl eq_refl eq_refl fooCol_keys eq_refl)
    as (d' & Hinv & _ & Hget).
  unfold foo_loaded. rewrite Hinv.
  apply (Hget [("1", ("1", "a"))] "2" ("2", "a") []); [reflexivity|].
  by intros Hin%elem_of_nil.
Defined.

Lemma Invalidate_drops_missing_items_witness :
  Collection_GetBy fooCol "id" foo_reloaded "2" = (None, false).
Proof.
  apply (Invalidate_drops_missing_items fooCol foo_extract item_id foo_loaded
           foo_reloaded 1%nat [[("1", "a")]] 2%nat 2%nat
           {["foo{id:1}"; "foo{id:2}"]} "2"
           range_complete_elements foo_loaded_overlay_empty
           eq_refl eq_refl eq_refl fooCol_keys eq_refl).
  - vm_compute. reflexivity.
  - apply elem_of_union_r. by apply elem_of_singleton.
  - intros Hin. change ("2" ∈ ["1"]) in Hin.
    apply list_elem_of_singleton in Hin. discriminate.
  - vm_compute. reflexivity.
Defined.

Lemma Invalidate_keeps_stale_keys_witness :
  "foo{id:2}" ∈ visited_keys foo_reloaded "foo"
  ∧ db_Get foo_reloaded "foo{id:2}" = (anil, false).
Proof.
  split; [|vm_compute; reflexivity].
  apply (Invalidate_keeps_stale_keys fooCol foo_extract item_id foo_loaded
           foo_reloaded 1%nat [[("1", "a")]] 2%nat 2%nat
           {["foo{id:1}"; "foo{id:2}"]} "foo{id:2}"
           range_complete_elements foo_loaded_overlay_empty
           eq_refl eq_refl eq_refl fooCol_keys eq_refl).
  - vm_compute. reflexivity.
  - apply elem_of_union_r. by apply elem_of_singleton.
  - discriminate.
  - vm_compute. reflexivity.
Defined.

(** After the reload that moved the second item to group [b], the query
    over group [a] still answers it. *)
Lemma Invalidate_keeps_stale_index_entries_witness :
  "foo{id:2}" ∈ visited_keys foo_regrouped "foo{group:a}"
  ∧ Infer_query (Inferred:=item) "foo" "group" foo_regrouped "a" []
    = ([("1", "a"); ("2", "b")], None).
Proof.
  split; [|vm_compute; reflexivity].
  apply (Invalidate_keeps_stale_index_entries regroupCol regroup_extract item_id
           foo_loaded foo_regrouped 1%nat [[("1", "a"); ("2", "b")]] 2%nat 2%nat
           (Index false "foo" "group" (Some item_group)) item_group
           "1" ("1", "a") "a" {["foo{id:1}"; "foo{id:2}"]} "foo{id:2}"
           range_complete_elements foo_loaded_overlay_empty
           eq_refl eq_refl eq_refl fooCol_keys eq_refl).
  - apply elem_of_cons. by left.
  - reflexivity.
  - apply elem_of_cons. by left.
  - apply elem_of_cons. by left.
  - vm_compute. reflexivity.
  - apply elem_of_union_r. by apply elem_of_singleton.
  - vm_compute. reflexivity.
Defined.

(** After the reload that dropped an item, the query over its group
    fails: the key of the dropped item is still listed under the tag. *)
Lemma Query_answers_witness :
  is_Some (Infer_query (Inferred:=item) "foo" "group" foo_reloaded "a" []).2
  ∧ (Infer_query (Inferred:=item) "foo" "group" foo_loaded "a" []).2 = None.
Proof.
  destruct (Query_answers (W:=nat) (T:=item) "foo" "group" "a" foo_reloaded []
              range_complete_elements range_sound_elements) as (Hre & _).
  destruct (Query_answers (W:=nat) (T:=item) "foo" "group" "a" foo_loaded []
              range_complete_elements range_sound_elements) as (Hlo & _).
  split.
  - destruct (Infer_query "foo" "group" foo_reloaded "a" []).2 as [e|]; [by eexists|].
    destruct (proj1 Hre eq_refl {["foo{id:1}"; "foo{id:2}"]} "foo{id:2}") as [t Ht].
    + vm_compute. reflexivity.
    + apply elem_of_union_r. by apply elem_of_singleton.
    + vm_compute in Ht. discriminate.
  - apply Hlo. intros K k HK Hin.
    assert (HK' : tagToKeys (db_storage foo_loaded) !! Codec.mkKey "foo" "group" "a"
                  = Some {["foo{id:1}"; "foo{id:2}"]}) by (vm_compute; reflexivity).
    rewrite HK' in HK. injection HK as <-.
    apply elem_of_union in Hin as [Hin|Hin]; apply elem_of_singleton in Hin; subst k;
      eexists; vm_compute; reflexivity.
Defined.

Lemma secondary_getter_answers_witness :
  ∃ K k, tagToKeys (db_storage foo_loaded) !! "foo{group:a}" = Some K ∧ k ∈ K
         ∧ stored (db_storage foo_loaded) k = Some ("1", "a").
Proof.
  destruct (secondary_getter_answers fooCol "group" foo_loaded "a"
              range_sound_elements) as (_ & Hsound & _).
  apply Hsound. vm_compute. reflexivity.
Defined.

(** A derivative of the type of the items is stored under a key that is
    tagged with the kind and carries the name of the primary index, so
    [Scan] consumes it as an item of the collection. *)
Lemma Scan_consumes_witness :
  ∃ l, Collection_Scan barCol bar_normalised (λ acc t, ((acc ++ [t])%list, true)) [] []
       = Some l
       ∧ ("1", "normalised") ∈ l
       ∧ stored (db_storage bar_normalised) "bar/normalised{id:1}"
         = Some ("1", "normalised").
Proof.
  destruct (Scan_consumes barCol bar_normalised []
              range_complete_elements range_sound_elements) as (_ & Hl).
  exists [("1", "normalised"); ("1", "\w+")].
  assert (Hscan : Collection_Scan barCol bar_normalised
                    (λ acc t, ((acc ++ [t])%list, true)) [] []
                  = Some [("1", "normalised"); ("1", "\w+")])
    by (vm_compute; reflexivity).
  split; [exact Hscan|]. split; [|vm_compute; reflexivity].
  apply (Hl _ Hscan). exists "bar/normalised{id:1}". split.
  - exists {["bar/normalised{id:1}"; "bar{id:1}"]}. split; [vm_compute; reflexivity|].
    apply elem_of_union_l. by apply elem_of_singleton.
  - split; [|split; vm_compute; reflexivity].
    exists "bar/normalised", "1". vm_compute. reflexivity.
Defined.

Lemma Derive_error_is_not_cached_witness :
  ∃ d1, Derive barCol "regex-pattern" failing_pattern ("1", "\w+") bar_loaded 0%nat
        = Some (d1, (None, Some (ErrCallback "bad pattern")), 1%nat)
    ∧ overlay_empty d1
    ∧ db_storage d1 = db_storage bar_loaded.
Proof.
  apply (Derive_error_is_not_cached barCol "regex-pattern" item_id failing_pattern
           ("1", "\w+") bar_loaded 0%nat "" (ErrCallback "bad pattern") 1%nat
           bar_loaded_overlay_empty eq_refl).
  - vm_compute. reflexivity.
  - reflexivity.
Defined.

Lemma Derive_without_key_value_is_shared_witness :
  ∃ d1, Derive anonCol "regex-pattern" pattern_of ("1", "a") NewDB 0%nat
        = Some (d1, (Some "a", None), 1%nat)
    ∧ ∀ w2, Derive anonCol "regex-pattern" pattern_of ("2", "b") d1 w2
            = Some (d1, (Some "a", None), w2).
Proof.
  apply (Derive_without_key_value_is_shared anonCol "regex-pattern" no_id pattern_of
           ("1", "a") ("2", "b") NewDB 0%nat "a" 1%nat
           NewDB_overlay_empty eq_refl eq_refl eq_refl).
  - vm_compute. reflexivity.
  - reflexivity.
Defined.

Lemma Infer_needs_primary_key_witness :
  run (Infer_hook barCol "pattern" matches_of patternCol ("1", "\w+")) fresh_overlay
  = Some (fresh_overlay, tt).
Proof.
  destruct (Infer_needs_primary_key barCol "pattern" matches_of barCol patternCol)
    as (_ & Hpk & hook & Hhook & Hrun).
  injection Hhook as <-. by apply Hrun.
Defined.

Lemma Infer_hook_writes_witness :
  run (Infer_hook barCol "pattern" matches_of matchedCol ("1", "\w+")) fresh_overlay
  = Some (foldl apply_op fresh_overlay
            [OpPut "pattern{id:m1}" (aval ("m1", "1")); OpTag "pattern{id:m1}" ["pattern"];
             OpTag "pattern{id:m1}" ["bar{pattern:\w+}"];
             OpPut "pattern{id:m2}" (aval ("m2", "1")); OpTag "pattern{id:m2}" ["pattern"];
             OpTag "pattern{id:m2}" ["bar{pattern:\w+}"]], tt).
Proof.
  rewrite (Infer_hook_writes barCol "pattern" matches_of matchedCol item_id item_id
             ("1", "\w+") fresh_overlay eq_refl eq_refl);
    [|apply Forall_nil_2|reflexivity].
  do 2 f_equal.
Defined.

(** The inference of the collection test: after the inferred collection
    was given its primary index and the base collection was loaded, the
    inferred items are read back by key and through the query. *)
Lemma Infer_tags_inferred_items_witness :
  "pattern{id:m2}" ∈ visited_keys bar_inferred "bar{pattern:\w+}"
  ∧ Collection_GetBy matchedCol "id" bar_inferred "m1" = (Some ("m1", "1"), true)
  ∧ Infer_query (Inferred:=item) "bar" "pattern" bar_inferred "\w+" []
    = ([("m1", "1"); ("m2", "1")], None).
Proof.
  split; [|by_evaluation].
  destruct (Infer_tags_inferred_items barInferring barCol "pattern" matches_of
              matchedCol (λ w, ([[("1", "\w+")]], w)) item_id item_id NewDB 0%nat
              [[("1", "\w+")]] 0%nat range_complete_elements NewDB_overlay_empty
              eq_refl eq_refl eq_refl (Forall_nil_2 _) eq_refl eq_refl eq_refl
              eq_refl (Forall_nil_2 _) eq_refl)
    as (d' & Hinv & _ & Htag).
  unfold bar_inferred. rewrite Hinv.
  apply (Htag "1" ("1", "\w+") "\w+" [("m1", "1"); ("m2", "1")] ("m2", "1") "m2").
  - apply elem_of_cons. by left.
  - apply elem_of_cons. by left.
  - apply elem_of_cons. right. apply elem_of_cons. by left.
  - apply elem_of_cons. by left.
Defined.

(** The load of a collection whose secondary index has no function
    panics at the first item. *)
Lemma Load_panics_on_nil_index_witness :
  run (Collection_Load nilIndexCol 0%nat) fresh_overlay = None
  ∧ Collection_Invalidate nilIndexCol NewDB 0%nat = None.
Proof.
  destruct (Load_panics_on_nil_index nilIndexCol foo_extract item_id 0%nat
              [[("1", "a"); ("2", "a")]] 1%nat (Index false "foo" "group" None)
              eq_refl eq_refl eq_refl) as [Hload Hinv].
  - apply elem_of_cons. by left.
  - reflexivity.
  - discriminate.
  - split; [apply Hload|apply Hinv].
Defined.

Lemma NewCollection_indexes_witness :
  kind (NewCollection "foo" foo_opts) = "foo"
  ∧ inferences (NewCollection "foo" foo_opts) = []
  ∧ NoDup (ikey <$> keys (NewCollection "foo" foo_opts))
  ∧ Forall (λ idx, pk idx = false ∧ ikind idx = "foo"
                   ∧ AdditionalKey (ikey idx) (ref idx) ∈ foo_opts)
      (keys (NewCollection "foo" foo_opts))
  ∧ (col_pk (NewCollection "foo" foo_opts) = Index false "" "" None
     ∨ ∃ name value, PrimaryKey name value ∈ foo_opts
                     ∧ col_pk (NewCollection "foo" foo_opts)
                       = Index true "foo" name value).
Proof.
  apply (NewCollection_indexes "foo" foo_opts).
  repeat constructor.
Defined.
